(** * The sticky header controller (custom element [header-component])

    A shallow embedding of the [HeaderComponent] class: its private fields,
    the part of the page it reads and writes, the timers and animation
    frames it asks the browser for, and its handlers as state transformers.

    Conventions.
    - Pixel readings ([scrollTop], [getBoundingClientRect().top], heights)
      are JavaScript numbers that the code only compares; they are taken in
      [Q], whose order agrees with the order of finite doubles.
    - [window.innerWidth] is an integer, taken in [Z].
    - Handles returned by [setTimeout] and [requestAnimationFrame] are
      positive integers, so the truthiness test [if (this.#timeout)] is the
      test against [null].
    - The content attributes of the header element, [this.dataset] included
      ([dataset.stickyState] is the attribute [data-sticky-state]), are one
      finite map from attribute names to values.
    - Every write the page can observe is also appended to a log, newest
      first. *)

From stdpp Require Import base option list gmap strings.
From Stdlib Require Import ZArith NArith QArith Lia.

Close Scope Q_scope.
Local Open Scope string_scope.
Local Open Scope list_scope.

(** ** Numbers *)

Definition Qltb (a b : Q) : bool := negb (Qle_bool b a).
Definition Qgeb (a b : Q) : bool := Qle_bool b a.
Definition Qleb (a b : Q) : bool := Qle_bool a b.

(** ** Strings: attribute tests and the user agent tests *)

(** [a === v] for an attribute value [a] that may be [null]/[undefined]. *)
Definition attr_is (a : option string) (v : string) : bool :=
  match a with
  | Some x => String.eqb x v
  | None => false
  end.

(** Truthiness of [getAttribute(...)]: [null] and the empty string are falsy. *)
Definition truthy_attr (a : option string) : bool :=
  match a with
  | Some "" => false
  | Some _ => true
  | None => false
  end.

(** [hay.includes(needle)]; a regular expression that is an alternation of
    literals, tested with [.test], is a disjunction of these. *)
Fixpoint includes (needle hay : string) : bool :=
  String.prefix needle hay ||
  match hay with
  | EmptyString => false
  | String _ rest => includes needle rest
  end.

(** [/iPhone|iPad|iPod/.test(ua)] and the like. *)
Definition test_any (alternatives : list string) (ua : string) : bool :=
  existsb (fun lit => includes lit ua) alternatives.

(** ** Data model *)

Inductive css_length : Type :=
  | Px (v : Q).

(** The writes a stylesheet, a test or the browser chrome can observe;
    [WMenuVisibility hideMenu] records a call of [#updateMenuVisibility]
    and [WThemeColor] a call of [changeMetaThemeColor]. *)
Inductive write : Type :=
  | WStickyState (v : string)
  | WScrollDirection (v : string)
  | WSetAttribute (name value : string)
  | WRemoveAttribute (name : string)
  | WHeaderHeight (v : css_length)
  | WMenuVisibility (hideMenu : bool)
  | WThemeColor.

Record IntersectionObserverEntry : Type := {
  isIntersecting : bool;
  intersectionRatio : Q
}.

(** The [IntersectionObserver] object built by [#observeStickyPosition]:
    its [threshold] option, the [alwaysSticky] its callback closes over, and
    whether it still observes the header. *)
Record IntersectionObserver : Type := {
  io_alwaysSticky : bool;
  io_threshold : Q;
  io_observing : bool
}.

(** The private fields of the class, and the observation state of the
    [ResizeObserver] held in [#resizeObserver]. *)
Record Fields : Type := {
  menuDrawerHiddenWidth : option Z;
  intersectionObserver : option IntersectionObserver;
  offscreen : bool;
  lastScrollTop : Q;
  timeout : option positive;
  isIOSSafari : bool;
  safariIntersectionTimeout : option positive;
  resizeObserving : bool
}.

Definition animationDelay : N := 150.

(** The part of the document the component touches. *)
Record Page : Type := {
  attrs : gmap string string;
  drawerClasses : gset string;
  menuClasses : gset string;
  bodyStyle : gmap string css_length;
  overflowListener : bool;
  scrollListener : bool
}.

(** The browser side: a clock in milliseconds, the pending timeouts and
    animation frame requests made by this component, the next handle, and
    the log of observable writes (newest first). *)
Record Browser : Type := {
  now : N;
  timers : list (positive * N);
  frames : list positive;
  nextHandle : positive;
  log : list write
}.

Record World : Type := {
  priv : Fields;
  page : Page;
  host : Browser
}.

(** ** Field updates *)

Definition set_menuDrawerHiddenWidth (v : option Z) (s : World) : World :=
  {| priv := {| menuDrawerHiddenWidth := v;
                intersectionObserver := intersectionObserver (priv s);
                offscreen := offscreen (priv s);
                lastScrollTop := lastScrollTop (priv s);
                timeout := timeout (priv s);
                isIOSSafari := isIOSSafari (priv s);
                safariIntersectionTimeout := safariIntersectionTimeout (priv s);
                resizeObserving := resizeObserving (priv s) |};
     page := page s; host := host s |}.

Definition set_intersectionObserver (v : option IntersectionObserver) (s : World) : World :=
  {| priv := {| menuDrawerHiddenWidth := menuDrawerHiddenWidth (priv s);
                intersectionObserver := v;
                offscreen := offscreen (priv s);
                lastScrollTop := lastScrollTop (priv s);
                timeout := timeout (priv s);
                isIOSSafari := isIOSSafari (priv s);
                safariIntersectionTimeout := safariIntersectionTimeout (priv s);
                resizeObserving := resizeObserving (priv s) |};
     page := page s; host := host s |}.

Definition set_offscreen (v : bool) (s : World) : World :=
  {| priv := {| menuDrawerHiddenWidth := menuDrawerHiddenWidth (priv s);
                intersectionObserver := intersectionObserver (priv s);
                offscreen := v;
                lastScrollTop := lastScrollTop (priv s);
                timeout := timeout (priv s);
                isIOSSafari := isIOSSafari (priv s);
                safariIntersectionTimeout := safariIntersectionTimeout (priv s);
                resizeObserving := resizeObserving (priv s) |};
     page := page s; host := host s |}.

Definition set_lastScrollTop (v : Q) (s : World) : World :=
  {| priv := {| menuDrawerHiddenWidth := menuDrawerHiddenWidth (priv s);
                intersectionObserver := intersectionObserver (priv s);
                offscreen := offscreen (priv s);
                lastScrollTop := v;
                timeout := timeout (priv s);
                isIOSSafari := isIOSSafari (priv s);
                safariIntersectionTimeout := safariIntersectionTimeout (priv s);
                resizeObserving := resizeObserving (priv s) |};
     page := page s; host := host s |}.

Definition set_timeout (v : option positive) (s : World) : World :=
  {| priv := {| menuDrawerHiddenWidth := menuDrawerHiddenWidth (priv s);
                intersectionObserver := intersectionObserver (priv s);
                offscreen := offscreen (priv s);
                lastScrollTop := lastScrollTop (priv s);
                timeout := v;
                isIOSSafari := isIOSSafari (priv s);
                safariIntersectionTimeout := safariIntersectionTimeout (priv s);
                resizeObserving := resizeObserving (priv s) |};
     page := page s; host := host s |}.

Definition set_isIOSSafari (v : bool) (s : World) : World :=
  {| priv := {| menuDrawerHiddenWidth := menuDrawerHiddenWidth (priv s);
                intersectionObserver := intersectionObserver (priv s);
                offscreen := offscreen (priv s);
                lastScrollTop := lastScrollTop (priv s);
                timeout := timeout (priv s);
                isIOSSafari := v;
                safariIntersectionTimeout := safariIntersectionTimeout (priv s);
                resizeObserving := resizeObserving (priv s) |};
     page := page s; host := host s |}.

Definition set_safariIntersectionTimeout (v : option positive) (s : World) : World :=
  {| priv := {| menuDrawerHiddenWidth := menuDrawerHiddenWidth (priv s);
                intersectionObserver := intersectionObserver (priv s);
                offscreen := offscreen (priv s);
                lastScrollTop := lastScrollTop (priv s);
                timeout := timeout (priv s);
                isIOSSafari := isIOSSafari (priv s);
                safariIntersectionTimeout := v;
                resizeObserving := resizeObserving (priv s) |};
     page := page s; host := host s |}.

Definition set_resizeObserving (v : bool) (s : World) : World :=
  {| priv := {| menuDrawerHiddenWidth := menuDrawerHiddenWidth (priv s);
                intersectionObserver := intersectionObserver (priv s);
                offscreen := offscreen (priv s);
                lastScrollTop := lastScrollTop (priv s);
                timeout := timeout (priv s);
                isIOSSafari := isIOSSafari (priv s);
                safariIntersectionTimeout := safariIntersectionTimeout (priv s);
                resizeObserving := v |};
     page := page s; host := host s |}.

Definition set_attrs (v : gmap string string) (s : World) : World :=
  {| priv := priv s;
     page := {| attrs := v;
                drawerClasses := drawerClasses (page s);
                menuClasses := menuClasses (page s);
                bodyStyle := bodyStyle (page s);
                overflowListener := overflowListener (page s);
                scrollListener := scrollListener (page s) |};
     host := host s |}.

Definition set_drawerClasses (v : gset string) (s : World) : World :=
  {| priv := priv s;
     page := {| attrs := attrs (page s);
                drawerClasses := v;
                menuClasses := menuClasses (page s);
                bodyStyle := bodyStyle (page s);
                overflowListener := overflowListener (page s);
                scrollListener := scrollListener (page s) |};
     host := host s |}.

Definition set_menuClasses (v : gset string) (s : World) : World :=
  {| priv := priv s;
     page := {| attrs := attrs (page s);
                drawerClasses := drawerClasses (page s);
                menuClasses := v;
                bodyStyle := bodyStyle (page s);
                overflowListener := overflowListener (page s);
                scrollListener := scrollListener (page s) |};
     host := host s |}.

Definition set_bodyStyle (v : gmap string css_length) (s : World) : World :=
  {| priv := priv s;
     page := {| attrs := attrs (page s);
                drawerClasses := drawerClasses (page s);
                menuClasses := menuClasses (page s);
                bodyStyle := v;
                overflowListener := overflowListener (page s);
                scrollListener := scrollListener (page s) |};
     host := host s |}.

Definition set_overflowListener (v : bool) (s : World) : World :=
  {| priv := priv s;
     page := {| attrs := attrs (page s);
                drawerClasses := drawerClasses (page s);
                menuClasses := menuClasses (page s);
                bodyStyle := bodyStyle (page s);
                overflowListener := v;
                scrollListener := scrollListener (page s) |};
     host := host s |}.

Definition set_scrollListener (v : bool) (s : World) : World :=
  {| priv := priv s;
     page := {| attrs := attrs (page s);
                drawerClasses := drawerClasses (page s);
                menuClasses := menuClasses (page s);
                bodyStyle := bodyStyle (page s);
                overflowListener := overflowListener (page s);
                scrollListener := v |};
     host := host s |}.

Definition set_now (v : N) (s : World) : World :=
  {| priv := priv s; page := page s;
     host := {| now := v; timers := timers (host s); frames := frames (host s);
                nextHandle := nextHandle (host s); log := log (host s) |} |}.

Definition set_timers (v : list (positive * N)) (s : World) : World :=
  {| priv := priv s; page := page s;
     host := {| now := now (host s); timers := v; frames := frames (host s);
                nextHandle := nextHandle (host s); log := log (host s) |} |}.

Definition set_frames (v : list positive) (s : World) : World :=
  {| priv := priv s; page := page s;
     host := {| now := now (host s); timers := timers (host s); frames := v;
                nextHandle := nextHandle (host s); log := log (host s) |} |}.

Definition set_nextHandle (v : positive) (s : World) : World :=
  {| priv := priv s; page := page s;
     host := {| now := now (host s); timers := timers (host s); frames := frames (host s);
                nextHandle := v; log := log (host s) |} |}.

Definition emit (w : write) (s : World) : World :=
  {| priv := priv s; page := page s;
     host := {| now := now (host s); timers := timers (host s); frames := frames (host s);
                nextHandle := nextHandle (host s); log := w :: log (host s) |} |}.

(** ** The page and browser operations the class calls *)

(** [this.dataset.stickyState] *)
Definition stickyState (s : World) : option string :=
  attrs (page s) !! "data-sticky-state".

(** [this.dataset.scrollDirection] *)
Definition scrollDirection (s : World) : option string :=
  attrs (page s) !! "data-scroll-direction".

(** [this.hasAttribute("data-animating")] *)
Definition animating (s : World) : bool :=
  bool_decide (is_Some (attrs (page s) !! "data-animating")).

(** [this.getAttribute(name)] *)
Definition getAttribute (name : string) (s : World) : option string :=
  attrs (page s) !! name.

(** [this.dataset.stickyState = v] *)
Definition write_stickyState (v : string) (s : World) : World :=
  emit (WStickyState v) (set_attrs (<["data-sticky-state" := v]> (attrs (page s))) s).

(** [this.dataset.scrollDirection = v] *)
Definition write_scrollDirection (v : string) (s : World) : World :=
  emit (WScrollDirection v) (set_attrs (<["data-scroll-direction" := v]> (attrs (page s))) s).

(** [this.setAttribute(name, value)] *)
Definition setAttribute (name value : string) (s : World) : World :=
  emit (WSetAttribute name value) (set_attrs (<[name := value]> (attrs (page s))) s).

(** [this.removeAttribute(name)] *)
Definition removeAttribute (name : string) (s : World) : World :=
  emit (WRemoveAttribute name) (set_attrs (delete name (attrs (page s))) s).

(** [changeMetaThemeColor(this.refs.headerRowTop)]: a utility of the theme
    that lives outside this class; the call is recorded. *)
Definition changeMetaThemeColor (s : World) : World :=
  emit WThemeColor s.

(** [document.body.style.setProperty("--header-height", v)] *)
Definition setHeaderHeight (v : css_length) (s : World) : World :=
  emit (WHeaderHeight v) (set_bodyStyle (<["--header-height" := v]> (bodyStyle (page s))) s).

(** [document.scrollingElement?.scrollTop ?? 0] *)
Definition scrollTop_or_0 (reading : option Q) : Q :=
  match reading with
  | Some v => v
  | None => 0%Q
  end.

(** [setTimeout(cb, delay)]: the only callback this class ever schedules
    is the one that moves to [idle], so a pending timeout is its handle and
    the time from which the browser may run it. *)
Definition setTimeout (delay : N) (s : World) : positive * World :=
  let id := nextHandle (host s) in
  (id, set_nextHandle (Pos.succ id)
         (set_timers (timers (host s) ++ [(id, (now (host s) + delay)%N)]) s)).

(** [clearTimeout(id)] *)
Definition clearTimeout (id : positive) (s : World) : World :=
  set_timers (filter (fun t => t.1 ≠ id) (timers (host s))) s.

(** [requestAnimationFrame(cb)] *)
Definition requestAnimationFrame (s : World) : positive * World :=
  let id := nextHandle (host s) in
  (id, set_nextHandle (Pos.succ id) (set_frames (frames (host s) ++ [id]) s)).

(** [cancelAnimationFrame(id)] *)
Definition cancelAnimationFrame (id : positive) (s : World) : World :=
  set_frames (filter (fun f => f ≠ id) (frames (host s))) s.

(** ** The handlers *)

(** [#updateMenuVisibility(hideMenu)]; [innerWidth] is the reading of
    [window.innerWidth]. *)
Definition updateMenuVisibility (hideMenu : bool) (innerWidth : Z) (s : World) : World :=
  let s := emit (WMenuVisibility hideMenu) s in
  if hideMenu then
    let s := set_drawerClasses (drawerClasses (page s) ∖ {["desktop:hidden"]}) s in
    let s := set_menuDrawerHiddenWidth (Some innerWidth) s in
    set_menuClasses ({["hidden"]} ∪ menuClasses (page s)) s
  else
    let s := set_drawerClasses ({["desktop:hidden"]} ∪ drawerClasses (page s)) s in
    let s := set_menuDrawerHiddenWidth None s in
    set_menuClasses (menuClasses (page s) ∖ {["hidden"]}) s.

(** The test [this.#menuDrawerHiddenWidth && window.innerWidth >
    this.#menuDrawerHiddenWidth]: [null] and [0] are falsy. *)
Definition wider_than_hidden (hidden : option Z) (innerWidth : Z) : bool :=
  match hidden with
  | None => false
  | Some w => negb (w =? 0)%Z && (w <? innerWidth)%Z
  end.

(** The callback of [#resizeObserver]. [entries] holds, for each entry, the
    height of [entry.target.getBoundingClientRect()]. *)
Definition resizeObserver_callback (entries : list Q) (innerWidth : Z) (s : World) : World :=
  match entries with
  | [] => s
  | height :: _ =>
      let s := setHeaderHeight (Px height) s in
      if wider_than_hidden (menuDrawerHiddenWidth (priv s)) innerWidth
      then updateMenuVisibility false innerWidth s
      else s
  end.

(** [#handleIntersectionUpdate(entry, alwaysSticky)] *)
Definition handleIntersectionUpdate
    (entry : option IntersectionObserverEntry) (alwaysSticky : bool) (s : World) : World :=
  match entry with
  | None => s
  | Some entry =>
      if alwaysSticky then
        if isIOSSafari (priv s) then s
        else
          let newState := if isIntersecting entry then "inactive" else "active" in
          changeMetaThemeColor (write_stickyState newState s)
      else
        set_offscreen (negb (isIntersecting entry) || attr_is (stickyState s) "active") s
  end.

(** The [intersectionCallback] closure of [#observeStickyPosition]. *)
Definition intersectionCallback
    (entries : list IntersectionObserverEntry) (alwaysSticky : bool) (s : World) : World :=
  match head entries with
  | Some entry => handleIntersectionUpdate (Some entry) alwaysSticky s
  | None => s
  end.

(** The [threshold] of the observer's configuration. *)
Definition threshold_for (alwaysSticky : bool) : Q :=
  if alwaysSticky then (95 # 100)%Q else 0%Q.

(** [#observeStickyPosition(alwaysSticky)] *)
Definition observeStickyPosition (alwaysSticky : bool) (s : World) : World :=
  match intersectionObserver (priv s) with
  | Some _ => s
  | None =>
      set_intersectionObserver
        (Some {| io_alwaysSticky := alwaysSticky;
                 io_threshold := threshold_for alwaysSticky;
                 io_observing := true |}) s
  end.

(** [#handleOverflowMinimum(event)] *)
Definition handleOverflowMinimum (minimumReached : bool) (innerWidth : Z) (s : World) : World :=
  updateMenuVisibility minimumReached innerWidth s.

(** The callback given to [setTimeout] in [#handleWindowScroll]. *)
Definition timeout_callback (s : World) : World :=
  let s := write_stickyState "idle" s in
  removeAttribute "data-animating" s.

(** "Within 5px of the top": [headerTop >= -5 && scrollTop <= 5]. *)
Definition atTopWithThreshold (headerTop scrollTop : Q) : bool :=
  Qgeb headerTop (-5)%Q && Qleb scrollTop 5%Q.

(** The callback given to [requestAnimationFrame] in [#handleWindowScroll];
    [top] and [scrollTopReading] are the geometry read when it runs. *)
Definition frame_callback (top : Q) (scrollTopReading : option Q) (s : World) : World :=
  let s := set_safariIntersectionTimeout None s in
  let currentHeaderTop := top in
  let currentScrollTop := scrollTop_or_0 scrollTopReading in
  let currentIsAtTop := atTopWithThreshold currentHeaderTop currentScrollTop in
  let currentNewState := if currentIsAtTop then "inactive" else "active" in
  if negb (attr_is (stickyState s) currentNewState) then
    changeMetaThemeColor (write_stickyState currentNewState s)
  else s.

(** [#handleWindowScroll()]; [scrollTopReading] is
    [document.scrollingElement?.scrollTop] and [top] is
    [this.getBoundingClientRect().top], both read while the handler runs. *)
Definition handleWindowScroll (scrollTopReading : option Q) (top : Q) (s : World) : World :=
  let stickyMode := getAttribute "sticky" s in
  if negb (offscreen (priv s)) && negb (attr_is stickyMode "always") then s
  else
    let scrollTop := scrollTop_or_0 scrollTopReading in
    let isScrollingUp := Qltb scrollTop (lastScrollTop (priv s)) in
    let s :=
      match timeout (priv s) with
      | Some id => set_timeout None (clearTimeout id s)
      | None => s
      end in
    if attr_is stickyMode "always" then
      let isAtTop := Qgeb top 0%Q in
      let s :=
        if isIOSSafari (priv s) then
          let headerTop := top in
          let scrollTopNow := scrollTop_or_0 scrollTopReading in
          let isAtTopWithThreshold := atTopWithThreshold headerTop scrollTopNow in
          let newState := if isAtTopWithThreshold then "inactive" else "active" in
          match safariIntersectionTimeout (priv s) with
          | None =>
              let request := requestAnimationFrame s in
              set_safariIntersectionTimeout (Some request.1) request.2
          | Some _ => s
          end
        else s in
      let s :=
        if isAtTop then write_scrollDirection "none" s
        else if isScrollingUp then write_scrollDirection "up" s
        else write_scrollDirection "down" s in
      set_lastScrollTop scrollTop s
    else
      let s :=
        if isScrollingUp then
          let s := removeAttribute "data-animating" s in
          let isAtTop := Qgeb top 0%Q in
          if isAtTop then
            let s := set_offscreen false s in
            let s := write_stickyState "inactive" s in
            write_scrollDirection "none" s
          else
            let s := write_stickyState "active" s in
            write_scrollDirection "up" s
        else if attr_is (stickyState s) "active" then
          let s := write_scrollDirection "none" s in
          let s := setAttribute "data-animating" "" s in
          let request := setTimeout animationDelay s in
          set_timeout (Some request.1) request.2
        else
          let s := write_scrollDirection "none" s in
          write_stickyState "idle" s in
      set_lastScrollTop scrollTop s.

(** The platform test of [connectedCallback]. *)
Definition detect_iOSSafari (userAgent : string) (hasMSStream : bool) : bool :=
  let isIOS := test_any ["iPhone"; "iPad"; "iPod"] userAgent && negb hasMSStream in
  isIOS && test_any ["Safari"] userAgent && negb (test_any ["CriOS"; "FxiOS"] userAgent).

(** [connectedCallback()]. [super.connectedCallback()] belongs to the
    [Component] base class, which resolves the declared references and
    touches nothing modelled here. *)
Definition connectedCallback (userAgent : string) (hasMSStream : bool) (s : World) : World :=
  let s := set_resizeObserving true s in
  let s := set_overflowListener true s in
  let s := set_isIOSSafari (detect_iOSSafari userAgent hasMSStream) s in
  let stickyMode := getAttribute "sticky" s in
  if truthy_attr stickyMode then
    let s := observeStickyPosition (attr_is stickyMode "always") s in
    if attr_is stickyMode "scroll-up" || attr_is stickyMode "always"
    then set_scrollListener true s
    else s
  else s.

(** [this.#intersectionObserver?.disconnect()] *)
Definition disconnect_intersectionObserver (s : World) : World :=
  match intersectionObserver (priv s) with
  | Some o =>
      set_intersectionObserver
        (Some {| io_alwaysSticky := io_alwaysSticky o;
                 io_threshold := io_threshold o;
                 io_observing := false |}) s
  | None => s
  end.

(** [disconnectedCallback()] *)
Definition disconnectedCallback (s : World) : World :=
  let s := set_resizeObserving false s in
  let s := disconnect_intersectionObserver s in
  let s := set_overflowListener false s in
  let s := set_scrollListener false s in
  let s :=
    match timeout (priv s) with
    | Some id => set_timeout None (clearTimeout id s)
    | None => s
    end in
  let s :=
    match safariIntersectionTimeout (priv s) with
    | Some id => set_safariIntersectionTimeout None (cancelAnimationFrame id s)
    | None => s
    end in
  setHeaderHeight (Px 0) s.

(** ** The event loop

    What the browser delivers to the component.  A delivery reaches a
    handler only while the corresponding observer or listener is
    registered; a timeout runs only if it is still pending and its delay
    has elapsed; an animation frame runs the callbacks requested since the
    previous one. *)

Inductive event : Type :=
  | ResizeNotify (entries : list Q) (innerWidth : Z)
  | IntersectionNotify (entries : list IntersectionObserverEntry)
  | OverflowMinimum (minimumReached : bool) (innerWidth : Z)
  | Scroll (scrollTopReading : option Q) (top : Q)
  | TimeoutFire (id : positive)
  | AnimationFrame (top : Q) (scrollTopReading : option Q).

(** The time from which the pending timeout [id] may run. *)
Definition due_of (id : positive) (pending : list (positive * N)) : option N :=
  snd <$> head (filter (fun t => t.1 = id) pending).

Definition deliver (e : event) (s : World) : World :=
  match e with
  | ResizeNotify entries innerWidth =>
      if resizeObserving (priv s) then resizeObserver_callback entries innerWidth s else s
  | IntersectionNotify entries =>
      match intersectionObserver (priv s) with
      | Some o =>
          if io_observing o then intersectionCallback entries (io_alwaysSticky o) s else s
      | None => s
      end
  | OverflowMinimum minimumReached innerWidth =>
      if overflowListener (page s) then handleOverflowMinimum minimumReached innerWidth s else s
  | Scroll scrollTopReading top =>
      if scrollListener (page s) then handleWindowScroll scrollTopReading top s else s
  | TimeoutFire id =>
      match due_of id (timers (host s)) with
      | Some due =>
          if (due <=? now (host s))%N
          then timeout_callback (clearTimeout id s)
          else s
      | None => s
      end
  | AnimationFrame top scrollTopReading =>
      foldl (fun s _ => frame_callback top scrollTopReading s)
            (set_frames [] s) (frames (host s))
  end.

(** What happens to an attached component on its own: a delivery, or time
    passing. *)
Inductive action : Type :=
  | Deliver (e : event)
  | Tick (ms : N).

Definition act (a : action) (s : World) : World :=
  match a with
  | Deliver e => deliver e s
  | Tick ms => set_now (now (host s) + ms)%N s
  end.

Definition run (acts : list action) (s : World) : World :=
  foldl (fun s a => act a s) s acts.

(** A script of the page changing or removing the [sticky] attribute. *)
Definition set_sticky (v : option string) (s : World) : World :=
  match v with
  | Some x => set_attrs (<["sticky" := x]> (attrs (page s))) s
  | None => set_attrs (delete "sticky" (attrs (page s))) s
  end.

(** A freshly constructed element: the field initialisers of the class over
    the markup the element was parsed from. *)
Definition created (markup : gmap string string) (drawer menu : gset string) : World :=
  {| priv := {| menuDrawerHiddenWidth := None;
                intersectionObserver := None;
                offscreen := false;
                lastScrollTop := 0%Q;
                timeout := None;
                isIOSSafari := false;
                safariIntersectionTimeout := None;
                resizeObserving := false |};
     page := {| attrs := markup;
                drawerClasses := drawer;
                menuClasses := menu;
                bodyStyle := ∅;
                overflowListener := false;
                scrollListener := false |};
     host := {| now := 0%N; timers := []; frames := []; nextHandle := 1%positive; log := [] |} |}.

(** The element once attached to the page. *)
Definition attached (userAgent : string) (hasMSStream : bool)
    (markup : gmap string string) (drawer menu : gset string) : World :=
  connectedCallback userAgent hasMSStream (created markup drawer menu).

Definition direction_of (w : write) : option string :=
  match w with
  | WScrollDirection v => Some v
  | _ => None
  end.

Definition state_of (w : write) : option string :=
  match w with
  | WStickyState v => Some v
  | _ => None
  end.

(** The values written to [data-scroll-direction], oldest first. *)
Definition direction_writes (ws : list write) : list string := omap direction_of ws.

(** The values written to [data-sticky-state], oldest first. *)
Definition state_writes (ws : list write) : list string := omap state_of ws.

Definition desktop_ua : string :=
  "Mozilla/5.0 (X11; Linux x86_64) AppleWebKit/537.36 (KHTML, like Gecko) Chrome/120.0 Safari/537.36".

Definition iphone_safari_ua : string :=
  "Mozilla/5.0 (iPhone; CPU iPhone OS 17_0 like Mac OS X) AppleWebKit/605.1.15 (KHTML, like Gecko) Version/17.0 Mobile/15E148 Safari/604.1".

Definition iphone_chrome_ua : string :=
  "Mozilla/5.0 (iPhone; CPU iPhone OS 17_0 like Mac OS X) AppleWebKit/605.1.15 (KHTML, like Gecko) CriOS/120.0 Mobile/15E148 Safari/604.1".

(** The writes made by [f] from [s], oldest first. *)
Definition written_by (f : World -> World) (s : World) : list write :=
  reverse (take (length (log (host (f s))) - length (log (host s))) (log (host (f s)))).

(** Every state the component can be in: created from some markup and
    attached, then any mix of deliveries, time, attribute changes, and
    detaching and attaching again. *)
Inductive reachable : World -> Prop :=
  | reach_attached ua ms markup drawer menu :
      reachable (attached ua ms markup drawer menu)
  | reach_act a s :
      reachable s -> reachable (act a s)
  | reach_set_sticky v s :
      reachable s -> reachable (set_sticky v s)
  | reach_disconnected s :
      reachable s -> reachable (disconnectedCallback s)
  | reach_connected ua ms s :
      reachable s -> reachable (connectedCallback ua ms s).

(** The cancellation of the pending hide timeout, as written at the start
    of [#handleWindowScroll] and again in [disconnectedCallback]. *)
Definition cancel_hide_timeout (s : World) : World :=
  match timeout (priv s) with
  | Some id => set_timeout None (clearTimeout id s)
  | None => s
  end.

(** The writes made from [s] to [s'] all satisfy [ok]. *)
Definition log_ext (ok : write -> Prop) (s s' : World) : Prop :=
  exists ws, log (host s') = ws ++ log (host s) /\ Forall ok ws.


(** What a write to [data-scroll-direction] may be when the attribute
    [sticky] has the value [mode]. *)
Definition direction_ok (mode : option string) (w : write) : Prop :=
  forall v, w = WScrollDirection v ->
    v = "none" \/ v = "up" \/ (v = "down" /\ mode = Some "always").

Definition scroll_up_markup : gmap string string := {["sticky" := "scroll-up"]}.
Definition always_markup : gmap string string := {["sticky" := "always"]}.

Definition entry_of (intersecting : bool) : IntersectionObserverEntry :=
  {| isIntersecting := intersecting; intersectionRatio := if intersecting then 1%Q else 0%Q |}.

(** The header has left the viewport; the page is scrolled down to 500 and
    back up to 300 with the header still above the viewport. *)
Definition down_then_up : list action :=
  [Deliver (IntersectionNotify [entry_of false]);
   Deliver (Scroll (Some 500%Q) (-100)%Q);
   Deliver (Scroll (Some 300%Q) (-100)%Q)].


(** The page is scrolled to 500 and then back to 300; [top1] and [top2] are
    the positions of the header's top edge at the two events. *)
Definition two_scrolls (top1 top2 : Q) : list action :=
  [Deliver (Scroll (Some 500%Q) top1); Deliver (Scroll (Some 300%Q) top2)].

(** An attached [scroll-up] header that has left the viewport, before any
    scrolling was seen. *)
Definition offscreen_at_rest : World :=
  run [Deliver (IntersectionNotify [entry_of false])]
      (attached desktop_ua false scroll_up_markup ∅ ∅).

(** ** Invariants of an attached component

    While no script changes the [sticky] attribute, the observer's mode
    agrees with the attribute, at most one hide timeout is pending and only
    while the header is [active], offscreen and animating outside [always]
    mode, and a frame is requested exactly while
    [#safariIntersectionTimeout] holds its handle, which happens only on
    the iOS Safari path of [always] mode. *)

Definition observer_agrees (s : World) : Prop :=
  forall o, intersectionObserver (priv s) = Some o ->
    io_alwaysSticky o = attr_is (getAttribute "sticky" s) "always" /\
    io_threshold o = threshold_for (io_alwaysSticky o).

Definition hide_pending (s : World) : Prop :=
  timers (host s) = [] \/
  exists id due,
    timers (host s) = [(id, due)] /\
    timeout (priv s) = Some id /\
    stickyState s = Some "active" /\
    offscreen (priv s) = true /\
    animating s = true /\
    getAttribute "sticky" s <> Some "always".

Definition frame_pending (s : World) : Prop :=
  (frames (host s) = [] /\ safariIntersectionTimeout (priv s) = None) \/
  exists id,
    frames (host s) = [id] /\
    safariIntersectionTimeout (priv s) = Some id /\
    getAttribute "sticky" s = Some "always" /\
    isIOSSafari (priv s) = true.

Definition inv (s : World) : Prop :=
  observer_agrees s /\ hide_pending s /\ frame_pending s.

(** The weaker fact that survives attribute changes, detaching and
    attaching again: at most one timeout and one frame are pending, and
    the handle fields hold them. *)
Definition pending_ok (s : World) : Prop :=
  (timers (host s) = [] \/
   exists id due, timers (host s) = [(id, due)] /\ timeout (priv s) = Some id) /\
  (frames (host s) = [] \/
   exists id, frames (host s) = [id] /\ safariIntersectionTimeout (priv s) = Some id).

(** The deliveries [events], one after the other. *)
Definition deliver_all (events : list event) (s : World) : World :=
  foldl (fun s e => deliver e s) s events.

(** An attached [scroll-up] header that was scrolled away (state [idle] at
    scroll offset 500) and then reported as intersecting again, which
    clears [#offscreen] while the state is still [idle]. *)
Definition idle_in_view : World :=
  run [Deliver (IntersectionNotify [entry_of false]);
       Deliver (Scroll (Some 500%Q) (-100)%Q);
       Deliver (IntersectionNotify [entry_of true])]
      (attached desktop_ua false scroll_up_markup ∅ ∅).

(** ** The deferred transition to [idle] *)

(** Anything but a scroll event. *)
Definition quiet (a : action) : bool :=
  match a with
  | Deliver (Scroll _ _) => false
  | _ => true
  end.

(** The hide animation is running: the header is still [active], flagged
    [data-animating], and the timeout [id] is pending for time [due]. *)
Definition hiding (id : positive) (due : N) (s : World) : Prop :=
  stickyState s = Some "active" /\
  animating s = true /\
  timers (host s) = [(id, due)].

(** The deferred transition has happened, not before [due]. *)
Definition hidden (due : N) (s : World) : Prop :=
  stickyState s = Some "idle" /\
  animating s = false /\
  (due <= now (host s))%N.

(** ** Writes of [idle] *)

Definition not_idle (w : write) : Prop := w <> WStickyState "idle".

(** An attached [scroll-up] header that was scrolled away, brought back to
    its natural position (state [inactive]) and has left the viewport
    again. *)
Definition away_back_away : list action :=
  [Deliver (IntersectionNotify [entry_of false]);
   Deliver (Scroll (Some 500%Q) (-100)%Q);
   Deliver (Scroll (Some 300%Q) (-100)%Q);
   Deliver (Scroll (Some 0%Q) 0%Q);
   Deliver (IntersectionNotify [entry_of false])].

Definition inactive_offscreen : World :=
  run away_back_away (attached desktop_ua false scroll_up_markup ∅ ∅).

(** ** The menu and the drawer *)

Definition is_restore (w : write) : bool :=
  match w with
  | WMenuVisibility false => true
  | _ => false
  end.

(** How many times the inline menu was restored in a list of writes. *)
Definition restorations (ws : list write) : nat :=
  length (filter (fun w => is_restore w = true) ws).

(** The deliveries that reach [#updateMenuVisibility]. *)
Definition menu_event (a : action) : bool :=
  match a with
  | Deliver (ResizeNotify _ _) => true
  | Deliver (OverflowMinimum _ _) => true
  | _ => false
  end.

Definition is_overflow (a : action) : bool :=
  match a with
  | Deliver (OverflowMinimum _ _) => true
  | _ => false
  end.

(** 1 while the menu is hidden in favour of the drawer, 0 otherwise. *)
Definition menu_hidden_flag (s : World) : nat :=
  match menuDrawerHiddenWidth (priv s) with
  | Some _ => 1
  | None => 0
  end.

(** An attached header whose menu reported, at a window width of 800, that
    it no longer fits. *)
Definition menu_hidden_at_800 : World :=
  run [Deliver (OverflowMinimum true 800)] (attached desktop_ua false scroll_up_markup ∅ ∅).

(** ** The platform's intersection observer, for one positive threshold

    For an observer with a single threshold above zero, the engines report
    [isIntersecting] as "the visible ratio has reached the threshold"; they
    notify the callback once when the observation starts and afterwards
    each time the ratio crosses the threshold.  [previous] is the side told
    by the last notification, [None] before the first one. *)

Definition reaches (threshold ratio : Q) : bool := Qle_bool threshold ratio.

Definition entry_at (threshold ratio : Q) : IntersectionObserverEntry :=
  {| isIntersecting := reaches threshold ratio; intersectionRatio := ratio |}.

(** One sample of the header's visible ratio. *)
Definition observe_ratio (ratio : Q) (st : option bool * World) : option bool * World :=
  match intersectionObserver (priv st.2) with
  | Some o =>
      let side := reaches (io_threshold o) ratio in
      if decide (st.1 = Some side) then st
      else (Some side, deliver (IntersectionNotify [entry_at (io_threshold o) ratio]) st.2)
  | None => st
  end.

Definition observe_ratios (ratios : list Q) (st : option bool * World) : option bool * World :=
  foldl (fun st ratio => observe_ratio ratio st) st ratios.

(** The number of times a sequence of ratios changes side of the
    threshold, starting on [side]. *)
Fixpoint crossings (threshold : Q) (side : bool) (ratios : list Q) : nat :=
  match ratios with
  | [] => 0
  | ratio :: rest =>
      (if decide (side = reaches threshold ratio) then 0 else 1)
      + crossings threshold (reaches threshold ratio) rest
  end.

(** The number of writes in [ws] that change the value, starting from
    [current]. *)
Fixpoint flips (current : option string) (ws : list string) : nat :=
  match ws with
  | [] => 0
  | v :: rest => (if decide (current = Some v) then 0 else 1) + flips (Some v) rest
  end.

(** The value [#handleIntersectionUpdate] writes in [always] mode. *)
Definition state_for (intersecting : bool) : string :=
  if intersecting then "inactive" else "active".

(** The state agrees with what the observer last told. *)
Definition agrees (previous : option bool) (s : World) : Prop :=
  forall side, previous = Some side -> stickyState s = Some (state_for side).

(** The observer of an attached [always] header off the iOS Safari path. *)
Definition always_ready (s : World) : Prop :=
  isIOSSafari (priv s) = false /\
  exists o,
    intersectionObserver (priv s) = Some o /\
    io_alwaysSticky o = true /\
    io_threshold o = (95 # 100)%Q /\
    io_observing o = true.

(** The writes the samples [ratios] cause, oldest first. *)
Fixpoint expected_writes (threshold : Q) (previous : option bool) (ratios : list Q) : list write :=
  match ratios with
  | [] => []
  | ratio :: rest =>
      let side := reaches threshold ratio in
      (if decide (previous = Some side) then []
       else [WStickyState (state_for side); WThemeColor])
      ++ expected_writes threshold (Some side) rest
  end.

(** The scroll direction is reversed 50ms into the hide animation: a scroll
    down to 400 handled at time 0 on an [active] offscreen header, 50ms, a
    scroll up to 350 with the header still above the viewport, and then the
    rest of the 150ms. *)
Definition active_offscreen : World :=
  run down_then_up (attached desktop_ua false scroll_up_markup ∅ ∅).

Definition hide_started : World :=
  deliver (Scroll (Some 400%Q) (-100)%Q) active_offscreen.

Definition reversed_after_50ms : World :=
  run [Tick 50; Deliver (Scroll (Some 350%Q) (-100)%Q)] hide_started.

Definition delay_elapsed : World :=
  run [Tick 100; Deliver (TimeoutFire 1)] reversed_after_50ms.

(** ** The iOS Safari path *)

(** The state the frame callback computes from the geometry it reads. *)
Definition computed_state (top : Q) (scrollTopReading : option Q) : string :=
  if atTopWithThreshold top (scrollTop_or_0 scrollTopReading) then "inactive" else "active".

(** The direction [#handleWindowScroll] records in [always] mode. *)
Definition always_direction (top scrollTop last : Q) : string :=
  if Qgeb top 0%Q then "none"
  else if Qltb scrollTop last then "up"
  else "down".

(** The frame request of the iOS Safari path, made unless one is held. *)
Definition request_frame_if_safari (s : World) : World :=
  if isIOSSafari (priv s) then
    match safariIntersectionTimeout (priv s) with
    | None =>
        let request := requestAnimationFrame s in
        set_safariIntersectionTimeout (Some request.1) request.2
    | Some _ => s
    end
  else s.

(** ** Who reads the [sticky] attribute *)

Definition is_scroll (a : action) : bool :=
  match a with
  | Deliver (Scroll _ _) => true
  | _ => false
  end.

(** An attached [always] header on a desktop browser. *)
Definition always_attached : World := attached desktop_ua false always_markup ∅ ∅.

(** An attached [scroll-up] header in the middle of its hide animation:
    the timeout of the deferred transition is pending. *)
Definition mid_hide : World :=
  run (down_then_up ++ [Deliver (Scroll (Some 400%Q) (-100)%Q)])
      (attached desktop_ua false scroll_up_markup ∅ ∅).

(** * More of the header component *)

(** ** The enumerations of the output attributes *)

(** The values the component's writes may carry: the three sticky states,
    the three scroll directions, and the presence-only flag
    [data-animating]. *)
Definition write_in_range (w : write) : Prop :=
  match w with
  | WStickyState v => v = "inactive" \/ v = "active" \/ v = "idle"
  | WScrollDirection v => v = "none" \/ v = "up" \/ v = "down"
  | WSetAttribute name value => name = "data-animating" /\ value = ""
  | WRemoveAttribute name => name = "data-animating"
  | _ => True
  end.

(** The attributes the component writes. *)
Definition output_attribute (name : string) : Prop :=
  name = "data-sticky-state" \/ name = "data-scroll-direction" \/ name = "data-animating".

(** ** Re-attaching and the modes *)

(** The observer as [disconnect()] leaves it. *)
Definition disconnected_observer (o : IntersectionObserver) : IntersectionObserver :=
  {| io_alwaysSticky := io_alwaysSticky o;
     io_threshold := io_threshold o;
     io_observing := false |}.

(** A [scroll-up] header whose observer no longer observes, back at its
    natural position, with nothing pending. *)
Definition dormant (s : World) : Prop :=
  (forall o, intersectionObserver (priv s) = Some o -> io_observing o = false) /\
  offscreen (priv s) = false /\
  getAttribute "sticky" s <> Some "always" /\
  timers (host s) = [] /\
  frames (host s) = [].

Definition is_intersection (a : action) : bool :=
  match a with
  | Deliver (IntersectionNotify _) => true
  | _ => false
  end.

Definition is_scroll_or_timeout (a : action) : bool :=
  match a with
  | Deliver (Scroll _ _) => true
  | Deliver (TimeoutFire _) => true
  | _ => false
  end.

(** A [scroll-up] header detached in the middle of its hide animation and
    attached again, and the same after it was first brought back to its
    natural position. *)
Definition reattached_mid_hide : World :=
  connectedCallback desktop_ua false (disconnectedCallback mid_hide).

Definition at_rest_again : list action :=
  down_then_up ++ [Deliver (Scroll (Some 0%Q) 0%Q)].

Definition reattached_at_rest : World :=
  connectedCallback desktop_ua false
    (disconnectedCallback (run at_rest_again (attached desktop_ua false scroll_up_markup ∅ ∅))).

Definition is_frame (a : action) : bool :=
  match a with
  | Deliver (AnimationFrame _ _) => true
  | _ => false
  end.

(** ** The menu or the drawer *)

(** The inline menu is hidden exactly while a width is recorded, and the
    drawer is shown on desktop exactly while the menu is hidden. *)
Definition menu_consistent (s : World) : Prop :=
  (is_Some (menuDrawerHiddenWidth (priv s)) <-> "hidden" ∈ menuClasses (page s)) /\
  ("hidden" ∈ menuClasses (page s) <-> "desktop:hidden" ∉ drawerClasses (page s)).

(** ** The user agent *)

(** [needle] occurs somewhere in [hay]. *)
Definition occurs_in (needle hay : string) : Prop :=
  exists before after, hay = String.append before (String.append needle after).

(** * The header group (the [onDocumentLoaded] callback of the header file)

    The callback looks up [#header-component] and [#header-group]; if the
    group exists it observes the size of every child of the group that is
    an [HTMLElement] other than the header, and observes them again
    whenever the group's child list changes.  The size callback calls
    [calculateHeaderGroupHeight], which lives in another module of the
    theme; its calls are counted.  Elements are told apart by an
    identifier. *)

Module HeaderGroup.

Record Element : Type := {
  element_id : nat;
  isHTMLElement : bool
}.

Record State : Type := {
  header : option nat;
  observed : gset nat;
  watching : bool;
  measurements : nat
}.

(** [element === header] *)
Definition is_header (header : option nat) (element : Element) : bool :=
  match header with
  | Some h => Nat.eqb (element_id element) h
  | None => false
  end.

(** The loop over [headerGroup.children]: the header and the children
    that are not [HTMLElement]s are skipped, the others observed. *)
Definition observe_children
    (header : option nat) (children : list Element) (observed : gset nat) : gset nat :=
  foldl (fun obs element =>
           if is_header header element || negb (isHTMLElement element) then obs
           else {[element_id element]} ∪ obs)
        observed children.

(** The callback given to [onDocumentLoaded]; [headerGroup] holds the
    children of [#header-group], or [None] when there is no such element. *)
Definition documentLoaded (header : option nat) (headerGroup : option (list Element)) : State :=
  match headerGroup with
  | Some children =>
      {| header := header;
         observed := observe_children header children ∅;
         watching := true;
         measurements := 0 |}
  | None =>
      {| header := header; observed := ∅; watching := false; measurements := 0 |}
  end.

(** The callback of the [MutationObserver]: [types] are the types of the
    mutation records of the batch, [children] the group's children when
    the callback runs. *)
Definition mutationCallback (types : list string) (children : list Element) (s : State) : State :=
  foldl (fun s type =>
           if String.eqb type "childList" then
             {| header := header s;
                observed := observe_children (header s) children (observed s);
                watching := watching s;
                measurements := measurements s |}
           else s)
        s types.

(** The callback of the [ResizeObserver]. *)
Definition resizeCallback (s : State) : State :=
  {| header := header s;
     observed := observed s;
     watching := watching s;
     measurements := S (measurements s) |}.

Inductive event : Type :=
  | Mutations (types : list string) (children : list Element)
  | Resized (target : nat).

Definition deliver (e : event) (s : State) : State :=
  match e with
  | Mutations types children =>
      if watching s then mutationCallback types children s else s
  | Resized target =>
      if decide (target ∈ observed s) then resizeCallback s else s
  end.

Definition run (events : list event) (s : State) : State :=
  foldl (fun s e => deliver e s) s events.

(** The child lists the observer has looked at: the one at load time and
    the one of every batch that holds a [childList] record. *)
Definition seen_children (e : event) : option (list Element) :=
  match e with
  | Mutations types children =>
      if existsb (fun type => String.eqb type "childList") types then Some children else None
  | Resized _ => None
  end.

Definition snapshots (children : list Element) (events : list event) : list (list Element) :=
  children :: omap seen_children events.

(** An [HTMLElement] other than the header, with identifier [id], is in
    [children]. *)
Definition eligible_in (header : option nat) (id : nat) (children : list Element) : Prop :=
  exists element,
    element ∈ children /\
    element_id element = id /\
    isHTMLElement element = true /\
    header <> Some id.

End HeaderGroup.

(** * The accordion (assets/accordion-custom.js)

    A page holds [accordion-custom] elements, told apart by an identifier.
    An element may hold a [details] element, which may hold a [summary]
    and a [.details-content] element.  The getters of the class throw;
    a handler is a function from the page to an outcome that is either a
    value with the page it leaves, or the message thrown with the page as
    it was when the exception left the handler. *)

Module Accordion.

Record Content : Type := {
  scrollHeight : Z;
  style_maxHeight : string;
  style_opacity : string
}.

Record Details : Type := {
  open : bool;
  has_summary : bool;
  content : option Content
}.

(** [scope] is what [parentElement.querySelectorAll('accordion-custom')]
    returns for the element, [None] for an element without a parent.
    [aborted] is the state of the signal of [#controller]; the three
    listener flags tell which of the listeners of [connectedCallback] are
    in place. *)
Record Element : Type := {
  attributes : gmap string string;
  details : option Details;
  scope : option (list nat);
  aborted : bool;
  animation : option nat;
  keydownListener : bool;
  clickListener : bool;
  mediaListener : bool
}.

Inductive keyframes : Type :=
  | Opening (endHeight : Z)
  | Closing (startHeight : Z).

Inductive playState : Type := Running | Finished | Idle.

(** An animation made by [content.animate] for the element [owner].  A
    [cancel()] makes it idle at once and queues its [cancel] event, which
    the browser delivers later. *)
Record Animation : Type := {
  owner : nat;
  frames : keyframes;
  state : playState;
  cancelEventQueued : bool
}.

(** [defaultPrevented] belongs to the event being dispatched; [focused]
    is the element whose summary was last given the focus by a script. *)
Record Page : Type := {
  elements : gmap nat Element;
  animations : gmap nat Animation;
  supportsInterpolateSize : bool;
  defaultPrevented : bool;
  focused : option nat
}.

Definition set_open (b : bool) (d : Details) : Details :=
  {| open := b; has_summary := has_summary d; content := content d |}.

Definition reset_style (d : Details) : Details :=
  {| open := open d;
     has_summary := has_summary d;
     content :=
       match content d with
       | Some c =>
           Some {| scrollHeight := scrollHeight c; style_maxHeight := ""; style_opacity := "" |}
       | None => None
       end |}.

Definition map_details (f : Details -> Details) (el : Element) : Element :=
  {| attributes := attributes el;
     details := f <$> details el;
     scope := scope el;
     aborted := aborted el;
     animation := animation el;
     keydownListener := keydownListener el;
     clickListener := clickListener el;
     mediaListener := mediaListener el |}.

Definition set_animation (a : option nat) (el : Element) : Element :=
  {| attributes := attributes el;
     details := details el;
     scope := scope el;
     aborted := aborted el;
     animation := a;
     keydownListener := keydownListener el;
     clickListener := clickListener el;
     mediaListener := mediaListener el |}.

(** [addEventListener(..., { signal })] does nothing once the signal is
    aborted. *)
Definition add_keydownListener (el : Element) : Element :=
  {| attributes := attributes el;
     details := details el;
     scope := scope el;
     aborted := aborted el;
     animation := animation el;
     keydownListener := keydownListener el || negb (aborted el);
     clickListener := clickListener el;
     mediaListener := mediaListener el |}.

Definition add_clickListener (el : Element) : Element :=
  {| attributes := attributes el;
     details := details el;
     scope := scope el;
     aborted := aborted el;
     animation := animation el;
     keydownListener := keydownListener el;
     clickListener := clickListener el || negb (aborted el);
     mediaListener := mediaListener el |}.

Definition add_mediaListener (el : Element) : Element :=
  {| attributes := attributes el;
     details := details el;
     scope := scope el;
     aborted := aborted el;
     animation := animation el;
     keydownListener := keydownListener el;
     clickListener := clickListener el;
     mediaListener := mediaListener el || negb (aborted el) |}.

(** [#controller.abort()] removes every listener added with the signal. *)
Definition abort (el : Element) : Element :=
  {| attributes := attributes el;
     details := details el;
     scope := scope el;
     aborted := true;
     animation := animation el;
     keydownListener := false;
     clickListener := false;
     mediaListener := false |}.

Definition set_elements (m : gmap nat Element) (s : Page) : Page :=
  {| elements := m;
     animations := animations s;
     supportsInterpolateSize := supportsInterpolateSize s;
     defaultPrevented := defaultPrevented s;
     focused := focused s |}.

Definition set_animations (m : gmap nat Animation) (s : Page) : Page :=
  {| elements := elements s;
     animations := m;
     supportsInterpolateSize := supportsInterpolateSize s;
     defaultPrevented := defaultPrevented s;
     focused := focused s |}.

Definition set_defaultPrevented (b : bool) (s : Page) : Page :=
  {| elements := elements s;
     animations := animations s;
     supportsInterpolateSize := supportsInterpolateSize s;
     defaultPrevented := b;
     focused := focused s |}.

Definition set_focused (f : option nat) (s : Page) : Page :=
  {| elements := elements s;
     animations := animations s;
     supportsInterpolateSize := supportsInterpolateSize s;
     defaultPrevented := defaultPrevented s;
     focused := f |}.

(** ** Handlers that may throw *)

Inductive outcome (A : Type) : Type :=
  | Ok (value : A) (s : Page)
  | Threw (message : string) (s : Page).

Arguments Ok {A} value s.
Arguments Threw {A} message s.

Definition M (A : Type) : Type := Page -> outcome A.

Definition ret {A : Type} (a : A) : M A := fun s => Ok a s.

Definition throw {A : Type} (message : string) : M A := fun s => Threw message s.

Definition bind {A B : Type} (m : M A) (k : A -> M B) : M B :=
  fun s =>
    match m s with
    | Ok a s' => k a s'
    | Threw message s' => Threw message s'
    end.

Definition modify (f : Page -> Page) : M unit := fun s => Ok tt (f s).

Definition read {A : Type} (f : Page -> A) : M A := fun s => Ok (f s) s.

Module Import MonadNotation.
Declare Scope accordion_scope.
Delimit Scope accordion_scope with accordion.
Notation "x <- m ;; k" := (bind m (fun x => k))
  (at level 20, m at level 99, k at level 200, only parsing) : accordion_scope.
Notation "m ;; k" := (bind m (fun _ => k))
  (at level 100, k at level 200, only parsing, right associativity) : accordion_scope.
End MonadNotation.
Local Open Scope accordion_scope.

(** The page the handler left, whether it returned or threw. *)
Definition page_of {A : Type} (r : outcome A) : Page :=
  match r with
  | Ok _ s => s
  | Threw _ s => s
  end.

Definition update_element (i : nat) (f : Element -> Element) : M unit :=
  modify (fun s => set_elements (alter f i (elements s)) s).

(** [this]: an identifier denotes an element of the page; handlers run
    only on elements of the page. *)
Definition this (i : nat) : M Element :=
  fun s =>
    match elements s !! i with
    | Some el => Ok el s
    | None => Threw "no such element" s
    end.

(** The getter [details]. *)
Definition get_details (i : nat) : M Details :=
  el <- this i ;;
  match details el with
  | Some d => ret d
  | None => throw "Details element not found"
  end.

(** The getter [summary]. *)
Definition get_summary (i : nat) : M unit :=
  d <- get_details i ;;
  if has_summary d then ret tt else throw "Summary element not found".

(** The getter [content]. *)
Definition get_content (i : nat) : M (option Content) :=
  d <- get_details i ;;
  ret (content d).

(** [this.details.open = b] *)
Definition write_open (i : nat) (b : bool) : M unit :=
  get_details i ;;
  update_element i (map_details (set_open b)).

Definition dataset_is_true (key : string) (el : Element) : bool :=
  bool_decide (attributes el !! key = Some "true").

Definition disableOnMobile : Element -> bool := dataset_is_true "data-disable-on-mobile".
Definition disableOnDesktop : Element -> bool := dataset_is_true "data-disable-on-desktop".
Definition closeWithEscape : Element -> bool := dataset_is_true "data-close-with-escape".

Definition hasAttribute (name : string) (el : Element) : bool :=
  bool_decide (is_Some (attributes el !! name)).

Definition preventDefault : M unit := modify (set_defaultPrevented true).

(** ** Animations *)

(** The first identifier no animation of the page has. *)
Definition fresh_animation (s : Page) : nat :=
  fresh (dom (animations s)).

(** [content.animate(frames, ...)] for the content of element [i]. *)
Definition animate (i : nat) (k : keyframes) : M nat :=
  fun s =>
    let a := fresh_animation s in
    Ok a (set_animations
            (<[a := {| owner := i; frames := k; state := Running; cancelEventQueued := false |}]>
               (animations s)) s).

(** [animation.cancel()]: nothing for an idle animation; otherwise the
    animation becomes idle and its [cancel] event is queued. *)
Definition cancelled (anim : Animation) : Animation :=
  match state anim with
  | Idle => anim
  | _ => {| owner := owner anim; frames := frames anim;
            state := Idle; cancelEventQueued := true |}
  end.

Definition cancel (a : nat) : M unit :=
  modify (fun s => set_animations (alter cancelled a (animations s)) s).

(** [if (this.#animation) this.#animation.cancel()] *)
Definition cancel_running (i : nat) : M unit :=
  el <- this i ;;
  match animation el with
  | Some a => cancel a
  | None => ret tt
  end.

(** ** The methods *)

Definition default_open (isMobile : bool) (el : Element) : bool :=
  (isMobile && hasAttribute "open-by-default-on-mobile" el)
  || (negb isMobile && hasAttribute "open-by-default-on-desktop" el).

Definition setDefaultOpenState (i : nat) (isMobile : bool) : M unit :=
  el <- this i ;;
  write_open i (default_open isMobile el).

Definition animateOpen (i : nat) : M unit :=
  content <- get_content i ;;
  match content with
  | None => ret tt
  | Some c =>
      cancel_running i ;;
      write_open i true ;;
      a <- animate i (Opening (scrollHeight c)) ;;
      update_element i (set_animation (Some a))
  end.

Definition animateClose (i : nat) : M unit :=
  content <- get_content i ;;
  match content with
  | None => ret tt
  | Some c =>
      cancel_running i ;;
      a <- animate i (Closing (scrollHeight c)) ;;
      update_element i (set_animation (Some a))
  end.

(** The body of the loop of [#closeSiblings] for one element of the list:
    an identifier that names no element of the page stands for an element
    that is not an [AccordionCustom]. *)
Definition closeSibling (i j : nat) : M unit :=
  if Nat.eqb j i then ret tt
  else
    known <- read (fun s => bool_decide (is_Some (elements s !! j))) ;;
    if known then
      d <- get_details j ;;
      if open d then
        supports <- read supportsInterpolateSize ;;
        if supports then write_open j false else animateClose j
      else ret tt
    else ret tt.

Fixpoint for_each (l : list nat) (body : nat -> M unit) : M unit :=
  match l with
  | [] => ret tt
  | j :: rest => body j ;; for_each rest body
  end.

Definition closeSiblings (i : nat) : M unit :=
  el <- this i ;;
  match scope el with
  | Some siblings => for_each siblings (closeSibling i)
  | None => ret tt
  end.

Definition disabled (isMobile : bool) (el : Element) : bool :=
  (isMobile && disableOnMobile el) || (negb isMobile && disableOnDesktop el).

Definition handleClick (i : nat) (isMobile : bool) : M unit :=
  el <- this i ;;
  if disabled isMobile el then preventDefault
  else
    supports <- read supportsInterpolateSize ;;
    if supports then
      d <- get_details i ;;
      if negb (open d) then closeSiblings i else ret tt
    else
      preventDefault ;;
      d <- get_details i ;;
      if open d then animateClose i
      else closeSiblings i ;; animateOpen i.

Definition handleKeyDown (i : nat) (key : string) : M unit :=
  el <- this i ;;
  if String.eqb key "Escape" && closeWithEscape el then
    preventDefault ;;
    supports <- read supportsInterpolateSize ;;
    (if supports then write_open i false else animateClose i) ;;
    get_summary i ;;
    modify (set_focused (Some i))
  else ret tt.

Definition handleMediaQueryChange (i : nat) (isMobile : bool) : M unit :=
  setDefaultOpenState i isMobile.

Definition connectedCallback (i : nat) (isMobile : bool) : M unit :=
  setDefaultOpenState i isMobile ;;
  update_element i add_keydownListener ;;
  get_summary i ;;
  update_element i add_clickListener ;;
  update_element i add_mediaListener.

Definition disconnectedCallback (i : nat) : M unit :=
  update_element i abort ;;
  el <- this i ;;
  match animation el with
  | Some a => cancel a ;; update_element i (set_animation None)
  | None => ret tt
  end.

(** [onfinish] and [oncancel] of the animation of element [i]. *)
Definition onfinish (i : nat) (k : keyframes) : M unit :=
  match k with
  | Opening _ =>
      update_element i (map_details reset_style) ;;
      update_element i (set_animation None)
  | Closing _ =>
      write_open i false ;;
      update_element i (map_details reset_style) ;;
      update_element i (set_animation None)
  end.

Definition oncancel (i : nat) : M unit :=
  update_element i (set_animation None).

(** ** What the browser delivers

    A click on the summary of an element runs the click listener, if it is
    in place, and then, unless the default was prevented, toggles the
    [details].  An exception a listener throws is reported and the
    dispatch goes on. *)

Inductive event : Type :=
  | Click (i : nat) (isMobile : bool)
  | KeyDown (i : nat) (key : string)
  | MediaChange (i : nat) (isMobile : bool)
  | AnimationFinish (a : nat)
  | AnimationCancel (a : nat)
  | Connected (i : nat) (isMobile : bool)
  | Disconnected (i : nat).

Definition listens (f : Element -> bool) (i : nat) (s : Page) : bool :=
  match elements s !! i with
  | Some el => f el
  | None => false
  end.

Definition has_summary_element (i : nat) (s : Page) : bool :=
  match elements s !! i with
  | Some el =>
      match details el with
      | Some d => has_summary d
      | None => false
      end
  | None => false
  end.

Definition toggle (i : nat) (s : Page) : Page :=
  set_elements (alter (map_details (fun d => set_open (negb (open d)) d)) i (elements s)) s.

Definition deliver (e : event) (s : Page) : Page :=
  match e with
  | Click i isMobile =>
      if has_summary_element i s then
        let s0 := set_defaultPrevented false s in
        let s1 := if listens clickListener i s0
                  then page_of (handleClick i isMobile s0) else s0 in
        if defaultPrevented s1 then s1 else toggle i s1
      else s
  | KeyDown i key =>
      let s0 := set_defaultPrevented false s in
      if listens keydownListener i s0 then page_of (handleKeyDown i key s0) else s0
  | MediaChange i isMobile =>
      if listens mediaListener i s then page_of (handleMediaQueryChange i isMobile s) else s
  | AnimationFinish a =>
      match animations s !! a with
      | Some anim =>
          match state anim with
          | Running =>
              page_of (onfinish (owner anim) (frames anim)
                         (set_animations
                            (<[a := {| owner := owner anim; frames := frames anim;
                                       state := Finished;
                                       cancelEventQueued := cancelEventQueued anim |}]>
                               (animations s)) s))
          | _ => s
          end
      | None => s
      end
  | AnimationCancel a =>
      match animations s !! a with
      | Some anim =>
          if cancelEventQueued anim then
            page_of (oncancel (owner anim)
                       (set_animations
                          (<[a := {| owner := owner anim; frames := frames anim;
                                     state := state anim;
                                     cancelEventQueued := false |}]>
                             (animations s)) s))
          else s
      | None => s
      end
  | Connected i isMobile => page_of (connectedCallback i isMobile s)
  | Disconnected i => page_of (disconnectedCallback i s)
  end.

Definition run (events : list event) (s : Page) : Page :=
  foldl (fun s e => deliver e s) s events.

(** ** Well-formed pages *)

(** The animation an element holds in [#animation] exists and was made
    for that element. *)
Definition handles_owned (s : Page) : Prop :=
  forall j el a,
    elements s !! j = Some el -> animation el = Some a ->
    exists anim, animations s !! a = Some anim /\ owner anim = j.

(** Every running animation is held by the element it was made for. *)
Definition running_held (s : Page) : Prop :=
  forall a anim,
    animations s !! a = Some anim -> state anim = Running ->
    exists el, elements s !! owner anim = Some el /\ animation el = Some a.

(** Every [accordion-custom] of the list that is on the page holds a
    [details] element. *)
Definition all_have_details (l : list nat) (s : Page) : Prop :=
  forall j el, j ∈ l -> elements s !! j = Some el -> is_Some (details el).

(** What the loop of [#closeSiblings] over [l], run for element [i],
    has done between [s] and [s'] where [interpolate-size] is not
    supported: every open element of [l] other than [i] that has content
    holds a running close animation of its own; no [details] has
    changed yet, and the elements and animations that do not belong to
    [l] are as they were. *)
Record siblings_closing (i : nat) (l : list nat) (s s' : Page) : Prop := {
  closing_page :
    supportsInterpolateSize s' = supportsInterpolateSize s /\
    defaultPrevented s' = defaultPrevented s /\
    focused s' = focused s;
  closing_frame :
    forall k, k ∉ l \/ k = i -> elements s' !! k = elements s !! k;
  closing_elements :
    forall k, exists h, elements s' !! k = set_animation h <$> elements s !! k;
  closing_handles : handles_owned s';
  closing_animations_frame :
    forall a anim,
      animations s !! a = Some anim -> owner anim ∉ l \/ owner anim = i ->
      animations s' !! a = Some anim;
  closing_animations_new :
    forall a anim',
      animations s' !! a = Some anim' -> animations s !! a = None ->
      owner anim' ∈ l /\ owner anim' <> i;
  closing_animations_old :
    forall a anim,
      animations s !! a = Some anim ->
      exists anim', animations s' !! a = Some anim' /\ owner anim' = owner anim;
  closing_started :
    forall j el d c,
      j ∈ l -> j <> i ->
      elements s !! j = Some el -> details el = Some d ->
      open d = true -> content d = Some c ->
      exists b,
        elements s' !! j = Some (set_animation (Some b) el) /\
        animations s' !! b =
          Some {| owner := j; frames := Closing (scrollHeight c);
                  state := Running; cancelEventQueued := false |}
}.

(** The controller of element [i] is aborted and none of its listeners
    is in place. *)
Definition deaf (i : nat) (s : Page) : Prop :=
  exists el,
    elements s !! i = Some el /\
    aborted el = true /\
    keydownListener el = false /\
    clickListener el = false /\
    mediaListener el = false.

(** The handler [m] keeps the property [good] of the page, whether it
    returns or throws. *)
Definition keeps {A : Type} (good : Page -> Prop) (m : M A) : Prop :=
  forall s, good s -> good (page_of (m s)).

(** The [details] of element [i] is open, respectively closed. *)
Definition is_open (i : nat) (s : Page) : Prop :=
  exists el d, elements s !! i = Some el /\ details el = Some d /\ open d = true.


(** ** A sample page: three accordions under one parent *)

Definition panel (is_open : bool) (c : option Content) : Details :=
  {| open := is_open; has_summary := true; content := c |}.

Definition answer : Content :=
  {| scrollHeight := 120; style_maxHeight := ""; style_opacity := "" |}.

(** An attached accordion of the group. *)
Definition attached
    (attrs : gmap string string) (d : option Details) (held : option nat) : Element :=
  {| attributes := attrs;
     details := d;
     scope := Some [1; 2; 3];
     aborted := false;
     animation := held;
     keydownListener := true;
     clickListener := true;
     mediaListener := true |}.

(** An accordion that was never attached. *)
Definition created (attrs : gmap string string) (d : option Details) : Element :=
  {| attributes := attrs;
     details := d;
     scope := Some [1; 2; 3];
     aborted := false;
     animation := None;
     keydownListener := false;
     clickListener := false;
     mediaListener := false |}.

Definition group (supports : bool) (first second third : Element) : Page :=
  {| elements := <[1 := first]> (<[2 := second]> (<[3 := third]> ∅));
     animations := ∅;
     supportsInterpolateSize := supports;
     defaultPrevented := false;
     focused := None |}.

(** The first closed, the other two open. *)
Definition faq (supports : bool) : Page :=
  group supports
    (attached ∅ (Some (panel false (Some answer))) None)
    (attached ∅ (Some (panel true (Some answer))) None)
    (attached ∅ (Some (panel true (Some answer))) None).


End Accordion.

(** * The scroll indicator (assets/scroll-indicator.js)

    The numbers of the script are JavaScript numbers, that is IEEE 754
    double-precision floats, and so are the numbers here; the operations
    are the primitive ones, which round as JavaScript does.  The readings
    of the window and the document ([scrollY], [scrollHeight],
    [innerHeight]) come with each event.  What is written to a style is
    kept as the number written. *)

From Stdlib Require PrimFloat.

Module ScrollIndicator.

Import PrimFloat.

#[local] Set Warnings "-inexact-float".

Record Readings : Type := {
  scrollY : float;
  documentHeight : float;
  viewportHeight : float
}.

(** [progressCircle] tells whether the element holds the progress circle;
    [scrolledTo] are the targets given to [window.scrollTo], the newest
    first. *)
Record Indicator : Type := {
  progressCircle : bool;
  strokeDasharray : option (float * float);
  strokeDashoffset : option float;
  isAtBottom : bool;
  classList : gset string;
  opacity : option float;
  pointerEvents : option string;
  clickListener : bool;
  scrollListener : bool;
  scrolledTo : list float
}.

(** [Math.max] and [Math.min] of two numbers: [NaN] if either is [NaN],
    and [-0] counts as less than [+0]. *)
Definition Math_max (a b : float) : float :=
  if is_nan a || is_nan b then nan
  else if ltb a b then b
  else if ltb b a then a
  else if is_zero a && is_zero b then (if get_sign a && get_sign b then a else abs a)
  else a.

Definition Math_min (a b : float) : float :=
  if is_nan a || is_nan b then nan
  else if ltb a b then a
  else if ltb b a then b
  else if is_zero a && is_zero b then (if get_sign a || get_sign b then opp (abs a) else a)
  else a.

Definition Math_PI : float := 3.141592653589793%float.

Definition radius : float := 20%float.

Definition circumference : float := mul (mul 2%float Math_PI) radius.

Definition at_bottom_class : string := "scroll-indicator--at-bottom".

Definition maxScroll (r : Readings) : float :=
  sub (documentHeight r) (viewportHeight r).

(** The locals [progress], [offset] and [opacity] of [handleScroll]. *)
Definition progress (r : Readings) : float :=
  if ltb 0%float (maxScroll r)
  then Math_max 0%float (Math_min (div (scrollY r) (maxScroll r)) 1%float)
  else 0%float.

Definition offset_at (p : float) : float :=
  sub circumference (mul p circumference).

Definition opacity_at (p : float) : float :=
  if leb 0.60%float p
  then Math_max 0%float (Math_min 1%float (sub 1%float (div (sub p 0.60%float) 0.15%float)))
  else 1%float.

(** [progress >= 0.95] and [opacity > 0 ? 'auto' : 'none'] *)
Definition at_bottom (p : float) : bool := leb 0.95%float p.

Definition pointerEvents_at (o : float) : string :=
  if ltb 0%float o then "auto" else "none".

Definition handleScroll (r : Readings) (s : Indicator) : Indicator :=
  let p := progress r in
  let wasAtBottom := isAtBottom s in
  let nowAtBottom := at_bottom p in
  {| progressCircle := progressCircle s;
     strokeDasharray := strokeDasharray s;
     strokeDashoffset :=
       if progressCircle s then Some (offset_at p) else strokeDashoffset s;
     isAtBottom := nowAtBottom;
     classList :=
       if negb (Bool.eqb nowAtBottom wasAtBottom) then
         if nowAtBottom then {[at_bottom_class]} ∪ classList s
         else classList s ∖ {[at_bottom_class]}
       else classList s;
     opacity := Some (opacity_at p);
     pointerEvents := Some (pointerEvents_at (opacity_at p));
     clickListener := clickListener s;
     scrollListener := scrollListener s;
     scrolledTo := scrolledTo s |}.

Definition handleClick (r : Readings) (s : Indicator) : Indicator :=
  {| progressCircle := progressCircle s;
     strokeDasharray := strokeDasharray s;
     strokeDashoffset := strokeDashoffset s;
     isAtBottom := isAtBottom s;
     classList := classList s;
     opacity := opacity s;
     pointerEvents := pointerEvents s;
     clickListener := clickListener s;
     scrollListener := scrollListener s;
     scrolledTo := (if isAtBottom s then 0%float else maxScroll r) :: scrolledTo s |}.

(** [init]: the two listeners, then a first [handleScroll]. *)
Definition init (r : Readings) (s : Indicator) : Indicator :=
  handleScroll r
    {| progressCircle := progressCircle s;
       strokeDasharray := strokeDasharray s;
       strokeDashoffset := strokeDashoffset s;
       isAtBottom := isAtBottom s;
       classList := classList s;
       opacity := opacity s;
       pointerEvents := pointerEvents s;
       clickListener := true;
       scrollListener := true;
       scrolledTo := scrolledTo s |}.

(** [new ScrollIndicator(element)] for an element with the classes
    [classes], holding the progress circle or not, with no inline style. *)
Definition constructor (circle : bool) (classes : gset string) (r : Readings) : Indicator :=
  init r
    {| progressCircle := circle;
       strokeDasharray := if circle then Some (circumference, circumference) else None;
       strokeDashoffset := if circle then Some circumference else None;
       isAtBottom := false;
       classList := classes;
       opacity := None;
       pointerEvents := None;
       clickListener := false;
       scrollListener := false;
       scrolledTo := [] |}.

Definition destroy (s : Indicator) : Indicator :=
  {| progressCircle := progressCircle s;
     strokeDasharray := strokeDasharray s;
     strokeDashoffset := strokeDashoffset s;
     isAtBottom := isAtBottom s;
     classList := classList s;
     opacity := opacity s;
     pointerEvents := pointerEvents s;
     clickListener := false;
     scrollListener := false;
     scrolledTo := scrolledTo s |}.

Inductive event : Type :=
  | Scroll (r : Readings)
  | Click (r : Readings)
  | Destroy.

Definition deliver (e : event) (s : Indicator) : Indicator :=
  match e with
  | Scroll r => if scrollListener s then handleScroll r s else s
  | Click r => if clickListener s then handleClick r s else s
  | Destroy => destroy s
  end.

Definition run (events : list event) (s : Indicator) : Indicator :=
  foldl (fun s e => deliver e s) s events.

(** The readings of the last scroll event the handler has seen: those of
    the construction, then those of every scroll event up to the first
    [Destroy]. *)
Fixpoint latest (r : Readings) (events : list event) : Readings :=
  match events with
  | [] => r
  | Scroll r' :: rest => latest r' rest
  | Click _ :: rest => latest r rest
  | Destroy :: _ => r
  end.

(** The class is there exactly while the flag is set. *)
Definition class_follows_flag (s : Indicator) : Prop :=
  at_bottom_class ∈ classList s <-> isAtBottom s = true.

(** The indicator shows the readings [r]: its flag, class, opacity,
    pointer events and ring are the ones [handleScroll] computes from
    [r], and the classes the element came with are as they were. *)
Definition shows (circle : bool) (classes : gset string) (r : Readings) (s : Indicator) : Prop :=
  progressCircle s = circle /\
  isAtBottom s = at_bottom (progress r) /\
  classList s =
    (if at_bottom (progress r) then {[at_bottom_class]} ∪ classes else classes) /\
  opacity s = Some (opacity_at (progress r)) /\
  pointerEvents s = Some (pointerEvents_at (opacity_at (progress r))) /\
  strokeDashoffset s = (if circle then Some (offset_at (progress r)) else None).

(** Sample readings: a page of 3000 px in a window of 800 px, at the top
    and scrolled to its end; a page shorter than the window. *)
Definition at_top : Readings :=
  {| scrollY := 0%float; documentHeight := 3000%float; viewportHeight := 800%float |}.

Definition at_end : Readings :=
  {| scrollY := 2200%float; documentHeight := 3000%float; viewportHeight := 800%float |}.

Definition short_page : Readings :=
  {| scrollY := 0%float; documentHeight := 600%float; viewportHeight := 800%float |}.

End ScrollIndicator.
(** * Basic facts about the handlers *)

Example detect_desktop : detect_iOSSafari desktop_ua false = false.
Proof. reflexivity. Qed.

Example detect_iphone_safari : detect_iOSSafari iphone_safari_ua false = true.
Proof. reflexivity. Qed.

Example detect_iphone_chrome : detect_iOSSafari iphone_chrome_ua false = false.
Proof. reflexivity. Qed.


Ltac open_handlers :=
  unfold act, deliver, resizeObserver_callback, intersectionCallback,
    handleIntersectionUpdate, handleOverflowMinimum, updateMenuVisibility,
    handleWindowScroll, timeout_callback, frame_callback, setHeaderHeight,
    changeMetaThemeColor, write_stickyState, write_scrollDirection,
    setAttribute, removeAttribute, setTimeout, clearTimeout,
    requestAnimationFrame, cancelAnimationFrame in *.

(** A property kept by the frame callback is kept by a whole animation
    frame, whatever the number of pending requests. *)
Lemma frames_fold_ind (P : World -> Prop) top st (pending : list positive) s :
  P s ->
  (forall s', P s' -> P (frame_callback top st s')) ->
  P (foldl (fun s _ => frame_callback top st s) s pending).
Proof.
  intros Hs Hstep. revert s Hs.
  induction pending as [|f pending IH]; intros s Hs; simpl; auto.
Qed.

Lemma attr_is_true a v : attr_is a v = true <-> a = Some v.
Proof.
  destruct a as [x|]; simpl.
  - rewrite String.eqb_eq. split; congruence.
  - split; discriminate.
Qed.

Lemma attr_is_false a v : attr_is a v = false <-> a <> Some v.
Proof.
  rewrite <- attr_is_true. destruct (attr_is a v); split; congruence.
Qed.

Lemma Qltb_true a b : Qltb a b = true <-> (a < b)%Q.
Proof.
  unfold Qltb. rewrite negb_true_iff, <- not_true_iff_false, Qle_bool_iff.
  split; [apply Qnot_le_lt | apply Qlt_not_le].
Qed.

Lemma Qgeb_true a b : Qgeb a b = true <-> (b <= a)%Q.
Proof. unfold Qgeb. apply Qle_bool_iff. Qed.

Lemma Qleb_true a b : Qleb a b = true <-> (a <= b)%Q.
Proof. unfold Qleb. apply Qle_bool_iff. Qed.

(** ** The log only grows *)

Lemma log_frame_callback top st s :
  exists ws, log (host (frame_callback top st s)) = ws ++ log (host s).
Proof.
  open_handlers. case_match; simpl.
  - by exists [WThemeColor; WStickyState (if atTopWithThreshold top (scrollTop_or_0 st)
                                          then "inactive" else "active")].
  - by exists [].
Qed.

Lemma log_deliver e s :
  exists ws, log (host (deliver e s)) = ws ++ log (host s).
Proof.
  destruct e.
  6: { simpl. apply (frames_fold_ind (fun s' => exists ws, log (host s') = ws ++ log (host s))).
       - by exists [].
       - intros s' [ws Hws]. destruct (log_frame_callback top scrollTopReading s') as [ws' Hws'].
         exists (ws' ++ ws). by rewrite Hws', Hws, app_assoc. }
  all: open_handlers; repeat case_match; simpl;
    first [ by exists [] | by eexists [_] | by eexists [_; _] | by eexists [_; _; _] ].
Qed.

Lemma log_act a s :
  exists ws, log (host (act a s)) = ws ++ log (host s).
Proof.
  destruct a as [e|ms]; [apply log_deliver | by exists []].
Qed.

Lemma run_cons a acts s : run (a :: acts) s = run acts (act a s).
Proof. reflexivity. Qed.

Lemma log_run acts s :
  exists ws, log (host (run acts s)) = ws ++ log (host s).
Proof.
  revert s. induction acts as [|a acts IH]; intros s.
  - by exists [].
  - destruct (IH (act a s)) as [ws Hws]. destruct (log_act a s) as [ws' Hws'].
    exists (ws ++ ws'). by rewrite run_cons, Hws, Hws', app_assoc.
Qed.

Lemma written_by_spec f s ws :
  log (host (f s)) = ws ++ log (host s) -> written_by f s = reverse ws.
Proof.
  intros H. unfold written_by. rewrite H, length_app.
  replace (length ws + length (log (host s)) - length (log (host s))) with (length ws) by lia.
  by rewrite take_app_length.
Qed.

Lemma run_app acts1 acts2 s : run (acts1 ++ acts2) s = run acts2 (run acts1 s).
Proof. unfold run. apply foldl_app. Qed.

Lemma run_snoc acts a s : run (acts ++ [a]) s = act a (run acts s).
Proof. by rewrite run_app. Qed.

(** ** No handler touches the [sticky] attribute *)

Lemma sticky_frame_callback top st s :
  getAttribute "sticky" (frame_callback top st s) = getAttribute "sticky" s.
Proof.
  open_handlers. unfold getAttribute. case_match; simpl; by simplify_map_eq.
Qed.

Lemma sticky_deliver e s :
  getAttribute "sticky" (deliver e s) = getAttribute "sticky" s.
Proof.
  destruct e.
  6: { simpl. apply (frames_fold_ind (fun s' => getAttribute "sticky" s' = getAttribute "sticky" s)).
       - done.
       - intros s' <-. apply sticky_frame_callback. }
  all: open_handlers; unfold getAttribute; repeat case_match; simpl; by simplify_map_eq.
Qed.

Lemma sticky_act a s :
  getAttribute "sticky" (act a s) = getAttribute "sticky" s.
Proof. destruct a; [apply sticky_deliver | done]. Qed.

Lemma sticky_run acts s :
  getAttribute "sticky" (run acts s) = getAttribute "sticky" s.
Proof.
  revert s. induction acts as [|a acts IH]; intros s; [done|].
  rewrite run_cons, IH. apply sticky_act.
Qed.

(** ** Writes of a step that all satisfy a property *)

Lemma log_ext_refl ok s : log_ext ok s s.
Proof. exists []. by split. Qed.

Lemma log_ext_same ok s s' :
  log (host s') = log (host s) -> log_ext ok s s'.
Proof. intros H. exists []. by split. Qed.

Lemma log_ext_trans ok s1 s2 s3 :
  log_ext ok s1 s2 -> log_ext ok s2 s3 -> log_ext ok s1 s3.
Proof.
  intros (ws & Hws & Hok) (ws' & Hws' & Hok').
  exists (ws' ++ ws). split.
  - by rewrite Hws', Hws, app_assoc.
  - by apply Forall_app.
Qed.

Lemma log_ext_weaken (ok ok' : write -> Prop) s s' :
  (forall w, ok w -> ok' w) -> log_ext ok s s' -> log_ext ok' s s'.
Proof.
  intros Himp (ws & Hws & Hok). exists ws. split; [done|].
  eapply Forall_impl; eauto.
Qed.

Lemma log_ext_written_by ok f s :
  log_ext ok s (f s) -> Forall ok (written_by f s).
Proof.
  intros (ws & Hws & Hok). rewrite (written_by_spec _ _ _ Hws).
  by apply Forall_reverse.
Qed.

(** Exhibits the writes of one path through a handler (at most four) and
    checks each of them with [tac]. *)
Ltac log_ext_path tac :=
  let check := (repeat (apply Forall_cons_2; [tac|]); apply Forall_nil_2) in
  first [ exists []; split; [reflexivity | check]
        | eexists [_]; split; [reflexivity | check]
        | eexists [_; _]; split; [reflexivity | check]
        | eexists [_; _; _]; split; [reflexivity | check]
        | eexists [_; _; _; _]; split; [reflexivity | check] ].

Lemma direction_writes_elem v ws :
  v ∈ direction_writes ws <-> WScrollDirection v ∈ ws.
Proof.
  unfold direction_writes. rewrite list_elem_of_omap. split.
  - intros (w & Hw & Hv). destruct w; simpl in Hv; try discriminate. congruence.
  - intros Hw. by exists (WScrollDirection v).
Qed.

Lemma state_writes_elem v ws :
  v ∈ state_writes ws <-> WStickyState v ∈ ws.
Proof.
  unfold state_writes. rewrite list_elem_of_omap. split.
  - intros (w & Hw & Hv). destruct w; simpl in Hv; try discriminate. congruence.
  - intros Hw. by exists (WStickyState v).
Qed.

(** ** The values written to [data-scroll-direction] *)

Lemma direction_frame_callback mode top st s :
  log_ext (direction_ok mode) s (frame_callback top st s).
Proof.
  open_handlers. case_match; simpl; log_ext_path ltac:(by intros v' ?).
Qed.

Lemma direction_deliver e s :
  log_ext (direction_ok (getAttribute "sticky" s)) s (deliver e s).
Proof.
  destruct e.
  6: { simpl. apply (frames_fold_ind (log_ext (direction_ok (getAttribute "sticky" s)) s)).
       - by apply log_ext_same.
       - intros s' Hs'. eapply log_ext_trans; [exact Hs'|]. apply direction_frame_callback. }
  all: open_handlers; repeat case_match; simpl;
    log_ext_path ltac:(intros v' [= <-]; rewrite ?attr_is_true in *; auto).
Qed.

Lemma direction_act a s :
  log_ext (direction_ok (getAttribute "sticky" s)) s (act a s).
Proof.
  destruct a; [apply direction_deliver | by apply log_ext_same].
Qed.

Lemma direction_run acts s :
  log_ext (direction_ok (getAttribute "sticky" s)) s (run acts s).
Proof.
  revert s. induction acts as [|a acts IH]; intros s.
  - apply log_ext_refl.
  - rewrite run_cons. eapply log_ext_trans; [apply direction_act|].
    rewrite <- (sticky_act a s). apply IH.
Qed.

(** C10. In [scroll-up] mode every value the component writes to
    [data-scroll-direction], over any sequence of deliveries, is [none] or
    [up]; a write of [down] happens only when [sticky] is [always]. *)
Theorem scroll_up_never_writes_down (s : World) (acts : list action) (v : string) :
  v ∈ direction_writes (written_by (run acts) s) ->
  (getAttribute "sticky" s = Some "scroll-up" -> v = "none" \/ v = "up") /\
  (v = "down" -> getAttribute "sticky" s = Some "always").
Proof.
  intros Hv. apply direction_writes_elem in Hv.
  pose proof (log_ext_written_by _ _ _ (direction_run acts s)) as Hall.
  rewrite Forall_forall in Hall. specialize (Hall _ Hv v eq_refl).
  split.
  - intros Hmode. destruct Hall as [?|[?|[_ Halways]]]; auto.
    rewrite Hmode in Halways. discriminate.
  - intros ->. destruct Hall as [?|[?|[_ ?]]]; [discriminate..|done].
Qed.

Lemma scroll_up_never_writes_down_witness :
  "up" ∈ direction_writes
    (written_by (run down_then_up) (attached desktop_ua false scroll_up_markup ∅ ∅)) /\
  ("up" = "none" \/ "up" = "up").
Proof.
  assert (Hin : "up" ∈ direction_writes
    (written_by (run down_then_up) (attached desktop_ua false scroll_up_markup ∅ ∅))).
  { vm_compute. apply list_elem_of_In. simpl. auto. }
  split; [exact Hin|].
  apply (scroll_up_never_writes_down _ _ _ Hin). reflexivity.
Defined.

(** ** The paths through the scroll handler *)

Lemma cancel_hide_timeout_page s : page (cancel_hide_timeout s) = page s.
Proof. unfold cancel_hide_timeout. by case_match. Qed.

Lemma cancel_hide_timeout_log s : log (host (cancel_hide_timeout s)) = log (host s).
Proof. unfold cancel_hide_timeout. by case_match. Qed.

Lemma cancel_hide_timeout_timeout s : timeout (priv (cancel_hide_timeout s)) = None.
Proof. unfold cancel_hide_timeout. by case_match. Qed.

Lemma cancel_hide_timeout_offscreen s :
  offscreen (priv (cancel_hide_timeout s)) = offscreen (priv s).
Proof. unfold cancel_hide_timeout. by case_match. Qed.

Lemma cancel_hide_timeout_lastScrollTop s :
  lastScrollTop (priv (cancel_hide_timeout s)) = lastScrollTop (priv s).
Proof. unfold cancel_hide_timeout. by case_match. Qed.

Lemma cancel_hide_timeout_isIOSSafari s :
  isIOSSafari (priv (cancel_hide_timeout s)) = isIOSSafari (priv s).
Proof. unfold cancel_hide_timeout. by case_match. Qed.

Lemma cancel_hide_timeout_frame_handle s :
  safariIntersectionTimeout (priv (cancel_hide_timeout s)) = safariIntersectionTimeout (priv s).
Proof. unfold cancel_hide_timeout. by case_match. Qed.

Lemma cancel_hide_timeout_observer s :
  intersectionObserver (priv (cancel_hide_timeout s)) = intersectionObserver (priv s).
Proof. unfold cancel_hide_timeout. by case_match. Qed.

Lemma cancel_hide_timeout_menu s :
  menuDrawerHiddenWidth (priv (cancel_hide_timeout s)) = menuDrawerHiddenWidth (priv s).
Proof. unfold cancel_hide_timeout. by case_match. Qed.

Lemma cancel_hide_timeout_resize s :
  resizeObserving (priv (cancel_hide_timeout s)) = resizeObserving (priv s).
Proof. unfold cancel_hide_timeout. by case_match. Qed.

Lemma cancel_hide_timeout_now s : now (host (cancel_hide_timeout s)) = now (host s).
Proof. unfold cancel_hide_timeout. by case_match. Qed.

Lemma cancel_hide_timeout_frames s : frames (host (cancel_hide_timeout s)) = frames (host s).
Proof. unfold cancel_hide_timeout. by case_match. Qed.

Lemma cancel_hide_timeout_nextHandle s :
  nextHandle (host (cancel_hide_timeout s)) = nextHandle (host s).
Proof. unfold cancel_hide_timeout. by case_match. Qed.

Create Rewrite HintDb world.

#[export] Hint Rewrite cancel_hide_timeout_page cancel_hide_timeout_log
  cancel_hide_timeout_timeout cancel_hide_timeout_offscreen
  cancel_hide_timeout_lastScrollTop cancel_hide_timeout_isIOSSafari
  cancel_hide_timeout_frame_handle cancel_hide_timeout_observer
  cancel_hide_timeout_menu cancel_hide_timeout_resize cancel_hide_timeout_now
  cancel_hide_timeout_frames cancel_hide_timeout_nextHandle : world.

Lemma scroll_gated st top s :
  offscreen (priv s) = false ->
  getAttribute "sticky" s <> Some "always" ->
  handleWindowScroll st top s = s.
Proof.
  intros Hoff Hmode. apply attr_is_false in Hmode.
  unfold handleWindowScroll. by rewrite Hoff, Hmode.
Qed.

Section ScrollUpMode.
Variables (st : option Q) (top : Q) (s : World).
Hypothesis Hmode : getAttribute "sticky" s <> Some "always".
Hypothesis Hoff : offscreen (priv s) = true.

Lemma scroll_up_at_top :
  Qltb (scrollTop_or_0 st) (lastScrollTop (priv s)) = true ->
  Qgeb top 0 = true ->
  handleWindowScroll st top s =
    set_lastScrollTop (scrollTop_or_0 st)
      (write_scrollDirection "none"
        (write_stickyState "inactive"
          (set_offscreen false
            (removeAttribute "data-animating" (cancel_hide_timeout s))))).
Proof.
  intros Hup Htop. apply attr_is_false in Hmode.
  unfold handleWindowScroll, cancel_hide_timeout.
  rewrite Hoff, Hmode, Hup. simpl. by rewrite Htop.
Qed.

Lemma scroll_up_above :
  Qltb (scrollTop_or_0 st) (lastScrollTop (priv s)) = true ->
  Qgeb top 0 = false ->
  handleWindowScroll st top s =
    set_lastScrollTop (scrollTop_or_0 st)
      (write_scrollDirection "up"
        (write_stickyState "active"
          (removeAttribute "data-animating" (cancel_hide_timeout s)))).
Proof.
  intros Hup Htop. apply attr_is_false in Hmode.
  unfold handleWindowScroll, cancel_hide_timeout.
  rewrite Hoff, Hmode, Hup. simpl. by rewrite Htop.
Qed.

Lemma scroll_down_active :
  Qltb (scrollTop_or_0 st) (lastScrollTop (priv s)) = false ->
  stickyState s = Some "active" ->
  handleWindowScroll st top s =
    let s1 := setAttribute "data-animating" ""
                (write_scrollDirection "none" (cancel_hide_timeout s)) in
    set_lastScrollTop (scrollTop_or_0 st)
      (set_timeout (Some (nextHandle (host s1))) (setTimeout animationDelay s1).2).
Proof.
  intros Hup Hactive. apply attr_is_false in Hmode. apply attr_is_true in Hactive.
  unfold handleWindowScroll, cancel_hide_timeout.
  rewrite Hoff, Hmode, Hup. simpl.
  destruct (timeout (priv s)); unfold stickyState in *; simpl; by rewrite Hactive.
Qed.

Lemma scroll_down_not_active :
  Qltb (scrollTop_or_0 st) (lastScrollTop (priv s)) = false ->
  stickyState s <> Some "active" ->
  handleWindowScroll st top s =
    set_lastScrollTop (scrollTop_or_0 st)
      (write_stickyState "idle"
        (write_scrollDirection "none" (cancel_hide_timeout s))).
Proof.
  intros Hup Hactive. apply attr_is_false in Hmode. apply attr_is_false in Hactive.
  unfold handleWindowScroll, cancel_hide_timeout.
  rewrite Hoff, Hmode, Hup. simpl.
  destruct (timeout (priv s)); unfold stickyState in *; simpl; by rewrite Hactive.
Qed.
End ScrollUpMode.

Lemma scroll_always st top s :
  getAttribute "sticky" s = Some "always" ->
  handleWindowScroll st top s =
    set_lastScrollTop (scrollTop_or_0 st)
      (write_scrollDirection
         (always_direction top (scrollTop_or_0 st) (lastScrollTop (priv s)))
         (request_frame_if_safari (cancel_hide_timeout s))).
Proof.
  intros Hmode. apply attr_is_true in Hmode.
  unfold handleWindowScroll, cancel_hide_timeout, request_frame_if_safari, always_direction.
  rewrite Hmode, andb_false_r.
  by repeat case_match.
Qed.

Lemma request_frame_page s : page (request_frame_if_safari s) = page s.
Proof. unfold request_frame_if_safari. by repeat case_match. Qed.

Lemma request_frame_log s : log (host (request_frame_if_safari s)) = log (host s).
Proof. unfold request_frame_if_safari. by repeat case_match. Qed.

#[export] Hint Rewrite request_frame_page request_frame_log : world.

(** ** Down to 500, then up to 300 *)

(** C2, as stated, fails: on an attached [scroll-up] header that is
    offscreen with [lastScrollTop = 0], the two scroll events write [none]
    and then [up] to [data-scroll-direction], not [down] and then [up]. *)
Lemma down_then_up_direction_is_not_down :
  getAttribute "sticky" offscreen_at_rest = Some "scroll-up" /\
  offscreen (priv offscreen_at_rest) = true /\
  lastScrollTop (priv offscreen_at_rest) = 0%Q /\
  direction_writes (written_by (run (two_scrolls (-100) (-100))) offscreen_at_rest)
    = ["none"; "up"] /\
  direction_writes (written_by (run (two_scrolls (-100) (-100))) offscreen_at_rest)
    <> ["down"; "up"].
Proof. vm_compute. repeat split; discriminate. Qed.

(** C2, amended. With [sticky="scroll-up"], the header offscreen and
    [lastScrollTop = 0], scroll events at 500 and then 300, the header's top
    still negative at the second, write [none] and then [up] to
    [data-scroll-direction] and leave [data-sticky-state] at [active],
    whatever the state was before. *)
Theorem down_then_up_directions (s : World) (top1 top2 : Q) :
  getAttribute "sticky" s = Some "scroll-up" ->
  scrollListener (page s) = true ->
  offscreen (priv s) = true ->
  lastScrollTop (priv s) = 0%Q ->
  (top2 < 0)%Q ->
  direction_writes (written_by (run (two_scrolls top1 top2)) s) = ["none"; "up"] /\
  stickyState (run (two_scrolls top1 top2) s) = Some "active".
Proof.
  intros Hmode Hlisten Hoff Hlast Htop2.
  assert (Hmode' : getAttribute "sticky" s <> Some "always") by (rewrite Hmode; discriminate).
  assert (Hdown : Qltb (scrollTop_or_0 (Some 500%Q)) (lastScrollTop (priv s)) = false)
    by (by rewrite Hlast).
  assert (Habove : Qgeb top2 0 = false).
  { apply not_true_iff_false. rewrite Qgeb_true. by apply Qlt_not_le. }
  set (s1 := handleWindowScroll (Some 500%Q) top1 s).
  assert (Hs1 : getAttribute "sticky" s1 = Some "scroll-up" /\
                scrollListener (page s1) = true /\
                offscreen (priv s1) = true /\
                lastScrollTop (priv s1) = 500%Q /\
                exists ws, log (host s1) = ws ++ log (host s) /\
                           direction_writes (reverse ws) = ["none"]).
  { subst s1. destruct (decide (stickyState s = Some "active")) as [Hact|Hact].
    - rewrite scroll_down_active by done. simpl.
      unfold getAttribute in *. simpl. autorewrite with world. simplify_map_eq.
      split_and!; try done. by eexists [_; _].
    - rewrite scroll_down_not_active by done. simpl.
      unfold getAttribute in *. simpl. autorewrite with world. simplify_map_eq.
      split_and!; try done. by eexists [_; _]. }
  destruct Hs1 as (Hmode1 & Hlisten1 & Hoff1 & Hlast1 & ws & Hws & Hdir).
  assert (Hmode1' : getAttribute "sticky" s1 <> Some "always") by (rewrite Hmode1; discriminate).
  assert (Hup : Qltb (scrollTop_or_0 (Some 300%Q)) (lastScrollTop (priv s1)) = true)
    by (by rewrite Hlast1).
  assert (Hrun : run (two_scrolls top1 top2) s = handleWindowScroll (Some 300%Q) top2 s1).
  { unfold two_scrolls. rewrite !run_cons. simpl. rewrite Hlisten. fold s1. by rewrite Hlisten1. }
  split.
  - erewrite written_by_spec.
    2: { rewrite Hrun, scroll_up_above by done. simpl.
         rewrite cancel_hide_timeout_log, Hws.
         by instantiate (1 := [_; _; _] ++ ws). }
    rewrite reverse_app. unfold direction_writes in *.
    rewrite omap_app, Hdir. reflexivity.
  - rewrite Hrun, scroll_up_above by done. unfold stickyState. simpl.
    by simplify_map_eq.
Qed.

Lemma down_then_up_directions_witness :
  direction_writes (written_by (run (two_scrolls (-100) (-100))) offscreen_at_rest)
    = ["none"; "up"] /\
  stickyState (run (two_scrolls (-100) (-100)) offscreen_at_rest) = Some "active".
Proof.
  apply (down_then_up_directions offscreen_at_rest (-100) (-100));
    [reflexivity | reflexivity | reflexivity | reflexivity | reflexivity].
Defined.

(** ** What no delivery changes *)

Lemma frame_callback_priv_page_fields top st s :
  intersectionObserver (priv (frame_callback top st s)) = intersectionObserver (priv s) /\
  isIOSSafari (priv (frame_callback top st s)) = isIOSSafari (priv s) /\
  resizeObserving (priv (frame_callback top st s)) = resizeObserving (priv s) /\
  scrollListener (page (frame_callback top st s)) = scrollListener (page s) /\
  overflowListener (page (frame_callback top st s)) = overflowListener (page s) /\
  now (host (frame_callback top st s)) = now (host s).
Proof. open_handlers. by case_match. Qed.

Lemma registrations_deliver e s :
  intersectionObserver (priv (deliver e s)) = intersectionObserver (priv s) /\
  isIOSSafari (priv (deliver e s)) = isIOSSafari (priv s) /\
  resizeObserving (priv (deliver e s)) = resizeObserving (priv s) /\
  scrollListener (page (deliver e s)) = scrollListener (page s) /\
  overflowListener (page (deliver e s)) = overflowListener (page s) /\
  now (host (deliver e s)) = now (host s).
Proof.
  destruct e.
  6: { simpl.
       apply (frames_fold_ind (fun s' =>
         intersectionObserver (priv s') = intersectionObserver (priv s) /\
         isIOSSafari (priv s') = isIOSSafari (priv s) /\
         resizeObserving (priv s') = resizeObserving (priv s) /\
         scrollListener (page s') = scrollListener (page s) /\
         overflowListener (page s') = overflowListener (page s) /\
         now (host s') = now (host s))); [done|].
       intros s' (<- & <- & <- & <- & <- & <-). apply frame_callback_priv_page_fields. }
  all: open_handlers; by repeat case_match.
Qed.

Lemma registrations_run acts s :
  intersectionObserver (priv (run acts s)) = intersectionObserver (priv s) /\
  isIOSSafari (priv (run acts s)) = isIOSSafari (priv s) /\
  resizeObserving (priv (run acts s)) = resizeObserving (priv s) /\
  scrollListener (page (run acts s)) = scrollListener (page s) /\
  overflowListener (page (run acts s)) = overflowListener (page s).
Proof.
  revert s. induction acts as [|a acts IH]; intros s; [done|].
  rewrite run_cons. destruct (IH (act a s)) as (-> & -> & -> & -> & ->).
  destruct a as [e|ms]; [|done]. unfold act.
  destruct (registrations_deliver e s) as (-> & -> & -> & -> & -> & _). done.
Qed.

(** Time never runs backwards. *)
Lemma now_run acts s : (now (host s) <= now (host (run acts s)))%N.
Proof.
  revert s. induction acts as [|a acts IH]; intros s; [done|].
  rewrite run_cons. etrans; [|apply IH].
  destruct a as [e|ms]; unfold act; [|simpl; lia].
  destruct (registrations_deliver e s) as (_ & _ & _ & _ & _ & ->). done.
Qed.

(** ** The invariant of an attached component *)

Lemma filter_other_id (id : positive) (due : N) :
  filter (fun t : positive * N => t.1 ≠ id) [(id, due)] = [].
Proof. rewrite filter_cons. simpl. by rewrite decide_False by auto. Qed.

Lemma filter_other_id_ne (id id' : positive) (due : N) :
  id' ≠ id ->
  filter (fun t : positive * N => t.1 ≠ id) [(id', due)] = [(id', due)].
Proof. intros Hne. rewrite filter_cons. simpl. by rewrite decide_True by auto. Qed.

Lemma due_of_single (id id' : positive) (due : N) :
  due_of id [(id', due)] = if decide (id' = id) then Some due else None.
Proof. unfold due_of. rewrite filter_cons. simpl. by case_decide. Qed.

Ltac attr_simpl :=
  repeat first
    [ rewrite lookup_insert_eq in *
    | rewrite lookup_delete_eq in *
    | rewrite lookup_insert_ne in * by done
    | rewrite lookup_delete_ne in * by done ].

Ltac inv_close :=
  repeat match goal with
         | H : attr_is ?a ?v = _ |- context [attr_is ?a ?v] => rewrite H
         end;
  split_and!;
  [ by auto
  | first [ by left | right; by eexists _, _ ]
  | first [ by left | right; by eexists _ ] ].

Ltac inv_open s Hobs Hhide Hframe :=
  unfold inv, observer_agrees, hide_pending, frame_pending in *;
  let Hm := fresh "Hm" in
  let Hm' := fresh "Hm'" in
  destruct (attr_is (getAttribute "sticky" s) "always") eqn:Hm;
    [assert (Hm' := proj1 (attr_is_true _ _) Hm) | assert (Hm' := proj1 (attr_is_false _ _) Hm)];
  (destruct Hhide as [Hhide|(?id & ?due & Hhide & ?Hid & ?Hact & ?Hoff & ?Hanim & ?Hmode)];
     [|try done]);
  (destruct Hframe as [[Hframe ?Hnone]|(?fid & Hframe & ?Hfid & ?Hfmode & ?Hios)];
     [|try congruence]).

Ltac inv_crunch Hhide Hframe :=
  repeat case_match; simpl in *;
  unfold stickyState, animating, getAttribute in *; simpl in *;
  rewrite ?Hhide, ?Hframe, ?filter_other_id in *; simplify_eq; simpl in *;
  attr_simpl;
  repeat match goal with H : attr_is _ _ = true |- attr_is _ _ = _ => rewrite H end;
  repeat match goal with
         | H : attr_is _ _ = ?b |- context [attr_is _ _] => rewrite H
         end;
  rewrite ?filter_other_id;
  repeat match goal with
         | H : attr_is _ "active" = true |- _ => apply attr_is_true in H
         end;
  try inv_close.

Lemma inv_scroll st top s : inv s -> inv (handleWindowScroll st top s).
Proof.
  intros (Hobs & Hhide & Hframe). inv_open s Hobs Hhide Hframe.
  all: unfold handleWindowScroll.
  all: destruct (offscreen (priv s)) eqn:Hoffs; simpl.
  all: inv_crunch Hhide Hframe.
Qed.

Lemma inv_intersection entries s :
  inv s -> inv (deliver (IntersectionNotify entries) s).
Proof.
  intros (Hobs & Hhide & Hframe).
  unfold deliver. destruct (intersectionObserver (priv s)) as [o|] eqn:Ho; [|done].
  destruct (io_observing o); [|done].
  destruct (Hobs o Ho) as [Halways _].
  inv_open s Hobs Hhide Hframe.
  all: open_handlers.
  all: rewrite Halways.
  all: inv_crunch Hhide Hframe.
  all: rewrite ?Hact; simpl; rewrite ?orb_true_r; inv_close.
Qed.

Lemma inv_timeout id s : inv s -> inv (deliver (TimeoutFire id) s).
Proof.
  intros (Hobs & Hhide & Hframe). inv_open s Hobs Hhide Hframe.
  all: unfold deliver; rewrite Hhide, ?due_of_single; simpl.
  all: try inv_close.
  all: case_decide; [|inv_close].
  all: case_match; [|inv_close].
  all: subst; open_handlers; simpl; rewrite Hhide, filter_other_id.
  all: inv_crunch Hhide Hframe.
Qed.

Lemma inv_frame top st s : inv s -> inv (deliver (AnimationFrame top st) s).
Proof.
  intros (Hobs & Hhide & Hframe). inv_open s Hobs Hhide Hframe.
  all: unfold deliver; rewrite Hframe; simpl.
  all: open_handlers.
  all: inv_crunch Hhide Hframe.
Qed.

Lemma inv_resize entries innerWidth s :
  inv s -> inv (deliver (ResizeNotify entries innerWidth) s).
Proof.
  intros (Hobs & Hhide & Hframe). inv_open s Hobs Hhide Hframe.
  all: open_handlers.
  all: inv_crunch Hhide Hframe.
Qed.

Lemma inv_overflow minimumReached innerWidth s :
  inv s -> inv (deliver (OverflowMinimum minimumReached innerWidth) s).
Proof.
  intros (Hobs & Hhide & Hframe). inv_open s Hobs Hhide Hframe.
  all: open_handlers.
  all: inv_crunch Hhide Hframe.
Qed.

Lemma inv_deliver e s : inv s -> inv (deliver e s).
Proof.
  destruct e.
  - apply inv_resize.
  - apply inv_intersection.
  - apply inv_overflow.
  - intros Hinv. unfold deliver. case_match; [by apply inv_scroll | done].
  - apply inv_timeout.
  - apply inv_frame.
Qed.

Lemma inv_act a s : inv s -> inv (act a s).
Proof. destruct a as [e|ms]; [apply inv_deliver | done]. Qed.

Lemma inv_run acts s : inv s -> inv (run acts s).
Proof.
  revert s. induction acts as [|a acts IH]; intros s Hs; [done|].
  rewrite run_cons. by apply IH, inv_act.
Qed.

Lemma inv_attached ua ms markup drawer menu :
  inv (attached ua ms markup drawer menu).
Proof.
  unfold attached, connectedCallback, observeStickyPosition, inv,
    observer_agrees, hide_pending, frame_pending, getAttribute.
  repeat case_match; simpl in *; split_and!; try (by left).
  all: intros o; intros; by simplify_eq.
Qed.

Lemma inv_reached ua ms markup drawer menu acts :
  inv (run acts (attached ua ms markup drawer menu)).
Proof. apply inv_run, inv_attached. Qed.

(** ** Scrolling up to the natural position *)

(** C8, as stated, fails: with [#offscreen] false the handler returns at
    its first test, so an upward scroll event with the header's top at 0
    leaves [data-sticky-state] at [idle]. *)
Lemma scroll_up_at_top_gated_when_not_offscreen :
  getAttribute "sticky" idle_in_view = Some "scroll-up" /\
  scrollListener (page idle_in_view) = true /\
  offscreen (priv idle_in_view) = false /\
  Qltb 300 (lastScrollTop (priv idle_in_view)) = true /\
  Qgeb 0 0 = true /\
  stickyState (deliver (Scroll (Some 300%Q) 0%Q) idle_in_view) = Some "idle" /\
  stickyState (deliver (Scroll (Some 300%Q) 0%Q) idle_in_view) <> Some "inactive".
Proof. vm_compute. split_and!; done. Qed.

(** The offset [#lastScrollTop] is stale after scroll events that the
    first test dropped: the page is scrolled from 0 to 800 while the
    header is in view, the header is then reported out of view, and the
    page is scrolled back to 0 with the header's top at 0.  The page
    offset has decreased, but the handler compares the offset it reads
    with the 0 it still holds, takes the event for a downward scroll and
    writes [idle], with [#offscreen] still true. *)
Lemma scroll_up_at_top_not_reset_when_offset_stale :
  let s := run [Deliver (Scroll (Some 800%Q) (-800)%Q);
                Deliver (IntersectionNotify [entry_of false])]
               (attached desktop_ua false scroll_up_markup ∅ ∅) in
  let s' := deliver (Scroll (Some 0%Q) 0%Q) s in
  offscreen (priv s) = true /\
  lastScrollTop (priv s) = 0%Q /\
  stickyState s' = Some "idle" /\
  scrollDirection s' = Some "none" /\
  offscreen (priv s') = true.
Proof. vm_compute. split_and!; done. Qed.

(** C8, amended. In [scroll-up] mode, for every scroll event handled
    while [#offscreen] is true with the header's top at or below the
    viewport top: if the offset read is below [#lastScrollTop], the
    offset stored by the last scroll event that passed the first test of
    the handler, the event sets [#offscreen] to false, [data-sticky-state]
    to [inactive] and [data-scroll-direction] to [none], and removes
    [data-animating], whatever the state, direction and animating flag
    were; if the offset read is not below [#lastScrollTop], there is no
    reset: [#offscreen] stays true, the direction is [none] and the state
    is left [active] or set to [idle].  Either way the offset read is
    stored in [#lastScrollTop]. *)
Theorem scroll_up_to_top_resets (s : World) (st : option Q) (top : Q) :
  getAttribute "sticky" s = Some "scroll-up" ->
  scrollListener (page s) = true ->
  offscreen (priv s) = true ->
  (0 <= top)%Q ->
  let s' := deliver (Scroll st top) s in
  ((scrollTop_or_0 st < lastScrollTop (priv s))%Q ->
   offscreen (priv s') = false /\
   stickyState s' = Some "inactive" /\
   scrollDirection s' = Some "none" /\
   animating s' = false) /\
  ((lastScrollTop (priv s) <= scrollTop_or_0 st)%Q ->
   offscreen (priv s') = true /\
   (stickyState s' = Some "active" \/ stickyState s' = Some "idle") /\
   (stickyState s' = Some "active" <-> stickyState s = Some "active") /\
   scrollDirection s' = Some "none") /\
  lastScrollTop (priv s') = scrollTop_or_0 st.
Proof.
  intros Hmode Hlisten Hoff Htop. simpl. rewrite Hlisten.
  assert (Hnot : getAttribute "sticky" s <> Some "always") by (rewrite Hmode; discriminate).
  assert (Hcases :
    ((scrollTop_or_0 st < lastScrollTop (priv s))%Q /\
     Qltb (scrollTop_or_0 st) (lastScrollTop (priv s)) = true) \/
    ((lastScrollTop (priv s) <= scrollTop_or_0 st)%Q /\
     Qltb (scrollTop_or_0 st) (lastScrollTop (priv s)) = false)).
  { destruct (Qltb (scrollTop_or_0 st) (lastScrollTop (priv s))) eqn:Hup.
    - left. split; [by apply Qltb_true|done].
    - right. split; [|done]. apply Qnot_lt_le. intros Hlt.
      apply Qltb_true in Hlt. congruence. }
  destruct Hcases as [[Hlt Hup]|[Hle Hup]].
  - rewrite scroll_up_at_top; [|done|done|done|by apply Qgeb_true].
    split_and!.
    + intros _. unfold stickyState, scrollDirection, animating. simpl.
      autorewrite with world. attr_simpl. done.
    + intros Hle. by apply Qle_not_lt in Hle.
    + done.
  - split_and!.
    + intros Hlt. by apply Qle_not_lt in Hle.
    + intros _.
      destruct (decide (stickyState s = Some "active")) as [Hactive|Hactive].
      * rewrite scroll_down_active by done.
        unfold stickyState, scrollDirection in *. simpl.
        autorewrite with world. attr_simpl.
        split_and!; [done|by left|done|done].
      * rewrite scroll_down_not_active by done.
        unfold stickyState, scrollDirection in *. simpl.
        autorewrite with world. attr_simpl.
        split_and!; [done|by right|split; [discriminate|done]|done].
    + destruct (decide (stickyState s = Some "active")) as [Hactive|Hactive].
      * by rewrite scroll_down_active.
      * by rewrite scroll_down_not_active.
Qed.

Lemma scroll_up_to_top_resets_witness :
  let s' := deliver (Scroll (Some 0%Q) 0%Q)
              (run down_then_up (attached desktop_ua false scroll_up_markup ∅ ∅)) in
  let stale := deliver (Scroll (Some 0%Q) 0%Q)
                 (run [Deliver (Scroll (Some 800%Q) (-800)%Q);
                       Deliver (IntersectionNotify [entry_of false])]
                      (attached desktop_ua false scroll_up_markup ∅ ∅)) in
  (offscreen (priv s') = false /\
   stickyState s' = Some "inactive" /\
   scrollDirection s' = Some "none" /\
   animating s' = false) /\
  (offscreen (priv stale) = true /\ stickyState stale = Some "idle").
Proof.
  split.
  - apply (scroll_up_to_top_resets
             (run down_then_up (attached desktop_ua false scroll_up_markup ∅ ∅))
             (Some 0%Q) 0%Q);
      [reflexivity | reflexivity | reflexivity | discriminate | reflexivity].
  - destruct (scroll_up_to_top_resets
                (run [Deliver (Scroll (Some 800%Q) (-800)%Q);
                      Deliver (IntersectionNotify [entry_of false])]
                     (attached desktop_ua false scroll_up_markup ∅ ∅))
                (Some 0%Q) 0%Q) as (_ & Hstale & _);
      [reflexivity | reflexivity | reflexivity | discriminate |].
    destruct Hstale as (Hoff & _ & _ & _); [discriminate|].
    split; [exact Hoff|]. by vm_compute.
Defined.

(** ** The deferred transition to [idle] *)

Lemma attached_scrollListener ua ms markup drawer menu :
  markup !! "sticky" = Some "scroll-up" ->
  scrollListener (page (attached ua ms markup drawer menu)) = true.
Proof.
  intros Hmode. unfold attached, connectedCallback, observeStickyPosition, getAttribute.
  simpl. rewrite Hmode. reflexivity.
Qed.

Lemma attached_sticky ua ms markup drawer menu :
  getAttribute "sticky" (attached ua ms markup drawer menu) = markup !! "sticky".
Proof.
  unfold attached, connectedCallback, observeStickyPosition, getAttribute.
  simpl. by repeat case_match.
Qed.

(** Firing the pending timeout once its delay has elapsed completes the
    transition. *)
Lemma hiding_fire id due s :
  hiding id due s -> (due <= now (host s))%N ->
  hidden due (deliver (TimeoutFire id) s).
Proof.
  intros (Hact & Hanim & Ht) Hdue. unfold deliver.
  rewrite Ht, due_of_single, decide_True by done.
  apply N.leb_le in Hdue as Hdue'. rewrite Hdue'.
  unfold hidden, stickyState, animating. open_handlers. simpl. attr_simpl. done.
Qed.

Lemma quiet_step id due a s :
  quiet a = true ->
  inv s ->
  getAttribute "sticky" s = Some "scroll-up" ->
  hiding id due s \/ hidden due s ->
  hiding id due (act a s) \/ hidden due (act a s).
Proof.
  intros Hquiet (Hobs & Hhide & Hframe) Hmode Hphase.
  assert (Hnot : getAttribute "sticky" s <> Some "always") by (rewrite Hmode; discriminate).
  assert (Hf : frames (host s) = []).
  { destruct Hframe as [[? _]|(? & _ & _ & ? & _)]; [done | congruence]. }
  assert (Hobs' : forall o, intersectionObserver (priv s) = Some o -> io_alwaysSticky o = false).
  { intros o Ho. destruct (Hobs o Ho) as [-> _]. by apply attr_is_false. }
  destruct a as [[entries iw|entries|reached iw|st top|id'|top st]|ms]; try discriminate.
  - (* resize *)
    assert (Hsame : attrs (page (deliver (ResizeNotify entries iw) s)) = attrs (page s) /\
                    timers (host (deliver (ResizeNotify entries iw) s)) = timers (host s) /\
                    now (host (deliver (ResizeNotify entries iw) s)) = now (host s))
      by (open_handlers; by repeat case_match).
    destruct Hsame as (Ha & Ht & Hn).
    unfold hiding, hidden, stickyState, animating, act in *. by rewrite Ha, Ht, Hn.
  - (* intersection *)
    assert (Hsame : attrs (page (deliver (IntersectionNotify entries) s)) = attrs (page s) /\
                    timers (host (deliver (IntersectionNotify entries) s)) = timers (host s) /\
                    now (host (deliver (IntersectionNotify entries) s)) = now (host s)).
    { unfold deliver. destruct (intersectionObserver (priv s)) as [o|] eqn:Ho; [|done].
      rewrite (Hobs' o eq_refl). open_handlers. by repeat case_match. }
    destruct Hsame as (Ha & Ht & Hn).
    unfold hiding, hidden, stickyState, animating, act in *. by rewrite Ha, Ht, Hn.
  - (* overflowMinimum *)
    assert (Hsame : attrs (page (deliver (OverflowMinimum reached iw) s)) = attrs (page s) /\
                    timers (host (deliver (OverflowMinimum reached iw) s)) = timers (host s) /\
                    now (host (deliver (OverflowMinimum reached iw) s)) = now (host s))
      by (open_handlers; by repeat case_match).
    destruct Hsame as (Ha & Ht & Hn).
    unfold hiding, hidden, stickyState, animating, act in *. by rewrite Ha, Ht, Hn.
  - (* a timeout *)
    destruct Hphase as [Hhiding|Hhidden].
    + pose proof Hhiding as (Hact & Hanim & Ht).
      unfold act, deliver. rewrite Ht, due_of_single.
      case_decide as Hid; [subst id'|by left].
      destruct (due <=? now (host s))%N eqn:Hdue; [|by left].
      right. apply N.leb_le in Hdue.
      pose proof (hiding_fire id due s Hhiding Hdue) as Hfire.
      unfold deliver in Hfire. rewrite Ht, due_of_single, decide_True in Hfire by done.
      apply N.leb_le in Hdue. by rewrite Hdue in Hfire.
    + right. destruct Hhidden as (Hidle & Hanim & Hdue).
      destruct Hhide as [Ht|(? & ? & _ & _ & Hact & _)]; [|congruence].
      unfold act, deliver, due_of. by rewrite Ht.
  - (* an animation frame *)
    assert (Hsame : attrs (page (deliver (AnimationFrame top st) s)) = attrs (page s) /\
                    timers (host (deliver (AnimationFrame top st) s)) = timers (host s) /\
                    now (host (deliver (AnimationFrame top st) s)) = now (host s))
      by (unfold deliver; by rewrite Hf).
    destruct Hsame as (Ha & Ht & Hn).
    unfold hiding, hidden, stickyState, animating, act in *. by rewrite Ha, Ht, Hn.
  - (* time passes *)
    destruct Hphase as [?|(? & ? & ?)]; [by left|right].
    unfold hidden, act. simpl. split_and!; [done..|lia].
Qed.

Lemma quiet_run id due acts s :
  Forall (fun a => quiet a = true) acts ->
  inv s ->
  getAttribute "sticky" s = Some "scroll-up" ->
  hiding id due s \/ hidden due s ->
  hiding id due (run acts s) \/ hidden due (run acts s).
Proof.
  intros Hquiet. revert s.
  induction Hquiet as [|a acts Ha _ IH]; intros s Hinv Hmode Hphase; [done|].
  rewrite run_cons. apply IH.
  - by apply inv_act.
  - by rewrite sticky_act.
  - by apply quiet_step.
Qed.

(** C7, as stated, fails: a scroll event handled 50ms into the delay with
    the offset decreased cancels the timeout and removes [data-animating]
    at once, and the header is still [active] when the 150ms have
    elapsed. *)
Lemma hide_cancelled_by_scroll_up_within_delay :
  getAttribute "sticky" active_offscreen = Some "scroll-up" /\
  offscreen (priv active_offscreen) = true /\
  stickyState active_offscreen = Some "active" /\
  Qltb 400 (lastScrollTop (priv active_offscreen)) = false /\
  animating hide_started = true /\
  timers (host hide_started) = [(1%positive, 150%N)] /\
  now (host reversed_after_50ms) = 50%N /\
  animating reversed_after_50ms = false /\
  now (host delay_elapsed) = 150%N /\
  stickyState delay_elapsed = Some "active".
Proof. vm_compute. split_and!; reflexivity. Qed.

(** C7, amended. In [scroll-up] mode, a scroll event that is handled while
    [data-sticky-state] is [active] and the scroll offset has not decreased
    leaves the header [active] and flagged [data-animating], with one
    timeout pending for 150ms later.  Provided no further scroll event is
    handled in the meantime, the header stays [active] and [data-animating]
    stays present until that timeout runs, which cannot happen before the
    150ms have elapsed and does happen when the browser fires it after
    them; from then on the state is [idle] and [data-animating] is
    absent. *)
Theorem idle_only_after_delay
    (ua : string) (ms : bool) (markup : gmap string string) (drawer menu : gset string)
    (before : list action) (st : option Q) (top : Q) :
  let s := run before (attached ua ms markup drawer menu) in
  let s1 := deliver (Scroll st top) s in
  let due := (now (host s) + 150)%N in
  markup !! "sticky" = Some "scroll-up" ->
  offscreen (priv s) = true ->
  stickyState s = Some "active" ->
  ~ (scrollTop_or_0 st < lastScrollTop (priv s))%Q ->
  exists id,
    hiding id due s1 /\
    forall after, Forall (fun a => quiet a = true) after ->
      let s2 := run after s1 in
      (hiding id due s2 /\
       ((now (host s2) < due)%N -> deliver (TimeoutFire id) s2 = s2) /\
       ((due <= now (host s2))%N -> hidden due (deliver (TimeoutFire id) s2)))
      \/ hidden due s2.
Proof.
  intros s s1 due Hmarkup Hoff Hactive Hdown.
  assert (Hinv : inv s) by apply inv_reached.
  assert (Hmode : getAttribute "sticky" s = Some "scroll-up").
  { subst s. by rewrite sticky_run, attached_sticky. }
  assert (Hlisten : scrollListener (page s) = true).
  { subst s. destruct (registrations_run before (attached ua ms markup drawer menu))
      as (_ & _ & _ & -> & _). by apply attached_scrollListener. }
  assert (Hnot : getAttribute "sticky" s <> Some "always") by (rewrite Hmode; discriminate).
  assert (Hdown' : Qltb (scrollTop_or_0 st) (lastScrollTop (priv s)) = false).
  { apply not_true_iff_false. by rewrite Qltb_true. }
  assert (Hcleared : timers (host (cancel_hide_timeout s)) = []).
  { destruct Hinv as (_ & [Ht|(id & d & Ht & Hid & _)] & _); unfold cancel_hide_timeout.
    - destruct (timeout (priv s)); simpl; by rewrite Ht.
    - rewrite Hid. simpl. by rewrite Ht, filter_other_id. }
  assert (Hs1 : s1 = handleWindowScroll st top s).
  { subst s1. unfold deliver. by rewrite Hlisten. }
  exists (nextHandle (host s)).
  assert (Hhiding : hiding (nextHandle (host s)) due s1).
  { rewrite Hs1, scroll_down_active by done.
    unfold hiding, stickyState, animating. simpl. autorewrite with world.
    rewrite Hcleared. attr_simpl. done. }
  split; [done|].
  intros after Hquiet s2. subst s2.
  assert (Hinv1 : inv s1) by (subst s1; by apply inv_deliver).
  assert (Hmode1 : getAttribute "sticky" s1 = Some "scroll-up")
    by (subst s1; by rewrite sticky_deliver).
  destruct (quiet_run (nextHandle (host s)) due after s1 Hquiet Hinv1 Hmode1 (or_introl Hhiding))
    as [Hwait|Hdone]; [left|by right].
  split_and!; [done| |by apply hiding_fire].
  intros Hearly. destruct Hwait as (_ & _ & Ht).
  unfold deliver. rewrite Ht, due_of_single, decide_True by done.
  apply N.leb_gt in Hearly. by rewrite Hearly.
Qed.

Lemma idle_only_after_delay_witness :
  exists id,
    hiding id 150
      (deliver (Scroll (Some 400%Q) (-100)%Q)
         (run down_then_up (attached desktop_ua false scroll_up_markup ∅ ∅))) /\
    forall after, Forall (fun a => quiet a = true) after ->
      let s2 := run after
                  (deliver (Scroll (Some 400%Q) (-100)%Q)
                     (run down_then_up (attached desktop_ua false scroll_up_markup ∅ ∅))) in
      (hiding id 150 s2 /\
       ((now (host s2) < 150)%N -> deliver (TimeoutFire id) s2 = s2) /\
       ((150 <= now (host s2))%N -> hidden 150 (deliver (TimeoutFire id) s2)))
      \/ hidden 150 s2.
Proof.
  apply (idle_only_after_delay desktop_ua false scroll_up_markup ∅ ∅ down_then_up
           (Some 400%Q) (-100)%Q);
    [reflexivity | reflexivity | reflexivity | vm_compute; discriminate].
Defined.

(** ** Where [idle] is written *)

(** C1, as stated, fails: from the state [inactive], with no timeout
    pending, a downward scroll event of an offscreen [scroll-up] header
    writes [idle] at once. *)
Lemma idle_written_directly_from_inactive :
  stickyState inactive_offscreen = Some "inactive" /\
  timers (host inactive_offscreen) = [] /\
  state_writes (written_by (deliver (Scroll (Some 200%Q) (-100)%Q)) inactive_offscreen)
    = ["idle"] /\
  stickyState (deliver (Scroll (Some 200%Q) (-100)%Q) inactive_offscreen) = Some "idle" /\
  timers (host (deliver (Scroll (Some 200%Q) (-100)%Q) inactive_offscreen)) = [].
Proof. vm_compute. split_and!; reflexivity. Qed.

Lemma not_idle_frame_callback top st s :
  log_ext not_idle s (frame_callback top st s).
Proof.
  open_handlers. case_match; simpl;
    log_ext_path ltac:(intros ?; by repeat (case_match; simplify_eq)).
Qed.

Lemma not_idle_frame top st s :
  log_ext not_idle s (deliver (AnimationFrame top st) s).
Proof.
  simpl. apply (frames_fold_ind (log_ext not_idle s)).
  - by apply log_ext_same.
  - intros s' Hs'. eapply log_ext_trans; [exact Hs'|]. apply not_idle_frame_callback.
Qed.

Lemma not_idle_resize entries iw s :
  log_ext not_idle s (deliver (ResizeNotify entries iw) s).
Proof.
  open_handlers. repeat case_match; simpl; log_ext_path ltac:(by intros ?).
Qed.

Lemma not_idle_overflow reached iw s :
  log_ext not_idle s (deliver (OverflowMinimum reached iw) s).
Proof.
  open_handlers. repeat case_match; simpl; log_ext_path ltac:(by intros ?).
Qed.

Lemma not_idle_intersection entries s :
  log_ext not_idle s (deliver (IntersectionNotify entries) s).
Proof.
  open_handlers. repeat case_match; simpl; log_ext_path ltac:(by intros ?).
Qed.

(** The scroll handler writes [idle] on one path only. *)
Lemma scroll_idle_cases st top s :
  log_ext not_idle s (handleWindowScroll st top s) \/
  (getAttribute "sticky" s <> Some "always" /\
   offscreen (priv s) = true /\
   Qltb (scrollTop_or_0 st) (lastScrollTop (priv s)) = false /\
   stickyState s <> Some "active").
Proof.
  destruct (attr_is (getAttribute "sticky" s) "always") eqn:Hm.
  { left. unfold handleWindowScroll. rewrite Hm. open_handlers.
    repeat case_match; simpl; log_ext_path ltac:(by intros ?). }
  apply attr_is_false in Hm.
  destruct (offscreen (priv s)) eqn:Hoff.
  2: { left. rewrite scroll_gated by done. apply log_ext_refl. }
  destruct (Qltb (scrollTop_or_0 st) (lastScrollTop (priv s))) eqn:Hup.
  { left. destruct (Qgeb top 0) eqn:Htop.
    - rewrite scroll_up_at_top by done.
      exists [WScrollDirection "none"; WStickyState "inactive"; WRemoveAttribute "data-animating"].
      split; [simpl; by rewrite cancel_hide_timeout_log | by repeat constructor].
    - rewrite scroll_up_above by done.
      exists [WScrollDirection "up"; WStickyState "active"; WRemoveAttribute "data-animating"].
      split; [simpl; by rewrite cancel_hide_timeout_log | by repeat constructor]. }
  destruct (decide (stickyState s = Some "active")) as [Hact|Hact]; [left|by right].
  rewrite scroll_down_active by done.
  exists [WSetAttribute "data-animating" ""; WScrollDirection "none"].
  split; [simpl; by rewrite cancel_hide_timeout_log | by repeat constructor].
Qed.

Lemma attached_listens ua ms markup drawer menu :
  scrollListener (page (attached ua ms markup drawer menu)) = true ->
  markup !! "sticky" = Some "scroll-up" \/ markup !! "sticky" = Some "always".
Proof.
  unfold attached, connectedCallback, observeStickyPosition, getAttribute. simpl.
  destruct (attr_is (markup !! "sticky") "scroll-up") eqn:Hup;
    [apply attr_is_true in Hup; by left|].
  destruct (attr_is (markup !! "sticky") "always") eqn:Hal;
    [apply attr_is_true in Hal; by right|].
  by repeat case_match.
Qed.

Lemma not_idle_absent f s :
  log_ext not_idle s (f s) -> "idle" ∉ state_writes (written_by f s).
Proof.
  intros Hext Hin. apply state_writes_elem in Hin.
  apply log_ext_written_by in Hext. rewrite Forall_forall in Hext.
  by apply (Hext _ Hin).
Qed.

(** C1, amended. In every state an attached component reaches, [idle] is
    written to [data-sticky-state] in two ways only, both on the
    [scroll-up] path of the scroll handler for an offscreen header, when
    the offset read is not below [#lastScrollTop]: at once, when the state
    is not [active]; or by the deferred timeout, which runs only on a header that
    is [active] and flagged [data-animating].  The resize, intersection,
    overflow and animation frame handlers, and [always] mode, never write
    [idle]. *)
Theorem idle_written_two_ways
    (ua : string) (ms : bool) (markup : gmap string string) (drawer menu : gset string)
    (before : list action) (e : event) :
  let s := run before (attached ua ms markup drawer menu) in
  "idle" ∈ state_writes (written_by (deliver e) s) ->
  (exists st top,
     e = Scroll st top /\
     getAttribute "sticky" s = Some "scroll-up" /\
     offscreen (priv s) = true /\
     ~ (scrollTop_or_0 st < lastScrollTop (priv s))%Q /\
     stickyState s <> Some "active") \/
  (exists id due,
     e = TimeoutFire id /\
     timers (host s) = [(id, due)] /\
     (due <= now (host s))%N /\
     getAttribute "sticky" s <> Some "always" /\
     stickyState s = Some "active" /\
     animating s = true).
Proof.
  intros s Hidle.
  assert (Hinv : inv s) by apply inv_reached.
  destruct e as [entries iw|entries|reached iw|st top|id|top st].
  - by apply not_idle_absent in Hidle; [|apply not_idle_resize].
  - by apply not_idle_absent in Hidle; [|apply not_idle_intersection].
  - by apply not_idle_absent in Hidle; [|apply not_idle_overflow].
  - left. exists st, top. split; [done|].
    destruct (scrollListener (page s)) eqn:Hlisten.
    2: { apply not_idle_absent in Hidle; [done|].
         unfold deliver. rewrite Hlisten. apply log_ext_refl. }
    destruct (scroll_idle_cases st top s) as [Hnone|(Hmode & Hoff & Hdown & Hact)].
    { apply not_idle_absent in Hidle; [done|]. unfold deliver. by rewrite Hlisten. }
    split_and!; [|done| |done].
    + subst s. rewrite sticky_run, attached_sticky in *.
      destruct (registrations_run before (attached ua ms markup drawer menu))
        as (_ & _ & _ & Hl & _).
      rewrite Hl in Hlisten. by destruct (attached_listens _ _ _ _ _ Hlisten).
    + rewrite <- Qltb_true. by rewrite Hdown.
  - right. destruct Hinv as (_ & [Ht|(id' & due & Ht & _ & Hact & _ & Hanim & Hmode)] & _).
    { apply not_idle_absent in Hidle; [done|].
      unfold deliver, due_of. rewrite Ht. apply log_ext_refl. }
    destruct (decide (id' = id)) as [->|Hne].
    2: { apply not_idle_absent in Hidle; [done|].
         unfold deliver. rewrite Ht, due_of_single, decide_False by done. apply log_ext_refl. }
    destruct (due <=? now (host s))%N eqn:Hdue.
    2: { apply not_idle_absent in Hidle; [done|].
         unfold deliver. rewrite Ht, due_of_single, decide_True, Hdue by done.
         apply log_ext_refl. }
    exists id, due. apply N.leb_le in Hdue. done.
  - by apply not_idle_absent in Hidle; [|apply not_idle_frame].
Qed.

Lemma idle_written_two_ways_witness :
  (exists st top,
     Scroll (Some 200%Q) (-100)%Q = Scroll st top /\
     getAttribute "sticky" inactive_offscreen = Some "scroll-up" /\
     offscreen (priv inactive_offscreen) = true /\
     ~ (scrollTop_or_0 st < lastScrollTop (priv inactive_offscreen))%Q /\
     stickyState inactive_offscreen <> Some "active") \/
  (exists id due,
     Scroll (Some 200%Q) (-100)%Q = TimeoutFire id /\
     timers (host inactive_offscreen) = [(id, due)] /\
     (due <= now (host inactive_offscreen))%N /\
     getAttribute "sticky" inactive_offscreen <> Some "always" /\
     stickyState inactive_offscreen = Some "active" /\
     animating inactive_offscreen = true).
Proof.
  assert (Hidle : "idle" ∈ state_writes
            (written_by (deliver (Scroll (Some 200%Q) (-100)%Q)) inactive_offscreen)).
  { vm_compute. apply list_elem_of_In. simpl. auto. }
  exact (idle_written_two_ways desktop_ua false scroll_up_markup ∅ ∅ away_back_away
           (Scroll (Some 200%Q) (-100)%Q) Hidle).
Defined.

(** ** The menu and the drawer *)

(** C3, as stated, fails: an [overflowMinimum] event with
    [minimumReached = false] clears the recorded width although the window
    is no wider than when the menu was hidden. *)
Lemma hidden_width_cleared_by_overflow_event :
  menuDrawerHiddenWidth (priv menu_hidden_at_800) = Some 800%Z /\
  ~ (800 < 800)%Z /\
  menuDrawerHiddenWidth (priv (deliver (OverflowMinimum false 800) menu_hidden_at_800)) = None.
Proof. vm_compute. split_and!; [done | discriminate | done]. Qed.

Lemma restorations_app ws1 ws2 :
  restorations (ws1 ++ ws2) = restorations ws1 + restorations ws2.
Proof. unfold restorations. by rewrite filter_app, length_app. Qed.

Lemma restorations_reverse ws : restorations (reverse ws) = restorations ws.
Proof. unfold restorations. by rewrite filter_reverse, length_reverse. Qed.

Lemma restorations_written_by f s :
  (exists ws, log (host (f s)) = ws ++ log (host s)) ->
  restorations (written_by f s) + restorations (log (host s))
    = restorations (log (host (f s))).
Proof.
  intros [ws Hws]. rewrite (written_by_spec _ _ _ Hws), Hws.
  by rewrite restorations_reverse, restorations_app.
Qed.

Lemma frame_callback_menu top st s :
  menuDrawerHiddenWidth (priv (frame_callback top st s)) = menuDrawerHiddenWidth (priv s) /\
  restorations (log (host (frame_callback top st s))) = restorations (log (host s)).
Proof. open_handlers. by case_match. Qed.

(** Deliveries other than resize and [overflowMinimum] leave the recorded
    width and the menu alone. *)
Lemma menu_untouched a s :
  menu_event a = false ->
  menuDrawerHiddenWidth (priv (act a s)) = menuDrawerHiddenWidth (priv s) /\
  restorations (log (host (act a s))) = restorations (log (host s)).
Proof.
  destruct a as [[entries iw|entries|reached iw|st top|id|top st]|ms]; try discriminate;
    intros _.
  4: { simpl. apply (frames_fold_ind (fun s' =>
         menuDrawerHiddenWidth (priv s') = menuDrawerHiddenWidth (priv s) /\
         restorations (log (host s')) = restorations (log (host s)))); [done|].
       intros s' [<- <-]. apply frame_callback_menu. }
  all: open_handlers; by repeat case_match.
Qed.

(** Without [overflowMinimum] events, each restoration uses up a hide. *)
Lemma restore_uses_hide a s :
  is_overflow a = false ->
  restorations (log (host (act a s))) + menu_hidden_flag (act a s)
    = restorations (log (host s)) + menu_hidden_flag s.
Proof.
  intros Hov. destruct (menu_event a) eqn:Hev.
  - destruct a as [[entries iw|entries|reached iw|st top|id|top st]|ms]; try discriminate.
    unfold menu_hidden_flag. open_handlers. unfold wider_than_hidden.
    repeat case_match; simpl in *; simplify_eq; done.
  - destruct (menu_untouched a s Hev) as [Hw Hr]. unfold menu_hidden_flag. by rewrite Hw, Hr.
Qed.

Lemma restore_uses_hide_run acts s :
  Forall (fun a => is_overflow a = false) acts ->
  restorations (log (host (run acts s))) + menu_hidden_flag (run acts s)
    = restorations (log (host s)) + menu_hidden_flag s.
Proof.
  intros Hacts. revert s. induction Hacts as [|a acts Ha _ IH]; intros s; [done|].
  by rewrite run_cons, IH, restore_uses_hide.
Qed.

(** C3, amended. Once [#menuDrawerHiddenWidth] holds a nonzero width [w]
    on an attached header: a resize callback clears it, restoring the
    inline menu and hiding the drawer, exactly when [window.innerWidth] is
    then greater than [w]; an [overflowMinimum] event clears it when
    [minimumReached] is false and records the current width when it is
    true; nothing else changes it; and over any deliveries without
    [overflowMinimum] events the menu is restored at most once, exactly
    once if the width ends up cleared. *)
Theorem hidden_width_cleared_when_wider (s : World) (w : Z) :
  menuDrawerHiddenWidth (priv s) = Some w ->
  w <> 0%Z ->
  resizeObserving (priv s) = true ->
  overflowListener (page s) = true ->
  (forall height rest innerWidth,
     let s' := deliver (ResizeNotify (height :: rest) innerWidth) s in
     ((w < innerWidth)%Z ->
        menuDrawerHiddenWidth (priv s') = None /\
        ("hidden" ∉ menuClasses (page s')) /\
        ("desktop:hidden" ∈ drawerClasses (page s')) /\
        restorations (written_by (deliver (ResizeNotify (height :: rest) innerWidth)) s) = 1) /\
     (~ (w < innerWidth)%Z ->
        menuDrawerHiddenWidth (priv s') = Some w /\
        menuClasses (page s') = menuClasses (page s) /\
        drawerClasses (page s') = drawerClasses (page s) /\
        restorations (written_by (deliver (ResizeNotify (height :: rest) innerWidth)) s) = 0)) /\
  (forall minimumReached innerWidth,
     menuDrawerHiddenWidth (priv (deliver (OverflowMinimum minimumReached innerWidth) s))
       = if minimumReached then Some innerWidth else None) /\
  (forall a, menu_event a = false ->
     menuDrawerHiddenWidth (priv (act a s)) = Some w) /\
  (forall acts, Forall (fun a => is_overflow a = false) acts ->
     restorations (written_by (run acts) s)
       = match menuDrawerHiddenWidth (priv (run acts s)) with
         | Some _ => 0
         | None => 1
         end).
Proof.
  intros Hw Hnz Hresize Hoverflow. split_and!.
  - intros height rest iw s'. subst s'. split.
    + intros Hwide.
      assert (Htest : wider_than_hidden (Some w) iw = true).
      { unfold wider_than_hidden. apply andb_true_iff. split.
        - apply negb_true_iff. by apply Z.eqb_neq.
        - by apply Z.ltb_lt. }
      unfold deliver. rewrite Hresize. open_handlers. simpl. rewrite Hw, Htest. simpl.
      split_and!;
        [ done
        | apply not_elem_of_difference; right; by apply elem_of_singleton
        | by apply elem_of_union_l, elem_of_singleton
        | ].
      erewrite written_by_spec.
      2: { simpl. rewrite Hresize. open_handlers. simpl. rewrite Hw, Htest. simpl.
           by instantiate (1 := [_; _]). }
      reflexivity.
    + intros Hnarrow.
      assert (Htest : wider_than_hidden (Some w) iw = false).
      { unfold wider_than_hidden. apply andb_false_iff. right. by apply Z.ltb_nlt. }
      unfold deliver. rewrite Hresize. open_handlers. simpl. rewrite Hw, Htest. simpl.
      split_and!; [done..|].
      erewrite written_by_spec.
      2: { simpl. rewrite Hresize. open_handlers. simpl. rewrite Hw, Htest. simpl.
           by instantiate (1 := [_]). }
      reflexivity.
  - intros reached iw. unfold deliver. rewrite Hoverflow. open_handlers.
    by destruct reached.
  - intros a Ha. destruct (menu_untouched a s Ha) as [-> _]. done.
  - intros acts Hacts.
    pose proof (restore_uses_hide_run acts s Hacts) as Hsum.
    pose proof (restorations_written_by (run acts) s (log_run acts s)) as Hnew.
    unfold menu_hidden_flag in Hsum. rewrite Hw in Hsum.
    destruct (menuDrawerHiddenWidth (priv (run acts s))); lia.
Qed.

Lemma hidden_width_cleared_when_wider_witness :
  menuDrawerHiddenWidth
    (priv (deliver (ResizeNotify [64%Q] 1024) menu_hidden_at_800)) = None /\
  restorations
    (written_by (run [Deliver (ResizeNotify [64%Q] 1024); Deliver (ResizeNotify [64%Q] 1280)])
       menu_hidden_at_800) = 1.
Proof.
  assert (Hnz : 800%Z <> 0%Z) by discriminate.
  destruct (hidden_width_cleared_when_wider menu_hidden_at_800 800%Z
              eq_refl Hnz eq_refl eq_refl) as (Hresize & _ & _ & Honce).
  split.
  - apply (Hresize 64%Q [] 1024%Z). reflexivity.
  - rewrite Honce; [reflexivity|]. repeat constructor.
Defined.

(** ** [always] mode follows the 0.95 threshold *)

Lemma always_ready_attached ua ms markup drawer menu :
  markup !! "sticky" = Some "always" ->
  detect_iOSSafari ua ms = false ->
  always_ready (attached ua ms markup drawer menu).
Proof.
  intros Hmode Hua.
  unfold always_ready, attached, connectedCallback, observeStickyPosition, getAttribute.
  simpl. rewrite Hmode, Hua. simpl. split; [done|]. by eexists.
Qed.

Lemma always_ready_run acts s : always_ready s -> always_ready (run acts s).
Proof.
  unfold always_ready.
  destruct (registrations_run acts s) as (-> & -> & _). done.
Qed.

Lemma always_ready_notify entry rest s :
  always_ready s ->
  deliver (IntersectionNotify (entry :: rest)) s
    = changeMetaThemeColor (write_stickyState (state_for (isIntersecting entry)) s).
Proof.
  intros (Hios & o & Ho & Halways & _ & Hobserving).
  unfold deliver. rewrite Ho, Hobserving, Halways.
  unfold intersectionCallback, handleIntersectionUpdate. simpl. by rewrite Hios.
Qed.

Lemma always_ready_notified entry rest s :
  always_ready s -> always_ready (deliver (IntersectionNotify (entry :: rest)) s).
Proof.
  intros Hready.
  exact (always_ready_run [Deliver (IntersectionNotify (entry :: rest))] s Hready).
Qed.

Lemma observe_ratio_ready ratio previous s :
  always_ready s ->
  agrees previous s ->
  let side := reaches (95 # 100) ratio in
  let result := observe_ratio ratio (previous, s) in
  result.1 = Some side /\
  always_ready result.2 /\
  agrees (Some side) result.2 /\
  log (host result.2) =
    reverse (if decide (previous = Some side) then []
             else [WStickyState (state_for side); WThemeColor]) ++ log (host s).
Proof.
  intros Hready Hagrees side result. subst result.
  pose proof Hready as (Hios & o & Ho & Halways & Hthreshold & Hobserving).
  unfold observe_ratio. cbn [fst snd]. rewrite Ho, Hthreshold. fold side.
  case_decide as Hprev; cbn [fst snd].
  - split_and!; [done..| |done]. intros ? [= <-]. by apply Hagrees.
  - rewrite always_ready_notify by done. simpl. fold side.
    split_and!; [done| |intros ? [= <-]|done].
    + rewrite <- (always_ready_notify (entry_at (95 # 100) ratio) []) by done.
      by apply always_ready_notified.
    + unfold stickyState. simpl. by rewrite lookup_insert_eq.
Qed.

Lemma observe_ratios_ready ratios previous s :
  always_ready s ->
  agrees previous s ->
  let result := observe_ratios ratios (previous, s) in
  always_ready result.2 /\
  agrees result.1 result.2 /\
  result.1 = from_option (fun r => Some (reaches (95 # 100) r)) previous (last ratios) /\
  log (host result.2) = reverse (expected_writes (95 # 100) previous ratios) ++ log (host s).
Proof.
  revert previous s. induction ratios as [|ratio rest IH]; intros previous s Hready Hagrees.
  - simpl. done.
  - destruct (observe_ratio_ready ratio previous s Hready Hagrees)
      as (Hside & Hready' & Hagrees' & Hlog).
    destruct (observe_ratio ratio (previous, s)) as [previous' s'] eqn:Hstep.
    simpl in Hside, Hready', Hagrees', Hlog. subst previous'.
    destruct (IH _ _ Hready' Hagrees') as (Hr & Ha & Hp & Hl).
    unfold observe_ratios in *. simpl foldl. rewrite Hstep.
    split_and!; [done..| |].
    + rewrite Hp. destruct rest as [|q rest']; [done|]. rewrite last_cons_cons.
      destruct (last (q :: rest')) eqn:Hlast; [done|]. by apply last_None in Hlast.
    + rewrite Hl, Hlog. simpl expected_writes.
      by rewrite reverse_app, app_assoc.
Qed.

Lemma flips_expected side ratios :
  flips (Some (state_for side)) (state_writes (expected_writes (95 # 100) (Some side) ratios))
    = crossings (95 # 100) side ratios.
Proof.
  revert side. induction ratios as [|ratio rest IH]; intros side; [done|].
  simpl. unfold state_writes in *. rewrite omap_app.
  destruct (decide (side = reaches (95 # 100) ratio)) as [->|Hne].
  - rewrite decide_True by done. simpl. apply IH.
  - rewrite decide_False by congruence. simpl. rewrite IH.
    rewrite decide_False; [done|]. intros [= Heq]. apply Hne.
    by destruct side, (reaches (95 # 100) ratio).
Qed.

Lemma reaches_false threshold ratio :
  reaches threshold ratio = false <-> (ratio < threshold)%Q.
Proof.
  unfold reaches. rewrite <- not_true_iff_false, Qle_bool_iff.
  split; [apply Qnot_le_lt | apply Qlt_not_le].
Qed.

Lemma reaches_true threshold ratio :
  reaches threshold ratio = true <-> (threshold <= ratio)%Q.
Proof. unfold reaches. apply Qle_bool_iff. Qed.

(** C4. On an attached [always] header off the iOS Safari path, every
    intersection update sets [data-sticky-state] to [inactive] when the
    entry is intersecting and to [active] when it is not; the observer was
    built with threshold 0.95, so over any sequence of visible ratios the
    state is [active] exactly when the last ratio seen is below 0.95, and
    the state changes exactly once per crossing of 0.95, never more. *)
Theorem always_mode_tracks_threshold
    (ua : string) (ms : bool) (markup : gmap string string) (drawer menu : gset string)
    (before : list action) (previous : option bool) (ratios : list Q) :
  let s := run before (attached ua ms markup drawer menu) in
  let result := observe_ratios ratios (previous, s) in
  markup !! "sticky" = Some "always" ->
  detect_iOSSafari ua ms = false ->
  agrees previous s ->
  (forall entry rest,
     stickyState (deliver (IntersectionNotify (entry :: rest)) s)
       = Some (if isIntersecting entry then "inactive" else "active")) /\
  (exists o, intersectionObserver (priv s) = Some o /\ io_threshold o = (95 # 100)%Q) /\
  (forall ratio, last ratios = Some ratio ->
     (stickyState result.2 = Some "active" <-> (ratio < 95 # 100)%Q) /\
     (stickyState result.2 = Some "inactive" <-> (95 # 100 <= ratio)%Q)) /\
  (forall side, previous = Some side ->
     flips (stickyState s)
       (state_writes (written_by (fun w => (observe_ratios ratios (previous, w)).2) s))
       = crossings (95 # 100) side ratios).
Proof.
  intros s result Hmode Hua Hagrees.
  assert (Hready : always_ready s) by (by apply always_ready_run, always_ready_attached).
  destruct (observe_ratios_ready ratios previous s Hready Hagrees) as (_ & Ha & Hp & Hl).
  fold result in Ha, Hp, Hl.
  split_and!.
  - intros entry rest. rewrite always_ready_notify by done.
    unfold stickyState. simpl. by rewrite lookup_insert_eq.
  - destruct Hready as (_ & o & Ho & _ & Hthreshold & _). by exists o.
  - intros ratio Hlast. rewrite Hlast in Hp. simpl in Hp.
    rewrite (Ha _ Hp). rewrite <- reaches_false, <- reaches_true.
    destruct (reaches (95 # 100) ratio); simpl; split; split; congruence.
  - intros side ->.
    rewrite (written_by_spec _ _ _ Hl), reverse_involutive, (Hagrees side eq_refl).
    apply flips_expected.
Qed.

Lemma always_mode_tracks_threshold_witness :
  let s := attached desktop_ua false always_markup ∅ ∅ in
  let ratios := [1%Q; (96 # 100)%Q; (94 # 100)%Q; (50 # 100)%Q; (97 # 100)%Q; (10 # 100)%Q] in
  stickyState (observe_ratios ratios (None, s)).2 = Some "active" <-> (10 # 100 < 95 # 100)%Q.
Proof.
  destruct (always_mode_tracks_threshold desktop_ua false always_markup ∅ ∅ [] None
              [1%Q; (96 # 100)%Q; (94 # 100)%Q; (50 # 100)%Q; (97 # 100)%Q; (10 # 100)%Q])
    as (_ & _ & Hlast & _);
    [reflexivity | reflexivity | intros side; discriminate |].
  apply (Hlast (10 # 100)%Q). reflexivity.
Defined.

(** ** The iOS Safari path of [always] mode *)

Lemma attached_isIOSSafari ua ms markup drawer menu :
  isIOSSafari (priv (attached ua ms markup drawer menu)) = detect_iOSSafari ua ms.
Proof.
  unfold attached, connectedCallback, observeStickyPosition. simpl. by repeat case_match.
Qed.

Lemma attached_always_scrollListener ua ms markup drawer menu :
  markup !! "sticky" = Some "always" ->
  scrollListener (page (attached ua ms markup drawer menu)) = true.
Proof.
  intros Hmode. unfold attached, connectedCallback, observeStickyPosition, getAttribute.
  simpl. rewrite Hmode. reflexivity.
Qed.

Lemma atTopWithThreshold_true top scrollTop :
  atTopWithThreshold top scrollTop = true <-> (-5 <= top)%Q /\ (scrollTop <= 5)%Q.
Proof.
  unfold atTopWithThreshold. by rewrite andb_true_iff, Qgeb_true, Qleb_true.
Qed.

(** C5, as stated, fails: the test is one-sided.  On iOS Safari the page
    can be dragged past its top; with the header's top 20px below the
    viewport top and a scroll offset of -20, neither within 5px, the
    frame callback computes [inactive] and writes it over [active]. *)
Lemma overscrolled_header_is_inactive :
  let s := run [Deliver (Scroll (Some 300%Q) (-300)%Q);
                Deliver (AnimationFrame (-300)%Q (Some 300%Q));
                Deliver (Scroll (Some (-20)%Q) 20%Q)]
               (attached iphone_safari_ua false always_markup ∅ ∅) in
  (5 < 20)%Q /\
  (-20 < -5)%Q /\
  stickyState s = Some "active" /\
  frames (host s) <> [] /\
  stickyState (deliver (AnimationFrame 20%Q (Some (-20)%Q)) s) = Some "inactive".
Proof. vm_compute. split_and!; done. Qed.

(** C5, amended. On an attached [always] header on the iOS Safari path:
    intersection updates change nothing; a scroll event does not write
    [data-sticky-state] itself but leaves exactly one animation frame
    requested; when that frame runs, the state computed from the geometry
    read then is written, followed by the theme colour update, only if it
    differs from the current state, and the frame handle is cleared.  The
    state computed is [inactive] exactly when the header's top is at
    least -5 and the scroll offset at most 5, the offset being 0 when
    there is no scrolling element, and [active] otherwise. *)
Theorem safari_state_follows_scroll
    (ua : string) (ms : bool) (markup : gmap string string) (drawer menu : gset string)
    (before : list action) :
  let s := run before (attached ua ms markup drawer menu) in
  markup !! "sticky" = Some "always" ->
  detect_iOSSafari ua ms = true ->
  (forall entries, deliver (IntersectionNotify entries) s = s) /\
  (forall st top,
     let s1 := deliver (Scroll st top) s in
     stickyState s1 = stickyState s /\
     state_writes (written_by (deliver (Scroll st top)) s) = [] /\
     exists id, frames (host s1) = [id] /\ safariIntersectionTimeout (priv s1) = Some id) /\
  (forall top st, frames (host s) <> [] ->
     let s2 := deliver (AnimationFrame top st) s in
     stickyState s2 = Some (computed_state top st) /\
     frames (host s2) = [] /\
     safariIntersectionTimeout (priv s2) = None /\
     written_by (deliver (AnimationFrame top st)) s =
       if decide (stickyState s = Some (computed_state top st)) then []
       else [WStickyState (computed_state top st); WThemeColor]) /\
  (forall top scrollTop : Q,
     (computed_state top (Some scrollTop) = "inactive" <->
      (-5 <= top)%Q /\ (scrollTop <= 5)%Q) /\
     (computed_state top (Some scrollTop) = "active" <->
      (top < -5)%Q \/ (5 < scrollTop)%Q)) /\
  (forall top : Q,
     (computed_state top None = "inactive" <-> (-5 <= top)%Q) /\
     (computed_state top None = "active" <-> (top < -5)%Q)).
Proof.
  intros s Hmarkup Hua.
  assert (Hinv : inv s) by apply inv_reached.
  assert (Hmode : getAttribute "sticky" s = Some "always").
  { subst s. by rewrite sticky_run, attached_sticky. }
  assert (Hm : attr_is (getAttribute "sticky" s) "always" = true) by (by apply attr_is_true).
  destruct (registrations_run before (attached ua ms markup drawer menu))
    as (Hobs & Hios & _ & Hlisten & _). fold s in Hobs, Hios, Hlisten.
  rewrite attached_isIOSSafari, Hua in Hios.
  rewrite attached_always_scrollListener in Hlisten by done.
  destruct Hinv as (Hagree & _ & Hframe).
  assert (Hcomputed : forall top offset : Q,
    ((if atTopWithThreshold top offset then "inactive" else "active") = "inactive" <->
     (-5 <= top)%Q /\ (offset <= 5)%Q) /\
    ((if atTopWithThreshold top offset then "inactive" else "active") = "active" <->
     (top < -5)%Q \/ (5 < offset)%Q)).
  { intros top offset.
    pose proof (atTopWithThreshold_true top offset) as Htest.
    destruct (atTopWithThreshold top offset).
    - destruct (proj1 Htest eq_refl) as [Ht Ho]. split; split; try done.
      intros [Hlt|Hlt]; [by apply Qlt_not_le in Hlt|by apply Qlt_not_le in Hlt].
    - split; split; try done.
      + intros Hboth. apply Htest in Hboth. discriminate.
      + intros _. destruct (Qlt_le_dec top (-5)) as [?|Ht]; [by left|].
        destruct (Qlt_le_dec 5 offset) as [?|Ho]; [by right|].
        assert (false = true) by (by apply Htest). discriminate. }
  split_and!.
  - intros entries. unfold deliver.
    destruct (intersectionObserver (priv s)) as [o|] eqn:Ho; [|done].
    destruct (Hagree o Ho) as [Halways _]. rewrite Hm in Halways.
    rewrite Halways. unfold intersectionCallback, handleIntersectionUpdate.
    rewrite Hios. by repeat case_match.
  - intros st top s1. subst s1. unfold deliver. rewrite Hlisten.
    rewrite scroll_always by done. split_and!.
    + unfold stickyState. simpl. autorewrite with world. by attr_simpl.
    + erewrite written_by_spec.
      2: { rewrite Hlisten, scroll_always by done. simpl. autorewrite with world.
           by instantiate (1 := [_]). }
      done.
    + simpl. unfold request_frame_if_safari. autorewrite with world. rewrite Hios.
      destruct Hframe as [[Hf Hnone]|(id & Hf & Hid & _)].
      * rewrite Hnone. exists (nextHandle (host s)). simpl. autorewrite with world.
        by rewrite Hf.
      * rewrite Hid. exists id. by autorewrite with world.
  - intros top st Hpending s2. subst s2.
    destruct Hframe as [[Hf _]|(id & Hf & Hid & _)]; [done|].
    assert (Hrun : deliver (AnimationFrame top st) s
                   = frame_callback top st (set_frames [] s))
      by (unfold deliver; by rewrite Hf).
    unfold written_by. rewrite Hrun. clear Hrun.
    unfold frame_callback. fold (computed_state top st).
    change (stickyState (set_safariIntersectionTimeout None (set_frames [] s)))
      with (stickyState s).
    destruct (attr_is (stickyState s) (computed_state top st)) eqn:Hsame; simpl.
    + apply attr_is_true in Hsame. rewrite decide_True by done.
      split_and!; [done..|]. by rewrite Nat.sub_diag.
    + apply attr_is_false in Hsame. rewrite decide_False by done.
      unfold stickyState. simpl. attr_simpl.
      split_and!; [done..|].
      replace (S (S (length (log (host s)))) - length (log (host s))) with 2 by lia.
      done.
  - intros top scrollTop. apply (Hcomputed top scrollTop).
  - intros top. destruct (Hcomputed top 0%Q) as [Hin Hact].
    split; [rewrite (Hin : computed_state top None = "inactive" <-> _)|
            rewrite (Hact : computed_state top None = "active" <-> _)].
    + split; [by intros [? _]|]. intros ?. split; [done|discriminate].
    + split; [|by left]. intros [?|Hlt]; [done|]. by vm_compute in Hlt.
Qed.

Lemma safari_state_follows_scroll_witness :
  let s := run [Deliver (Scroll (Some 100%Q) 0%Q)]
               (attached iphone_safari_ua false always_markup ∅ ∅) in
  stickyState (deliver (AnimationFrame 0%Q (Some 100%Q)) s) = Some "active" /\
  stickyState (deliver (AnimationFrame 0%Q (Some 5%Q)) s) = Some "inactive" /\
  stickyState (deliver (AnimationFrame (-10)%Q (Some 0%Q)) s) = Some "active".
Proof.
  destruct (safari_state_follows_scroll iphone_safari_ua false always_markup ∅ ∅
              [Deliver (Scroll (Some 100%Q) 0%Q)])
    as (_ & _ & Hframe & _); [reflexivity | reflexivity |].
  split_and!.
  - apply (Hframe 0%Q (Some 100%Q)). vm_compute. discriminate.
  - apply (Hframe 0%Q (Some 5%Q)). vm_compute. discriminate.
  - apply (Hframe (-10)%Q (Some 0%Q)). vm_compute. discriminate.
Defined.

(** ** Who reads the [sticky] attribute *)

Ltac unfold_setters :=
  unfold set_menuDrawerHiddenWidth, set_intersectionObserver, set_offscreen,
    set_lastScrollTop, set_timeout, set_isIOSSafari, set_safariIntersectionTimeout,
    set_resizeObserving, set_attrs, set_drawerClasses, set_menuClasses, set_bodyStyle,
    set_overflowListener, set_scrollListener, set_now, set_timers, set_frames,
    set_nextHandle, emit in *.

Ltac attrs_eq :=
  apply map_eq; intros ?k;
  repeat first [rewrite lookup_insert | rewrite lookup_delete];
  repeat case_decide; simplify_eq; done.

Ltac world_eq :=
  unfold_setters; simpl; try done; f_equal; try done; f_equal; try done; attrs_eq.

(** C6, as stated, fails: the scroll handler reads the attribute at every
    event.  The same scroll event on the same attached [always] header
    records the direction [down], but records nothing if a script has
    changed [sticky] to [scroll-up] after the attach. *)
Lemma scroll_handler_rereads_sticky :
  scrollDirection (run [Deliver (Scroll (Some 100%Q) (-10)%Q)] always_attached)
    = Some "down" /\
  scrollDirection
    (run [Deliver (Scroll (Some 100%Q) (-10)%Q)] (set_sticky (Some "scroll-up") always_attached))
    = None.
Proof. vm_compute. split; reflexivity. Qed.

Lemma set_sticky_frame_callback v top st s :
  frame_callback top st (set_sticky v s) = set_sticky v (frame_callback top st s).
Proof.
  unfold frame_callback, set_sticky. open_handlers. unfold stickyState.
  destruct v; simpl; attr_simpl; repeat case_match; simpl; try done.
  all: world_eq.
Qed.

Lemma set_sticky_frames v top st pending s :
  foldl (fun s _ => frame_callback top st s) (set_sticky v s) pending
    = set_sticky v (foldl (fun s (_ : positive) => frame_callback top st s) s pending).
Proof.
  revert s. induction pending as [|f pending IH]; intros s; [done|].
  simpl. by rewrite set_sticky_frame_callback, IH.
Qed.

Lemma set_sticky_deliver v e s :
  is_scroll (Deliver e) = false ->
  deliver e (set_sticky v s) = set_sticky v (deliver e s).
Proof.
  intros Hns. destruct e; try discriminate.
  5: { unfold deliver.
       replace (frames (host (set_sticky v s))) with (frames (host s))
         by (by destruct v).
       replace (set_frames [] (set_sticky v s)) with (set_sticky v (set_frames [] s))
         by (by destruct v).
       apply set_sticky_frames. }
  all: unfold set_sticky; open_handlers; unfold due_of, stickyState.
  all: destruct v; simpl; attr_simpl; repeat case_match; simpl; try done.
  all: world_eq.
Qed.

Lemma set_sticky_act v a s :
  is_scroll a = false ->
  act a (set_sticky v s) = set_sticky v (act a s).
Proof.
  destruct a as [e|ms]; [apply set_sticky_deliver|].
  intros _. by destruct v.
Qed.

(** C6, amended. The [sticky] attribute is read when the element is
    attached, which fixes the observer and the scroll listener once, and
    again by the scroll handler at every scroll event.  No other handler
    reads it: over deliveries other than scroll events, two runs that
    differ only in a change made to the attribute after the attach go
    through the same states, writes included, up to the attribute's own
    value. *)
Theorem sticky_read_by_scroll_handler_only
    (v : option string) (s : World) (acts : list action) :
  Forall (fun a => is_scroll a = false) acts ->
  run acts (set_sticky v s) = set_sticky v (run acts s) /\
  log (host (run acts (set_sticky v s))) = log (host (run acts s)) /\
  intersectionObserver (priv (run acts (set_sticky v s))) = intersectionObserver (priv s) /\
  scrollListener (page (run acts (set_sticky v s))) = scrollListener (page s).
Proof.
  intros Hacts.
  assert (Hrun : run acts (set_sticky v s) = set_sticky v (run acts s)).
  { revert s. induction Hacts as [|a acts Ha _ IH]; intros s; [done|].
    by rewrite !run_cons, set_sticky_act, IH. }
  rewrite Hrun.
  destruct (registrations_run acts s) as (Hobs & _ & _ & Hlisten & _).
  split_and!; [done | by destruct v | by destruct v | by destruct v].
Qed.

Lemma sticky_read_by_scroll_handler_only_witness :
  let acts := [Deliver (IntersectionNotify [entry_of false]); Tick 20;
               Deliver (ResizeNotify [64%Q] 1024)] in
  run acts (set_sticky (Some "scroll-up") always_attached)
    = set_sticky (Some "scroll-up") (run acts always_attached).
Proof.
  apply (sticky_read_by_scroll_handler_only (Some "scroll-up") always_attached).
  repeat constructor.
Defined.

(** ** Detaching *)

Lemma filter_other_frame (id : positive) :
  filter (fun f : positive => f ≠ id) [id] = [].
Proof. rewrite filter_cons. by rewrite decide_False by auto. Qed.

Ltac pending_open Htimers Hframes :=
  unfold pending_ok in *;
  (destruct Htimers as [Htimers|(?id & ?due & Htimers & ?Hid)]);
  (destruct Hframes as [Hframes|(?fid & Hframes & ?Hfid)]).

Ltac pending_close :=
  split;
  [ first [ by left | right; by eexists _, _ ]
  | first [ by left | right; by eexists _ ] ].

Ltac pending_crunch Htimers Hframes :=
  repeat case_match; simpl in *;
  rewrite ?Htimers, ?Hframes, ?filter_other_id in *; simplify_eq; simpl in *;
  rewrite ?filter_other_id, ?filter_other_frame;
  try pending_close.

Lemma pending_scroll st top s : pending_ok s -> pending_ok (handleWindowScroll st top s).
Proof.
  intros (Htimers & Hframes). pending_open Htimers Hframes.
  all: unfold handleWindowScroll; open_handlers.
  all: pending_crunch Htimers Hframes.
Qed.

Lemma pending_deliver e s : pending_ok s -> pending_ok (deliver e s).
Proof.
  destruct e.
  - intros (Htimers & Hframes). pending_open Htimers Hframes.
    all: open_handlers; pending_crunch Htimers Hframes.
  - intros (Htimers & Hframes). pending_open Htimers Hframes.
    all: open_handlers; pending_crunch Htimers Hframes.
  - intros (Htimers & Hframes). pending_open Htimers Hframes.
    all: open_handlers; pending_crunch Htimers Hframes.
  - intros Hok. unfold deliver. case_match; [by apply pending_scroll | done].
  - intros (Htimers & Hframes). pending_open Htimers Hframes.
    all: unfold deliver; rewrite Htimers, ?due_of_single; simpl.
    all: try pending_close.
    all: case_decide; [|pending_close].
    all: case_match; [|pending_close].
    all: subst; open_handlers; simpl; rewrite Htimers, filter_other_id.
    all: pending_crunch Htimers Hframes.
  - intros (Htimers & Hframes). pending_open Htimers Hframes.
    all: unfold deliver; rewrite Hframes; simpl.
    all: open_handlers; pending_crunch Htimers Hframes.
Qed.

Lemma pending_connected ua ms s : pending_ok s -> pending_ok (connectedCallback ua ms s).
Proof.
  intros (Htimers & Hframes). pending_open Htimers Hframes.
  all: unfold connectedCallback, observeStickyPosition.
  all: pending_crunch Htimers Hframes.
Qed.

Lemma pending_disconnected s : pending_ok s -> pending_ok (disconnectedCallback s).
Proof.
  intros (Htimers & Hframes). pending_open Htimers Hframes.
  all: unfold disconnectedCallback, disconnect_intersectionObserver; open_handlers.
  all: pending_crunch Htimers Hframes.
Qed.

Lemma pending_reachable s : reachable s -> pending_ok s.
Proof.
  induction 1 as [ua ms markup drawer menu|a s _ IH|v s _ IH|s _ IH|ua ms s _ IH].
  - apply pending_connected. split; by left.
  - destruct a as [e|t]; [by apply pending_deliver | done].
  - by destruct v.
  - by apply pending_disconnected.
  - by apply pending_connected.
Qed.

(** What [disconnectedCallback] leaves behind. *)
Lemma disconnected_fields s :
  pending_ok s ->
  let d := disconnectedCallback s in
  bodyStyle (page d) !! "--header-height" = Some (Px 0) /\
  resizeObserving (priv d) = false /\
  (forall o, intersectionObserver (priv d) = Some o -> io_observing o = false) /\
  scrollListener (page d) = false /\
  overflowListener (page d) = false /\
  timeout (priv d) = None /\
  safariIntersectionTimeout (priv d) = None /\
  timers (host d) = [] /\
  frames (host d) = [].
Proof.
  intros (Htimers & Hframes). pending_open Htimers Hframes.
  all: unfold disconnectedCallback, disconnect_intersectionObserver; open_handlers.
  all: repeat case_match; simpl in *.
  all: rewrite ?Htimers, ?Hframes, ?filter_other_id in *; simplify_eq; simpl in *.
  all: rewrite ?filter_other_id, ?filter_other_frame, ?lookup_insert_eq.
  all: split_and!; try done.
  all: intros ? ?; by simplify_eq.
Qed.

(** With nothing registered and nothing pending, no delivery has any
    effect. *)
Lemma inert_deliver e d :
  resizeObserving (priv d) = false ->
  (forall o, intersectionObserver (priv d) = Some o -> io_observing o = false) ->
  scrollListener (page d) = false ->
  overflowListener (page d) = false ->
  timers (host d) = [] ->
  frames (host d) = [] ->
  deliver e d = d.
Proof.
  intros Hresize Hobs Hscroll Hoverflow Htimers Hframes.
  destruct e; unfold deliver.
  - by rewrite Hresize.
  - destruct (intersectionObserver (priv d)) as [o|]; [|done]. by rewrite (Hobs o eq_refl).
  - by rewrite Hoverflow.
  - by rewrite Hscroll.
  - by rewrite Htimers.
  - rewrite Hframes. simpl. unfold set_frames. rewrite <- Hframes.
    by destruct d as [p pg []].
Qed.

(** C9. After [disconnectedCallback], from any state the component can
    reach: the published [--header-height] is [0px]; the resize observer
    and the intersection observer are disconnected; the scroll and
    [overflowMinimum] listeners are removed; both handle fields are null
    and no timeout or animation frame is left pending; and no delivery of
    any event afterwards changes anything. *)
Theorem detached_is_inert (s : World) (events : list event) :
  reachable s ->
  let d := disconnectedCallback s in
  bodyStyle (page d) !! "--header-height" = Some (Px 0) /\
  resizeObserving (priv d) = false /\
  (forall o, intersectionObserver (priv d) = Some o -> io_observing o = false) /\
  scrollListener (page d) = false /\
  overflowListener (page d) = false /\
  timeout (priv d) = None /\
  safariIntersectionTimeout (priv d) = None /\
  timers (host d) = [] /\
  frames (host d) = [] /\
  deliver_all events d = d.
Proof.
  intros Hreach d.
  destruct (disconnected_fields s (pending_reachable s Hreach))
    as (Hheight & Hresize & Hobs & Hscroll & Hoverflow & Htimeout & Hframe & Htimers & Hframes).
  fold d in Hheight, Hresize, Hobs, Hscroll, Hoverflow, Htimeout, Hframe, Htimers, Hframes.
  split_and!; try done.
  induction events as [|e events IH]; [done|].
  unfold deliver_all in *. simpl. by rewrite inert_deliver.
Qed.

Lemma reachable_run acts s : reachable s -> reachable (run acts s).
Proof.
  revert s. induction acts as [|a acts IH]; intros s Hs; [done|].
  rewrite run_cons. by apply IH, reach_act.
Qed.

Lemma detached_is_inert_witness :
  timers (host mid_hide) <> [] /\
  bodyStyle (page (disconnectedCallback mid_hide)) !! "--header-height" = Some (Px 0) /\
  deliver_all [TimeoutFire 1; Scroll (Some 0%Q) 0%Q; IntersectionNotify [entry_of true];
               ResizeNotify [64%Q] 1024; OverflowMinimum true 640; AnimationFrame 0%Q None]
    (disconnectedCallback mid_hide)
    = disconnectedCallback mid_hide.
Proof.
  assert (Hreach : reachable mid_hide) by apply reachable_run, reach_attached.
  destruct (detached_is_inert mid_hide
              [TimeoutFire 1; Scroll (Some 0%Q) 0%Q; IntersectionNotify [entry_of true];
               ResizeNotify [64%Q] 1024; OverflowMinimum true 640; AnimationFrame 0%Q None]
              Hreach)
    as (Hheight & _ & _ & _ & _ & _ & _ & _ & _ & Hinert).
  split_and!; [by vm_compute | exact Hheight | exact Hinert].
Defined.

(** * More of the header component *)

(** ** The enumerations of the output attributes *)

Lemma in_range_frame_callback top st s :
  log_ext write_in_range s (frame_callback top st s).
Proof.
  open_handlers. case_match; simpl;
    log_ext_path ltac:(simpl; repeat case_match; auto).
Qed.

Lemma in_range_deliver e s : log_ext write_in_range s (deliver e s).
Proof.
  destruct e.
  6: { simpl. apply (frames_fold_ind (log_ext write_in_range s)).
       - by apply log_ext_same.
       - intros s' Hs'. eapply log_ext_trans; [exact Hs'|]. apply in_range_frame_callback. }
  all: open_handlers; repeat case_match; simpl;
    log_ext_path ltac:(simpl; repeat case_match; auto).
Qed.

Lemma in_range_run acts s : log_ext write_in_range s (run acts s).
Proof.
  revert s. induction acts as [|a acts IH]; intros s.
  - apply log_ext_refl.
  - rewrite run_cons. eapply log_ext_trans; [|apply IH].
    destruct a; [apply in_range_deliver | by apply log_ext_same].
Qed.

Lemma other_attrs_frame_callback k top st s :
  ~ output_attribute k ->
  attrs (page (frame_callback top st s)) !! k = attrs (page s) !! k.
Proof.
  intros Hk. unfold output_attribute in Hk. open_handlers.
  case_match; simpl; [|done].
  rewrite lookup_insert_ne; [done|]. intros <-. tauto.
Qed.

Lemma other_attrs_deliver k e s :
  ~ output_attribute k ->
  attrs (page (deliver e s)) !! k = attrs (page s) !! k.
Proof.
  intros Hk. destruct e.
  6: { simpl. apply (frames_fold_ind (fun s' => attrs (page s') !! k = attrs (page s) !! k));
         [done|].
       intros s' <-. by apply other_attrs_frame_callback. }
  all: unfold output_attribute in Hk; open_handlers; repeat case_match; simpl; try done.
  all: repeat first
         [ rewrite lookup_insert_ne by (intros <-; tauto)
         | rewrite lookup_delete_ne by (intros <-; tauto) ]; done.
Qed.

Lemma other_attrs_run k acts s :
  ~ output_attribute k ->
  attrs (page (run acts s)) !! k = attrs (page s) !! k.
Proof.
  intros Hk. revert s. induction acts as [|a acts IH]; intros s; [done|].
  rewrite run_cons, IH. destruct a; [by apply other_attrs_deliver | done].
Qed.

(** X1. Whatever is delivered, from any state: every value written to
    [data-sticky-state] is [inactive], [active] or [idle], every value
    written to [data-scroll-direction] is [none], [up] or [down], the only
    attribute set or removed is the empty flag [data-animating], and every
    other attribute of the element keeps its value. *)
Theorem outputs_stay_in_range (s : World) (acts : list action) (k : string) :
  ~ output_attribute k ->
  Forall write_in_range (written_by (run acts) s) /\
  attrs (page (run acts s)) !! k = attrs (page s) !! k.
Proof.
  intros Hk. split.
  - apply log_ext_written_by, in_range_run.
  - by apply other_attrs_run.
Qed.

Lemma outputs_stay_in_range_witness :
  Forall write_in_range
    (written_by (run down_then_up) (attached desktop_ua false scroll_up_markup ∅ ∅)) /\
  attrs (page (run down_then_up (attached desktop_ua false scroll_up_markup ∅ ∅))) !! "sticky"
    = attrs (page (attached desktop_ua false scroll_up_markup ∅ ∅)) !! "sticky".
Proof.
  apply (outputs_stay_in_range (attached desktop_ua false scroll_up_markup ∅ ∅)
           down_then_up "sticky").
  unfold output_attribute. intros [H|[H|H]]; discriminate.
Defined.

(** ** Pending work *)

(** X2. In every state the component can reach, at most one hide timeout
    and at most one animation frame request are pending, and each one is
    the one whose handle the component holds in [#timeout], respectively
    [#safariIntersectionTimeout]. *)
Theorem at_most_one_pending (s : World) :
  reachable s ->
  length (timers (host s)) <= 1 /\
  length (frames (host s)) <= 1 /\
  (forall t, t ∈ timers (host s) -> timeout (priv s) = Some t.1) /\
  (forall f, f ∈ frames (host s) -> safariIntersectionTimeout (priv s) = Some f).
Proof.
  intros Hreach. destruct (pending_reachable s Hreach) as [Ht Hf].
  destruct Ht as [Ht|(id & due & Ht & Hid)]; destruct Hf as [Hf|(fid & Hf & Hfid)];
    rewrite Ht, Hf; simpl; split_and!; try lia.
  all: intros x Hx; try (by apply elem_of_nil in Hx).
  all: apply list_elem_of_singleton in Hx; by subst.
Qed.

Lemma at_most_one_pending_witness :
  timers (host mid_hide) = [(1%positive, 150%N)] /\
  length (timers (host mid_hide)) <= 1 /\
  timeout (priv mid_hide) = Some 1%positive.
Proof.
  assert (Hreach : reachable mid_hide) by apply reachable_run, reach_attached.
  destruct (at_most_one_pending mid_hide Hreach) as (Hlen & _ & Hheld & _).
  assert (Ht : timers (host mid_hide) = [(1%positive, 150%N)]) by (by vm_compute).
  split_and!; [exact Ht | exact Hlen |].
  apply (Hheld (1%positive, 150%N)). rewrite Ht. apply list_elem_of_singleton. reflexivity.
Defined.

(** ** The scroll offset the handler remembers *)

(** X3. A scroll event that passes the handler's first test (header
    offscreen, or [always] mode) always ends by recording the offset it
    read, so that the same offset read again is not an upward scroll; an
    event that does not pass the test changes nothing at all, the recorded
    offset included. *)
Theorem handled_scroll_records_offset (s : World) (st : option Q) (top : Q) :
  scrollListener (page s) = true ->
  let s' := deliver (Scroll st top) s in
  (offscreen (priv s) = true \/ getAttribute "sticky" s = Some "always" ->
     lastScrollTop (priv s') = scrollTop_or_0 st /\
     Qltb (scrollTop_or_0 st) (lastScrollTop (priv s')) = false) /\
  (offscreen (priv s) = false /\ getAttribute "sticky" s <> Some "always" -> s' = s).
Proof.
  intros Hlisten s'. subst s'. unfold deliver. rewrite Hlisten. split.
  - intros Hhandled.
    assert (Hlast : lastScrollTop (priv (handleWindowScroll st top s)) = scrollTop_or_0 st).
    { destruct (decide (getAttribute "sticky" s = Some "always")) as [Hal|Hnal].
      - by rewrite scroll_always.
      - destruct Hhandled as [Hoff|?]; [|done].
        destruct (Qltb (scrollTop_or_0 st) (lastScrollTop (priv s))) eqn:Hup.
        + destruct (Qgeb top 0) eqn:Htop.
          * by rewrite scroll_up_at_top.
          * by rewrite scroll_up_above.
        + destruct (decide (stickyState s = Some "active")) as [Hact|Hact].
          * by rewrite scroll_down_active.
          * by rewrite scroll_down_not_active. }
    split; [done|]. rewrite Hlast.
    apply not_true_iff_false. rewrite Qltb_true. apply Qlt_irrefl.
  - intros [Hoff Hmode]. by apply scroll_gated.
Qed.

Lemma handled_scroll_records_offset_witness :
  lastScrollTop (priv (deliver (Scroll (Some 700%Q) (-100)%Q) offscreen_at_rest)) = 700%Q /\
  deliver (Scroll (Some 100%Q) 0%Q) idle_in_view = idle_in_view.
Proof.
  split.
  - apply (handled_scroll_records_offset offscreen_at_rest (Some 700%Q) (-100)%Q);
      [reflexivity | left; reflexivity].
  - apply (handled_scroll_records_offset idle_in_view (Some 100%Q) 0%Q);
      [reflexivity | split; [reflexivity | vm_compute; discriminate]].
Defined.

(** X4. A handled scroll event that repeats the offset of the event
    before it counts as a downward scroll: on a [scroll-up] header that an
    upward scroll has just shown ([active], direction [up]), it records
    the direction [none], sets [data-animating] and starts the hide
    timeout, with the state still [active]. *)
Theorem repeated_offset_starts_hide (s : World) (st : option Q) (top1 top2 : Q) :
  getAttribute "sticky" s = Some "scroll-up" ->
  scrollListener (page s) = true ->
  offscreen (priv s) = true ->
  (scrollTop_or_0 st < lastScrollTop (priv s))%Q ->
  (top1 < 0)%Q ->
  let s1 := deliver (Scroll st top1) s in
  let s2 := deliver (Scroll st top2) s1 in
  (stickyState s1 = Some "active" /\ scrollDirection s1 = Some "up" /\ animating s1 = false) /\
  (stickyState s2 = Some "active" /\ scrollDirection s2 = Some "none" /\ animating s2 = true /\
   exists id, timeout (priv s2) = Some id /\
              (id, (now (host s) + 150)%N) ∈ timers (host s2)).
Proof.
  intros Hmode Hlisten Hoff Hup Htop s1 s2.
  assert (Hnot : getAttribute "sticky" s <> Some "always") by (rewrite Hmode; discriminate).
  assert (Hup' : Qltb (scrollTop_or_0 st) (lastScrollTop (priv s)) = true)
    by (by apply Qltb_true).
  assert (Habove : Qgeb top1 0 = false).
  { apply not_true_iff_false. rewrite Qgeb_true. by apply Qlt_not_le. }
  assert (Hs1 : s1 = set_lastScrollTop (scrollTop_or_0 st)
                  (write_scrollDirection "up"
                    (write_stickyState "active"
                      (removeAttribute "data-animating" (cancel_hide_timeout s))))).
  { subst s1. unfold deliver. rewrite Hlisten. by apply scroll_up_above. }
  assert (Hfacts1 : stickyState s1 = Some "active" /\ scrollDirection s1 = Some "up" /\
                    animating s1 = false /\ getAttribute "sticky" s1 = Some "scroll-up" /\
                    scrollListener (page s1) = true /\ offscreen (priv s1) = true /\
                    lastScrollTop (priv s1) = scrollTop_or_0 st /\
                    now (host s1) = now (host s) /\ timeout (priv s1) = None).
  { rewrite Hs1. unfold stickyState, scrollDirection, animating, getAttribute in *.
    simpl. autorewrite with world. attr_simpl. done. }
  destruct Hfacts1 as (Hst1 & Hdir1 & Han1 & Hmode1 & Hlisten1 & Hoff1 & Hlast1 & Hnow1 & Hto1).
  split; [done|].
  assert (Hnot1 : getAttribute "sticky" s1 <> Some "always") by (rewrite Hmode1; discriminate).
  assert (Hdown : Qltb (scrollTop_or_0 st) (lastScrollTop (priv s1)) = false).
  { rewrite Hlast1. apply not_true_iff_false. rewrite Qltb_true. apply Qlt_irrefl. }
  assert (Hs2 : s2 = handleWindowScroll st top2 s1)
    by (subst s2; unfold deliver; by rewrite Hlisten1).
  rewrite Hs2, scroll_down_active by done.
  unfold stickyState, scrollDirection, animating in *. simpl.
  autorewrite with world. attr_simpl.
  split_and!; [done..|].
  exists (nextHandle (host s1)). split; [done|].
  unfold cancel_hide_timeout. rewrite Hto1, Hnow1.
  apply elem_of_app. right. by apply list_elem_of_singleton.
Qed.

Lemma repeated_offset_starts_hide_witness :
  let s1 := deliver (Scroll (Some 300%Q) (-100)%Q)
              (deliver (Scroll (Some 500%Q) (-100)%Q) offscreen_at_rest) in
  let s2 := deliver (Scroll (Some 300%Q) (-100)%Q) s1 in
  stickyState s2 = Some "active" /\ scrollDirection s2 = Some "none" /\ animating s2 = true.
Proof.
  destruct (repeated_offset_starts_hide
              (deliver (Scroll (Some 500%Q) (-100)%Q) offscreen_at_rest)
              (Some 300%Q) (-100)%Q (-100)%Q)
    as (_ & Hst & Hdir & Han & _);
    [reflexivity | reflexivity | reflexivity | reflexivity | reflexivity |].
  split_and!; [exact Hst | exact Hdir | exact Han].
Defined.

(** ** Detaching and attaching again *)

Lemma connected_keeps_observer ua ms s o :
  intersectionObserver (priv s) = Some o ->
  intersectionObserver (priv (connectedCallback ua ms s)) = Some o.
Proof.
  intros Ho. unfold connectedCallback, observeStickyPosition. simpl. rewrite Ho.
  by repeat case_match.
Qed.

Lemma disconnected_observer_spec s o :
  intersectionObserver (priv s) = Some o ->
  intersectionObserver (priv (disconnectedCallback s)) = Some (disconnected_observer o).
Proof.
  intros Ho. unfold disconnectedCallback, disconnect_intersectionObserver. simpl.
  rewrite Ho. open_handlers. by repeat case_match.
Qed.

Lemma connected_registrations ua ms s :
  resizeObserving (priv (connectedCallback ua ms s)) = true /\
  overflowListener (page (connectedCallback ua ms s)) = true /\
  isIOSSafari (priv (connectedCallback ua ms s)) = detect_iOSSafari ua ms.
Proof. unfold connectedCallback, observeStickyPosition. by repeat case_match. Qed.

(** X5. Once an intersection observer exists, detaching the element and
    attaching it again does not observe again: [disconnectedCallback]
    disconnects the observer but keeps it in [#intersectionObserver], and
    [#observeStickyPosition] returns at once when that field is set.  The
    observer keeps its first mode and threshold, the resize observer and
    the [overflowMinimum] listener are registered again, and from then on
    every intersection notification is dropped. *)
Theorem reattach_does_not_observe_again
    (s : World) (o : IntersectionObserver) (ua : string) (ms : bool)
    (acts : list action) (entries : list IntersectionObserverEntry) :
  intersectionObserver (priv s) = Some o ->
  let s' := connectedCallback ua ms (disconnectedCallback s) in
  intersectionObserver (priv s') = Some (disconnected_observer o) /\
  resizeObserving (priv s') = true /\
  overflowListener (page s') = true /\
  deliver (IntersectionNotify entries) (run acts s') = run acts s'.
Proof.
  intros Ho s'.
  assert (Ho' : intersectionObserver (priv s') = Some (disconnected_observer o)).
  { subst s'. by apply connected_keeps_observer, disconnected_observer_spec. }
  destruct (connected_registrations ua ms (disconnectedCallback s)) as (Hr & Hl & _).
  split_and!; [done..|].
  unfold deliver. destruct (registrations_run acts s') as (-> & _). by rewrite Ho'.
Qed.

Lemma reattach_does_not_observe_again_witness :
  deliver (IntersectionNotify [entry_of false])
    (run [Deliver (Scroll (Some 900%Q) (-100)%Q); Tick 10] reattached_mid_hide)
  = run [Deliver (Scroll (Some 900%Q) (-100)%Q); Tick 10] reattached_mid_hide.
Proof.
  assert (Ho : intersectionObserver (priv mid_hide)
               = Some {| io_alwaysSticky := false; io_threshold := 0%Q; io_observing := true |})
    by reflexivity.
  apply (reattach_does_not_observe_again mid_hide _ desktop_ua false
           [Deliver (Scroll (Some 900%Q) (-100)%Q); Tick 10] [entry_of false] Ho).
Defined.

Lemma dormant_act a s :
  dormant s -> dormant (act a s) /\ attrs (page (act a s)) = attrs (page s).
Proof.
  intros (Hobs & Hoff & Hmode & Ht & Hf).
  assert (Hsame : act a s = s \/
                  (intersectionObserver (priv (act a s)) = intersectionObserver (priv s) /\
                   offscreen (priv (act a s)) = offscreen (priv s) /\
                   attrs (page (act a s)) = attrs (page s) /\
                   timers (host (act a s)) = timers (host s) /\
                   frames (host (act a s)) = frames (host s))).
  { destruct a as [[entries iw|entries|reached iw|st top|id|top st]|ms].
    - right. open_handlers. by repeat case_match.
    - left. unfold act, deliver.
      destruct (intersectionObserver (priv s)) as [o|] eqn:Ho; [|done].
      by rewrite (Hobs o eq_refl).
    - right. open_handlers. by repeat case_match.
    - left. unfold act, deliver. case_match; [|done]. by apply scroll_gated.
    - left. unfold act, deliver, due_of. by rewrite Ht.
    - right. unfold act, deliver. by rewrite Hf.
    - right. done. }
  destruct Hsame as [->|(Ho & Hoff' & Ha & Ht' & Hf')]; [done|].
  unfold dormant, getAttribute. rewrite Ho, Hoff', Ha, Ht', Hf'. done.
Qed.

Lemma dormant_run acts s :
  dormant s -> dormant (run acts s) /\ attrs (page (run acts s)) = attrs (page s).
Proof.
  revert s. induction acts as [|a acts IH]; intros s Hs; [done|].
  rewrite run_cons. destruct (dormant_act a s Hs) as [Hd Ha].
  destruct (IH _ Hd) as [Hd' Ha']. split; [done|]. by rewrite Ha'.
Qed.

Lemma connected_keeps_pending ua ms s :
  offscreen (priv (connectedCallback ua ms s)) = offscreen (priv s) /\
  attrs (page (connectedCallback ua ms s)) = attrs (page s) /\
  timers (host (connectedCallback ua ms s)) = timers (host s) /\
  frames (host (connectedCallback ua ms s)) = frames (host s).
Proof. unfold connectedCallback, observeStickyPosition. by repeat case_match. Qed.

Lemma disconnected_keeps_offscreen s :
  offscreen (priv (disconnectedCallback s)) = offscreen (priv s) /\
  attrs (page (disconnectedCallback s)) = attrs (page s).
Proof.
  unfold disconnectedCallback, disconnect_intersectionObserver. open_handlers.
  by repeat case_match.
Qed.

(** X6. A [scroll-up] header that had an observer and is detached and
    attached again while [#offscreen] is false stays as it is for good:
    no delivery changes any of its attributes, [data-sticky-state]
    included, because nothing can set [#offscreen] again and the scroll
    handler returns at its first test. *)
Theorem reattached_scroll_up_header_is_frozen
    (s : World) (o : IntersectionObserver) (ua : string) (ms : bool) (acts : list action) :
  reachable s ->
  intersectionObserver (priv s) = Some o ->
  offscreen (priv s) = false ->
  getAttribute "sticky" s <> Some "always" ->
  let s' := connectedCallback ua ms (disconnectedCallback s) in
  attrs (page (run acts s')) = attrs (page s') /\
  offscreen (priv (run acts s')) = false.
Proof.
  intros Hreach Ho Hoff Hmode s'.
  destruct (disconnected_fields s (pending_reachable s Hreach))
    as (_ & _ & _ & _ & _ & _ & _ & Ht & Hf).
  destruct (connected_keeps_pending ua ms (disconnectedCallback s)) as (Hoff' & Ha & Ht' & Hf').
  destruct (disconnected_keeps_offscreen s) as (Hoff'' & Ha'').
  assert (Hd : dormant s').
  { subst s'. unfold dormant, getAttribute.
    rewrite Hoff', Hoff'', Ha, Ha'', Ht', Hf', Ht, Hf.
    split_and!; try done.
    intros o' Ho'.
    rewrite (connected_keeps_observer _ _ _ _ (disconnected_observer_spec s o Ho)) in Ho'.
    by simplify_eq. }
  destruct (dormant_run acts s' Hd) as [(_ & Hoff_run & _) Hattrs]. done.
Qed.

Lemma reattached_scroll_up_header_is_frozen_witness :
  attrs (page (run down_then_up reattached_at_rest)) = attrs (page reattached_at_rest).
Proof.
  assert (Hreach : reachable (run at_rest_again (attached desktop_ua false scroll_up_markup ∅ ∅)))
    by apply reachable_run, reach_attached.
  assert (Ho : intersectionObserver
                 (priv (run at_rest_again (attached desktop_ua false scroll_up_markup ∅ ∅)))
               = Some {| io_alwaysSticky := false; io_threshold := 0%Q; io_observing := true |})
    by reflexivity.
  assert (Hmode : getAttribute "sticky"
                    (run at_rest_again (attached desktop_ua false scroll_up_markup ∅ ∅))
                  <> Some "always") by (vm_compute; discriminate).
  apply (reattached_scroll_up_header_is_frozen _ _ desktop_ua false down_then_up
           Hreach Ho eq_refl Hmode).
Defined.

(** ** What drives [data-sticky-state] in each mode *)

Lemma sticky_state_resize entries iw s :
  stickyState (deliver (ResizeNotify entries iw) s) = stickyState s.
Proof. unfold stickyState. open_handlers. by repeat case_match. Qed.

Lemma sticky_state_overflow reached iw s :
  stickyState (deliver (OverflowMinimum reached iw) s) = stickyState s.
Proof. unfold stickyState. open_handlers. by repeat case_match. Qed.

Lemma sticky_state_scroll_always st top s :
  getAttribute "sticky" s = Some "always" ->
  stickyState (deliver (Scroll st top) s) = stickyState s.
Proof.
  intros Hmode. unfold deliver. case_match; [|done].
  rewrite scroll_always by done. unfold stickyState. simpl.
  autorewrite with world. by attr_simpl.
Qed.

Lemma sticky_state_no_timer id s :
  timers (host s) = [] -> deliver (TimeoutFire id) s = s.
Proof. intros Ht. unfold deliver, due_of. by rewrite Ht. Qed.

Lemma sticky_state_no_frame top st s :
  frames (host s) = [] -> stickyState (deliver (AnimationFrame top st) s) = stickyState s.
Proof. intros Hf. unfold deliver. by rewrite Hf. Qed.

Lemma sticky_state_intersection_offscreen entries s :
  (forall o, intersectionObserver (priv s) = Some o -> io_alwaysSticky o = false) ->
  stickyState (deliver (IntersectionNotify entries) s) = stickyState s.
Proof.
  intros Hobs. unfold deliver.
  destruct (intersectionObserver (priv s)) as [o|] eqn:Ho; [|done].
  rewrite (Hobs o eq_refl). open_handlers. by repeat case_match.
Qed.

Lemma sticky_state_intersection_safari entries s :
  isIOSSafari (priv s) = true ->
  (forall o, intersectionObserver (priv s) = Some o -> io_alwaysSticky o = true) ->
  stickyState (deliver (IntersectionNotify entries) s) = stickyState s.
Proof.
  intros Hios Hobs. unfold deliver.
  destruct (intersectionObserver (priv s)) as [o|] eqn:Ho; [|done].
  rewrite (Hobs o eq_refl). open_handlers. rewrite Hios. by repeat case_match.
Qed.

Lemma sticky_state_step_always a s :
  inv s -> getAttribute "sticky" s = Some "always" ->
  (isIOSSafari (priv s) = false /\ is_intersection a = false) \/
  (isIOSSafari (priv s) = true /\ is_frame a = false) ->
  stickyState (act a s) = stickyState s.
Proof.
  intros (Hobs & Hhide & Hframe) Hmode Hcase.
  assert (Ht : timers (host s) = []).
  { destruct Hhide as [?|(? & ? & _ & _ & _ & _ & _ & ?)]; [done | congruence]. }
  assert (Halways : forall o, intersectionObserver (priv s) = Some o -> io_alwaysSticky o = true).
  { intros o Ho. destruct (Hobs o Ho) as [-> _]. by apply attr_is_true. }
  destruct a as [[entries iw|entries|reached iw|st top|id|top st]|ms]; unfold act.
  - apply sticky_state_resize.
  - destruct Hcase as [[_ ?]|[Hios _]]; [discriminate|].
    by apply sticky_state_intersection_safari.
  - apply sticky_state_overflow.
  - by apply sticky_state_scroll_always.
  - by rewrite sticky_state_no_timer.
  - destruct Hcase as [[Hios _]|[_ ?]]; [|discriminate].
    apply sticky_state_no_frame.
    destruct Hframe as [[? _]|(? & _ & _ & _ & ?)]; [done | congruence].
  - done.
Qed.

Lemma sticky_state_step_other a s :
  inv s -> getAttribute "sticky" s <> Some "always" ->
  is_scroll_or_timeout a = false ->
  stickyState (act a s) = stickyState s.
Proof.
  intros (Hobs & Hhide & Hframe) Hmode Ha.
  assert (Hnever : forall o, intersectionObserver (priv s) = Some o -> io_alwaysSticky o = false).
  { intros o Ho. destruct (Hobs o Ho) as [-> _]. by apply attr_is_false. }
  destruct a as [[entries iw|entries|reached iw|st top|id|top st]|ms]; try discriminate;
    unfold act.
  - apply sticky_state_resize.
  - by apply sticky_state_intersection_offscreen.
  - apply sticky_state_overflow.
  - apply sticky_state_no_frame.
    destruct Hframe as [[? _]|(? & _ & _ & ? & _)]; [done | congruence].
  - done.
Qed.

(** X7. On a header attached for the first time, for as long as its
    [sticky] attribute is not changed and it is not detached,
    [data-sticky-state] has one driver per mode, the mode being the
    [sticky] attribute of the markup.  In [always] mode off the iOS Safari
    path only intersection updates change it; in [always] mode on the iOS
    Safari path only the animation frame callback does; in any other mode
    only scroll events and the timeout they start do. *)
Theorem sticky_state_has_one_driver
    (ua : string) (ms : bool) (markup : gmap string string) (drawer menu : gset string)
    (before acts : list action) :
  let s := run before (attached ua ms markup drawer menu) in
  (markup !! "sticky" = Some "always" -> detect_iOSSafari ua ms = false ->
   Forall (fun a => is_intersection a = false) acts ->
   stickyState (run acts s) = stickyState s) /\
  (markup !! "sticky" = Some "always" -> detect_iOSSafari ua ms = true ->
   Forall (fun a => is_frame a = false) acts ->
   stickyState (run acts s) = stickyState s) /\
  (markup !! "sticky" <> Some "always" ->
   Forall (fun a => is_scroll_or_timeout a = false) acts ->
   stickyState (run acts s) = stickyState s).
Proof.
  intros s.
  assert (Hinv : inv s) by apply inv_reached.
  assert (Hmode : getAttribute "sticky" s = markup !! "sticky").
  { subst s. by rewrite sticky_run, attached_sticky. }
  assert (Hios : isIOSSafari (priv s) = detect_iOSSafari ua ms).
  { subst s. destruct (registrations_run before (attached ua ms markup drawer menu))
      as (_ & -> & _). apply attached_isIOSSafari. }
  clearbody s. split_and!.
  - intros Hal Hua Hacts. rewrite <- Hmode in Hal. rewrite Hua in Hios. clear Hmode.
    revert s Hinv Hal Hios. induction Hacts as [|a acts Ha _ IH]; intros s Hinv Hal Hios; [done|].
    rewrite run_cons, IH.
    + apply sticky_state_step_always; auto.
    + by apply inv_act.
    + by rewrite sticky_act.
    + destruct a as [e|t]; [|done]. unfold act.
      by destruct (registrations_deliver e s) as (_ & -> & _).
  - intros Hal Hua Hacts. rewrite <- Hmode in Hal. rewrite Hua in Hios. clear Hmode.
    revert s Hinv Hal Hios. induction Hacts as [|a acts Ha _ IH]; intros s Hinv Hal Hios; [done|].
    rewrite run_cons, IH.
    + apply sticky_state_step_always; auto.
    + by apply inv_act.
    + by rewrite sticky_act.
    + destruct a as [e|t]; [|done]. unfold act.
      by destruct (registrations_deliver e s) as (_ & -> & _).
  - intros Hnot Hacts. rewrite <- Hmode in Hnot. clear Hmode Hios.
    revert s Hinv Hnot. induction Hacts as [|a acts Ha _ IH]; intros s Hinv Hnot; [done|].
    rewrite run_cons, IH.
    + by apply sticky_state_step_other.
    + by apply inv_act.
    + by rewrite sticky_act.
Qed.

Lemma sticky_state_has_one_driver_witness :
  stickyState
    (run [Deliver (Scroll (Some 100%Q) (-10)%Q); Tick 200; Deliver (TimeoutFire 1);
          Deliver (ResizeNotify [64%Q] 1024)]
       (run [Deliver (IntersectionNotify [entry_of false])] always_attached))
  = stickyState (run [Deliver (IntersectionNotify [entry_of false])] always_attached).
Proof.
  destruct (sticky_state_has_one_driver desktop_ua false always_markup ∅ ∅
              [Deliver (IntersectionNotify [entry_of false])]
              [Deliver (Scroll (Some 100%Q) (-10)%Q); Tick 200; Deliver (TimeoutFire 1);
               Deliver (ResizeNotify [64%Q] 1024)])
    as (Halways & _ & _).
  apply Halways; [reflexivity | reflexivity | repeat constructor].
Defined.

(** ** The menu or the drawer *)

Lemma updateMenuVisibility_consistent hideMenu iw s :
  menu_consistent (updateMenuVisibility hideMenu iw s).
Proof.
  unfold menu_consistent, updateMenuVisibility. destruct hideMenu; simpl.
  - split; split; intros _.
    + apply elem_of_union_l, elem_of_singleton. done.
    + by eexists.
    + apply not_elem_of_difference. right. by apply elem_of_singleton.
    + apply elem_of_union_l, elem_of_singleton. done.
  - split; split.
    + intros [? [=]].
    + intros Hin. apply elem_of_difference in Hin as [_ Hne].
      exfalso. apply Hne. by apply elem_of_singleton.
    + intros Hin. apply elem_of_difference in Hin as [_ Hne].
      exfalso. apply Hne. by apply elem_of_singleton.
    + intros Hnot. exfalso. apply Hnot. apply elem_of_union_l, elem_of_singleton. done.
Qed.

Lemma menu_fields_frame_callback top st s :
  menuDrawerHiddenWidth (priv (frame_callback top st s)) = menuDrawerHiddenWidth (priv s) /\
  menuClasses (page (frame_callback top st s)) = menuClasses (page s) /\
  drawerClasses (page (frame_callback top st s)) = drawerClasses (page s).
Proof. open_handlers. by case_match. Qed.

Lemma menu_consistent_act a s : menu_consistent s -> menu_consistent (act a s).
Proof.
  intros Hs.
  assert (Hcases :
    (exists hideMenu iw s0, act a s = updateMenuVisibility hideMenu iw s0) \/
    (menuDrawerHiddenWidth (priv (act a s)) = menuDrawerHiddenWidth (priv s) /\
     menuClasses (page (act a s)) = menuClasses (page s) /\
     drawerClasses (page (act a s)) = drawerClasses (page s))).
  { destruct a as [[entries iw|entries|reached iw|st top|id|top st]|ms]; unfold act.
    - unfold deliver, resizeObserver_callback. repeat case_match; try (by right).
      left. by eexists _, _, _.
    - right. open_handlers. by repeat case_match.
    - unfold deliver, handleOverflowMinimum. case_match; [|by right].
      left. by eexists _, _, _.
    - right. open_handlers. by repeat case_match.
    - right. open_handlers. by repeat case_match.
    - right. simpl.
      apply (frames_fold_ind (fun s' =>
        menuDrawerHiddenWidth (priv s') = menuDrawerHiddenWidth (priv s) /\
        menuClasses (page s') = menuClasses (page s) /\
        drawerClasses (page s') = drawerClasses (page s))); [done|].
      intros s' (<- & <- & <-). apply menu_fields_frame_callback.
    - by right. }
  destruct Hcases as [(hideMenu & iw & s0 & ->)|(Hw & Hm & Hd)].
  - apply updateMenuVisibility_consistent.
  - unfold menu_consistent. by rewrite Hw, Hm, Hd.
Qed.

(** X8. From the first [overflowMinimum] event on, the inline menu and
    the drawer are never both shown or both hidden: after any further
    deliveries the class [hidden] is on the menu exactly while a width is
    recorded in [#menuDrawerHiddenWidth], and exactly while the class
    [desktop:hidden] is off the drawer container. *)
Theorem menu_and_drawer_alternate
    (s : World) (minimumReached : bool) (innerWidth : Z) (acts : list action) :
  overflowListener (page s) = true ->
  menu_consistent (run acts (deliver (OverflowMinimum minimumReached innerWidth) s)).
Proof.
  intros Hlisten.
  assert (Hfirst : menu_consistent (deliver (OverflowMinimum minimumReached innerWidth) s)).
  { unfold deliver, handleOverflowMinimum. rewrite Hlisten.
    apply updateMenuVisibility_consistent. }
  revert Hfirst. generalize (deliver (OverflowMinimum minimumReached innerWidth) s).
  induction acts as [|a acts IH]; intros s' Hs'; [done|].
  rewrite run_cons. by apply IH, menu_consistent_act.
Qed.

Lemma menu_and_drawer_alternate_witness :
  menu_consistent
    (run [Deliver (ResizeNotify [64%Q] 700); Deliver (ResizeNotify [64%Q] 1024)]
       (deliver (OverflowMinimum true 800)
          (attached desktop_ua false scroll_up_markup {["desktop:hidden"]} ∅))).
Proof.
  apply (menu_and_drawer_alternate
           (attached desktop_ua false scroll_up_markup {["desktop:hidden"]} ∅) true 800
           [Deliver (ResizeNotify [64%Q] 700); Deliver (ResizeNotify [64%Q] 1024)]).
  reflexivity.
Defined.

(** ** The user agent *)

Lemma prefix_occurs needle hay :
  String.prefix needle hay = true <-> exists after, hay = String.append needle after.
Proof.
  revert hay. induction needle as [|c needle IH]; intros hay; simpl.
  - split; [intros _; by exists hay | by destruct hay].
  - destruct hay as [|d hay]; simpl.
    + split; [discriminate | intros [? [=]]].
    + destruct (Ascii.ascii_dec c d) as [->|Hne].
      * rewrite IH. split; intros [after Hafter]; exists after.
        -- by rewrite Hafter.
        -- by injection Hafter.
      * split; [discriminate | intros [? [=]]; congruence].
Qed.

Lemma includes_empty needle : includes needle "" = String.prefix needle "".
Proof. unfold includes. apply orb_false_r. Qed.

Lemma includes_String needle c hay :
  includes needle (String c hay)
    = String.prefix needle (String c hay) || includes needle hay.
Proof. reflexivity. Qed.

Lemma includes_occurs needle hay :
  includes needle hay = true <-> occurs_in needle hay.
Proof.
  unfold occurs_in. induction hay as [|c hay IH].
  - rewrite includes_empty, prefix_occurs. split.
    + intros [after Hafter]. by exists EmptyString, after.
    + intros ([|? ?] & after & Hafter); [by exists after | discriminate].
  - rewrite includes_String, orb_true_iff, prefix_occurs, IH. split.
    + intros [[after Hafter]|(before & after & Hafter)].
      * by exists EmptyString, after.
      * exists (String c before), after. simpl. by rewrite Hafter.
    + intros ([|d before] & after & Hafter).
      * left. by exists after.
      * right. simpl in Hafter. injection Hafter as -> ->. by exists before, after.
Qed.

Lemma includes_not_occurs needle hay :
  includes needle hay = false <-> ~ occurs_in needle hay.
Proof.
  rewrite <- includes_occurs. destruct (includes needle hay); split; congruence.
Qed.

(** X9. The platform test of [connectedCallback] classifies a browser as
    iOS Safari exactly when [window.MSStream] is falsy and the user agent
    contains [iPhone], [iPad] or [iPod], contains [Safari], and contains
    neither [CriOS] nor [FxiOS], each anywhere in the string. *)
Theorem iOS_Safari_detection (userAgent : string) (hasMSStream : bool) :
  detect_iOSSafari userAgent hasMSStream = true <->
  hasMSStream = false /\
  (occurs_in "iPhone" userAgent \/ occurs_in "iPad" userAgent \/ occurs_in "iPod" userAgent) /\
  occurs_in "Safari" userAgent /\
  ~ occurs_in "CriOS" userAgent /\
  ~ occurs_in "FxiOS" userAgent.
Proof.
  unfold detect_iOSSafari, test_any. simpl.
  rewrite !andb_true_iff, !negb_true_iff, !orb_false_r, !orb_true_iff, !orb_false_iff.
  rewrite !includes_occurs, !includes_not_occurs. tauto.
Qed.

Lemma iOS_Safari_detection_witness :
  (occurs_in "iPhone" iphone_safari_ua \/ occurs_in "iPad" iphone_safari_ua \/
   occurs_in "iPod" iphone_safari_ua) /\
  occurs_in "Safari" iphone_safari_ua /\
  ~ occurs_in "CriOS" iphone_safari_ua.
Proof.
  destruct (proj1 (iOS_Safari_detection iphone_safari_ua false) eq_refl)
    as (_ & Hdevice & Hsafari & Hchrome & _).
  split_and!; [exact Hdevice | exact Hsafari | exact Hchrome].
Defined.

(** * The header group *)

Lemma observe_children_spec header children observed id :
  id ∈ HeaderGroup.observe_children header children observed <->
  id ∈ observed \/ HeaderGroup.eligible_in header id children.
Proof.
  unfold HeaderGroup.observe_children, HeaderGroup.eligible_in.
  revert observed. induction children as [|element children IH]; intros observed; simpl.
  - split; [by left|]. intros [?|(? & Hin & _)]; [done|]. by apply elem_of_nil in Hin.
  - rewrite IH. clear IH.
    destruct (HeaderGroup.is_header header element) eqn:Hh; simpl.
    + split; (intros [?|(el & Hin & Hid & Hhtml & Hne)]; [by left|right]).
      * exists el. split_and!; try done. by apply elem_of_cons; right.
      * apply elem_of_cons in Hin as [->|Hin]; [|by exists el].
        exfalso. unfold HeaderGroup.is_header in Hh. destruct header as [h|]; [|done].
        apply Nat.eqb_eq in Hh. congruence.
    + destruct (HeaderGroup.isHTMLElement element) eqn:Hhtml'; simpl.
      * split.
        -- intros [Hin|(el & Hin & Hid & Hhtml & Hne)].
           ++ apply elem_of_union in Hin as [Hin|Hin]; [|by left].
              apply elem_of_singleton in Hin. subst id. right.
              exists element. split_and!; try done; [apply elem_of_cons; by left|].
              unfold HeaderGroup.is_header in Hh. destruct header as [h|]; [|done].
              apply Nat.eqb_neq in Hh. congruence.
           ++ right. exists el. split_and!; try done. by apply elem_of_cons; right.
        -- intros [Hin|(el & Hin & Hid & Hhtml & Hne)].
           ++ left. by apply elem_of_union_r.
           ++ apply elem_of_cons in Hin as [->|Hin].
              ** left. apply elem_of_union_l, elem_of_singleton. done.
              ** right. by exists el.
      * split; (intros [?|(el & Hin & Hid & Hhtml & Hne)]; [by left|right]).
        -- exists el. split_and!; try done. by apply elem_of_cons; right.
        -- apply elem_of_cons in Hin as [->|Hin]; [congruence|by exists el].
Qed.

Lemma mutationCallback_spec types children s id :
  HeaderGroup.header (HeaderGroup.mutationCallback types children s) = HeaderGroup.header s /\
  HeaderGroup.watching (HeaderGroup.mutationCallback types children s) = HeaderGroup.watching s /\
  (id ∈ HeaderGroup.observed (HeaderGroup.mutationCallback types children s) <->
   id ∈ HeaderGroup.observed s \/
   (existsb (fun type => String.eqb type "childList") types = true /\
    HeaderGroup.eligible_in (HeaderGroup.header s) id children)).
Proof.
  unfold HeaderGroup.mutationCallback.
  revert s. induction types as [|type types IH]; intros s; simpl.
  - split_and!; [done..|]. split; [by left|]. by intros [?|[? _]].
  - destruct (String.eqb type "childList") eqn:Htype; simpl.
    + match goal with
      | |- context [foldl _ ?s1 types] => destruct (IH s1) as (Hh & Hw & Hobs)
      end.
      simpl in Hh, Hw, Hobs. rewrite Hh, Hw, Hobs. split_and!; [done..|].
      rewrite observe_children_spec. split.
      * intros [[?|?]|[_ ?]]; auto.
      * intros [?|[_ ?]]; auto.
    + apply IH.
Qed.

Lemma header_group_step e s id :
  HeaderGroup.watching s = true ->
  HeaderGroup.header (HeaderGroup.deliver e s) = HeaderGroup.header s /\
  HeaderGroup.watching (HeaderGroup.deliver e s) = true /\
  (id ∈ HeaderGroup.observed (HeaderGroup.deliver e s) <->
   id ∈ HeaderGroup.observed s \/
   exists snapshot, HeaderGroup.seen_children e = Some snapshot /\
                    HeaderGroup.eligible_in (HeaderGroup.header s) id snapshot).
Proof.
  intros Hw. destruct e as [types children|target]; simpl.
  - rewrite Hw. destruct (mutationCallback_spec types children s id) as (Hh & Hw' & Hobs).
    rewrite Hh, Hw', Hobs. split_and!; [done..|].
    destruct (existsb (fun type => String.eqb type "childList") types); split.
    + intros [?|[_ ?]]; [by left|right]. by exists children.
    + intros [?|(snapshot & [= <-] & ?)]; [by left|by right].
    + intros [?|[? _]]; [by left|done].
    + intros [?|(snapshot & ? & _)]; [by left|done].
  - case_decide; simpl; (split_and!; [done..|]); split;
      try (by left); intros [?|(? & ? & _)]; done.
Qed.

Lemma header_group_run events s id :
  HeaderGroup.watching s = true ->
  id ∈ HeaderGroup.observed (HeaderGroup.run events s) <->
  id ∈ HeaderGroup.observed s \/
  exists snapshot, snapshot ∈ omap HeaderGroup.seen_children events /\
                   HeaderGroup.eligible_in (HeaderGroup.header s) id snapshot.
Proof.
  revert s. induction events as [|e events IH]; intros s Hw.
  - simpl. split; [by left|]. intros [?|(? & Hin & _)]; [done|]. by apply elem_of_nil in Hin.
  - destruct (header_group_step e s id Hw) as (Hh & Hw' & Hobs).
    change (HeaderGroup.run (e :: events) s)
      with (HeaderGroup.run events (HeaderGroup.deliver e s)).
    rewrite (IH _ Hw'), Hobs, Hh. simpl.
    destruct (HeaderGroup.seen_children e) as [snapshot|] eqn:Hseen; split.
    + intros [[?|(snap & [= <-] & ?)]|(snap & Hin & ?)].
      * by left.
      * right. exists snapshot. split; [apply elem_of_cons; by left|done].
      * right. exists snap. split; [apply elem_of_cons; by right|done].
    + intros [?|(snap & Hin & ?)]; [by left; left|].
      apply elem_of_cons in Hin as [->|Hin].
      * left. right. by exists snapshot.
      * right. by exists snap.
    + intros [[?|(snap & [=] & _)]|(snap & Hin & ?)]; [by left|]. right. by exists snap.
    + intros [?|(snap & Hin & ?)]; [by left; left|]. right. by exists snap.
Qed.

(** X10. With a header group, the elements whose size is observed after
    any deliveries are exactly the [HTMLElement]s other than the header
    that were children of the group when the page was loaded or when a
    batch of mutations with a [childList] record was handled.  So the
    header is never observed, nor is a child that is not an
    [HTMLElement]; and a child is never unobserved, also after it has
    left the group. *)
Theorem observed_children_of_header_group
    (header : option nat) (children : list HeaderGroup.Element)
    (events : list HeaderGroup.event) (id : nat) :
  let s := HeaderGroup.run events (HeaderGroup.documentLoaded header (Some children)) in
  id ∈ HeaderGroup.observed s <->
  exists snapshot,
    snapshot ∈ HeaderGroup.snapshots children events /\
    HeaderGroup.eligible_in header id snapshot.
Proof.
  intros s. subst s. rewrite header_group_run by done. simpl.
  rewrite observe_children_spec. unfold HeaderGroup.snapshots. split.
  - intros [[Hin|?]|(snap & Hin & ?)].
    + by apply elem_of_empty in Hin.
    + exists children. split; [apply elem_of_cons; by left|done].
    + exists snap. split; [apply elem_of_cons; by right|done].
  - intros (snap & Hin & ?). apply elem_of_cons in Hin as [->|Hin].
    + left. by right.
    + right. by exists snap.
Qed.

Lemma observed_children_of_header_group_witness :
  let banner := {| HeaderGroup.element_id := 2; HeaderGroup.isHTMLElement := true |} in
  let header := {| HeaderGroup.element_id := 1; HeaderGroup.isHTMLElement := true |} in
  let icon := {| HeaderGroup.element_id := 3; HeaderGroup.isHTMLElement := false |} in
  let notice := {| HeaderGroup.element_id := 4; HeaderGroup.isHTMLElement := true |} in
  HeaderGroup.observed
    (HeaderGroup.run [HeaderGroup.Mutations ["childList"] [header; notice]]
       (HeaderGroup.documentLoaded (Some 1) (Some [banner; header; icon])))
  = {[4; 2]} /\
  4 ∈ HeaderGroup.observed
    (HeaderGroup.run [HeaderGroup.Mutations ["childList"] [header; notice]]
       (HeaderGroup.documentLoaded (Some 1) (Some [banner; header; icon]))).
Proof.
  intros banner header icon notice. split; [reflexivity|].
  apply (observed_children_of_header_group (Some 1) [banner; header; icon]
           [HeaderGroup.Mutations ["childList"] [header; notice]] 4).
  exists [header; notice]. split.
  - apply elem_of_cons. right. apply elem_of_cons. left. reflexivity.
  - exists notice. split_and!; [|reflexivity|reflexivity|discriminate].
    apply elem_of_cons. right. apply elem_of_cons. left. reflexivity.
Defined.

(** * The accordion *)

Import Accordion.

Lemma this_eq (i : nat) (s : Page) (el : Element) :
  elements s !! i = Some el -> this i s = Ok el s.
Proof. intros H. unfold this. by rewrite H. Qed.

Lemma get_details_eq (i : nat) (s : Page) (el : Element) (d : Details) :
  elements s !! i = Some el -> details el = Some d -> get_details i s = Ok d s.
Proof. intros H Hd. unfold get_details, bind. rewrite (this_eq _ _ _ H), Hd. reflexivity. Qed.

Lemma get_details_throw (i : nat) (s : Page) (el : Element) :
  elements s !! i = Some el -> details el = None ->
  get_details i s = Threw "Details element not found" s.
Proof. intros H Hd. unfold get_details, bind. rewrite (this_eq _ _ _ H), Hd. reflexivity. Qed.

Lemma write_open_eq (i : nat) (b : bool) (s : Page) (el : Element) (d : Details) :
  elements s !! i = Some el -> details el = Some d ->
  write_open i b s = Ok tt (set_elements (alter (map_details (set_open b)) i (elements s)) s).
Proof.
  intros H Hd. unfold write_open, bind. rewrite (get_details_eq _ _ _ _ H Hd). reflexivity.
Qed.

Lemma page_of_bind {A B : Type} (m : M A) (k : A -> M B) (s : Page) :
  page_of (bind m k s) =
  match m s with
  | Ok a s' => page_of (k a s')
  | Threw _ s' => s'
  end.
Proof. unfold bind. by destruct (m s). Qed.

(** One turn of the loop of [#closeSiblings], case by case. *)
Lemma closeSibling_self (i : nat) (s : Page) : closeSibling i i s = Ok tt s.
Proof. unfold closeSibling. by rewrite Nat.eqb_refl. Qed.

Lemma closeSibling_unknown (i j : nat) (s : Page) :
  elements s !! j = None -> closeSibling i j s = Ok tt s.
Proof.
  intros H. unfold closeSibling. destruct (Nat.eqb j i); [done|].
  unfold bind, read. rewrite H. rewrite bool_decide_eq_false_2; [done|].
  by intros [? ?].
Qed.

Lemma closeSibling_known (i j : nat) (s : Page) (el : Element) :
  j <> i -> elements s !! j = Some el ->
  closeSibling i j s =
  match details el with
  | None => Threw "Details element not found" s
  | Some d =>
      if open d then
        if supportsInterpolateSize s then write_open j false s else animateClose j s
      else Ok tt s
  end.
Proof.
  intros Hne H. unfold closeSibling.
  destruct (Nat.eqb_spec j i); [done|].
  unfold bind at 1. unfold read at 1. rewrite H.
  rewrite bool_decide_eq_true_2 by eauto.
  unfold bind at 1. destruct (details el) as [d|] eqn:Hd.
  - rewrite (get_details_eq _ _ _ _ H Hd). destruct (open d); [|done].
    unfold bind, read. by destruct (supportsInterpolateSize s).
  - by rewrite (get_details_throw _ _ _ H Hd).
Qed.


Lemma set_elements_twice (m m' : gmap nat Element) (s : Page) :
  set_elements m' (set_elements m s) = set_elements m' s.
Proof. reflexivity. Qed.





(** ** The fallback path *)

Lemma fresh_animation_spec (s : Page) : animations s !! fresh_animation s = None.
Proof. apply not_elem_of_dom. unfold fresh_animation. apply is_fresh. Qed.

Lemma cancel_running_eq (j : nat) (s : Page) (el : Element) :
  elements s !! j = Some el ->
  cancel_running j s =
  Ok tt (match animation el with
         | Some a => set_animations (alter cancelled a (animations s)) s
         | None => s
         end).
Proof.
  intros Hel. unfold cancel_running, bind. rewrite (this_eq _ _ _ Hel).
  by destruct (animation el).
Qed.

Lemma fresh_after_cancel (s : Page) (held : option nat) :
  fresh_animation (match held with
                   | Some a => set_animations (alter cancelled a (animations s)) s
                   | None => s
                   end) = fresh_animation s.
Proof.
  destruct held; [|done]. unfold fresh_animation. simpl. by rewrite dom_alter_L.
Qed.

(** The page [#animateClose] leaves for an element with content. *)
Lemma animateClose_eq (j : nat) (s : Page) (el : Element) (d : Details) :
  elements s !! j = Some el ->
  details el = Some d ->
  animateClose j s =
  match content d with
  | None => Ok tt s
  | Some c =>
      let s1 := match animation el with
                | Some a => set_animations (alter cancelled a (animations s)) s
                | None => s
                end in
      Ok tt (set_elements
               (alter (set_animation (Some (fresh_animation s))) j (elements s))
               (set_animations
                  (<[fresh_animation s :=
                       {| owner := j; frames := Closing (scrollHeight c);
                          state := Running; cancelEventQueued := false |}]>
                     (animations s1)) s))
  end.
Proof.
  intros Hel Hd. unfold animateClose. unfold bind at 1.
  unfold get_content, bind at 1. rewrite (get_details_eq _ _ _ _ Hel Hd). unfold ret at 1.
  destruct (content d) as [c|]; [|done].
  unfold bind at 1. rewrite (cancel_running_eq _ _ _ Hel).
  unfold bind, animate, update_element, modify.
  rewrite fresh_after_cancel. by destruct (animation el).
Qed.

(** The page [#animateOpen] leaves for an element with content. *)
Lemma animateOpen_eq (i : nat) (s : Page) (el : Element) (d : Details) :
  elements s !! i = Some el ->
  details el = Some d ->
  animateOpen i s =
  match content d with
  | None => Ok tt s
  | Some c =>
      let s1 := match animation el with
                | Some a => set_animations (alter cancelled a (animations s)) s
                | None => s
                end in
      Ok tt (set_elements
               (alter (set_animation (Some (fresh_animation s))) i
                  (alter (map_details (set_open true)) i (elements s)))
               (set_animations
                  (<[fresh_animation s :=
                       {| owner := i; frames := Opening (scrollHeight c);
                          state := Running; cancelEventQueued := false |}]>
                     (animations s1)) s))
  end.
Proof.
  intros Hel Hd. unfold animateOpen. unfold bind at 1.
  unfold get_content, bind at 1. rewrite (get_details_eq _ _ _ _ Hel Hd). unfold ret at 1.
  destruct (content d) as [c|]; [|done].
  unfold bind at 1. rewrite (cancel_running_eq _ _ _ Hel).
  unfold bind at 1.
  rewrite (write_open_eq i true _ el d); [|by destruct (animation el)|done].
  unfold bind, animate, update_element, modify.
  assert (Hfresh : forall m, fresh_animation
            (set_elements m (match animation el with
                             | Some a => set_animations (alter cancelled a (animations s)) s
                             | None => s
                             end)) = fresh_animation s).
  { intros m. rewrite <- (fresh_after_cancel s (animation el)). by destruct (animation el). }
  rewrite Hfresh. by destruct (animation el).
Qed.

Lemma set_animation_same (el : Element) : set_animation (animation el) el = el.
Proof. by destruct el. Qed.

Lemma closing_elements_refl (s : Page) (k : nat) :
  exists h, elements s !! k = set_animation h <$> elements s !! k.
Proof.
  destruct (elements s !! k) as [el|]; [|by exists None].
  exists (animation el). simpl. by rewrite set_animation_same.
Qed.

(** A turn of the loop that does nothing. *)
Lemma closing_skip (i j : nat) (s : Page) :
  handles_owned s ->
  (j = i \/
   forall el d c, elements s !! j = Some el -> details el = Some d ->
                  open d = true -> content d = Some c -> False) ->
  siblings_closing i [j] s s.
Proof.
  intros Hown Hskip. split; try done.
  - intros k. apply closing_elements_refl.
  - intros a anim' H1 H2. by rewrite H1 in H2.
  - intros a anim H. by exists anim.
  - intros k el d c Hk Hne Hel Hd Hopen Hc. apply list_elem_of_singleton in Hk as ->.
    destruct Hskip as [?|Hskip]; [done|]. destruct (Hskip el d c); done.
Qed.

(** A turn of the loop that starts a close animation. *)
Lemma closing_step (i j : nat) (s : Page) (el : Element) (d : Details) (c : Content) :
  handles_owned s ->
  j <> i ->
  elements s !! j = Some el -> details el = Some d -> content d = Some c ->
  let s1 := match animation el with
            | Some a => set_animations (alter cancelled a (animations s)) s
            | None => s
            end in
  siblings_closing i [j] s
    (set_elements
       (alter (set_animation (Some (fresh_animation s))) j (elements s))
       (set_animations
          (<[fresh_animation s :=
               {| owner := j; frames := Closing (scrollHeight c);
                  state := Running; cancelEventQueued := false |}]>
             (animations s1)) s)).
Proof.
  intros Hown Hne Hel Hd Hc s1.
  pose proof (fresh_animation_spec s) as Hfresh.
  assert (Hs1 : forall a,
    animations s1 !! a =
      if bool_decide (animation el = Some a) then cancelled <$> animations s !! a
      else animations s !! a).
  { intros a. unfold s1. destruct (animation el) as [a0|]; cbn [animations set_animations].
    - destruct (decide (a0 = a)) as [->|Hna].
      + by rewrite lookup_alter_eq, bool_decide_eq_true_2.
      + rewrite lookup_alter_ne by done. rewrite bool_decide_eq_false_2; [done|]. congruence.
    - by rewrite bool_decide_eq_false_2. }
  assert (Hheld : forall a anim,
    animation el = Some a -> animations s !! a = Some anim -> owner anim = j).
  { intros a anim Ha Hanim. destruct (Hown j el a Hel Ha) as (anim' & Hanim' & Howner).
    by simplify_eq. }
  split; simpl.
  - by destruct (animation el).
  - intros k [Hk| ->]; [|by rewrite lookup_alter_ne].
    rewrite lookup_alter_ne; [done|]. intros ->. apply Hk. by apply list_elem_of_singleton.
  - intros k. destruct (decide (k = j)) as [->|Hkj].
    + exists (Some (fresh_animation s)). by rewrite lookup_alter_eq.
    + rewrite lookup_alter_ne by done. apply closing_elements_refl.
  - intros k elk a Hk Ha. simpl in Hk |- *.
    destruct (decide (k = j)) as [->|Hkj].
    + rewrite lookup_alter_eq, Hel in Hk. simpl in Hk. injection Hk as <-.
      simpl in Ha. injection Ha as <-. rewrite lookup_insert_eq. by eexists.
    + rewrite lookup_alter_ne in Hk by done.
      destruct (Hown k elk a Hk Ha) as (anim & Hanim & Howner).
      assert (a <> fresh_animation s) by (intros ->; congruence).
      rewrite lookup_insert_ne by done. rewrite Hs1.
      case_bool_decide as Hheld'; [|by exists anim].
      specialize (Hheld a anim Hheld' Hanim). congruence.
  - intros a anim Hanim Howner.
    assert (a <> fresh_animation s) by (intros ->; congruence).
    rewrite lookup_insert_ne by done. rewrite Hs1.
    case_bool_decide as Hheld'; [|done].
    specialize (Hheld a anim Hheld' Hanim).
    destruct Howner as [Hnot|Heq]; [|congruence].
    destruct Hnot. rewrite Hheld. by apply list_elem_of_singleton.
  - intros a anim' Hanim' Hnew.
    destruct (decide (a = fresh_animation s)) as [->|Hna].
    + rewrite lookup_insert_eq in Hanim'. injection Hanim' as <-. simpl.
      split; [by apply list_elem_of_singleton|done].
    + rewrite lookup_insert_ne in Hanim' by done. rewrite Hs1, Hnew in Hanim'.
      by case_bool_decide.
  - intros a anim Hanim.
    assert (a <> fresh_animation s) by (intros ->; congruence).
    rewrite lookup_insert_ne by done. rewrite Hs1, Hanim.
    case_bool_decide; [|by exists anim].
    exists (cancelled anim). split; [done|]. unfold cancelled. by destruct (state anim).
  - intros k elk dk ck Hk _ Helk Hdk _ Hck. apply list_elem_of_singleton in Hk as ->.
    simplify_eq. exists (fresh_animation s).
    by rewrite lookup_alter_eq, Hel, lookup_insert_eq.
Qed.

Lemma closing_nil (i : nat) (s : Page) : handles_owned s -> siblings_closing i [] s s.
Proof.
  intros Hown. split; try done.
  - intros k. apply closing_elements_refl.
  - intros a anim' H1 H2. by rewrite H1 in H2.
  - intros a anim H. by exists anim.
  - intros j el d c Hj. by apply elem_of_nil in Hj.
Qed.

Lemma closing_cons (i j : nat) (rest : list nat) (s s1 s2 : Page) :
  siblings_closing i [j] s s1 ->
  siblings_closing i rest s1 s2 ->
  siblings_closing i (j :: rest) s s2.
Proof.
  intros [P1 F1 E1 H1 AF1 AN1 AO1 K1] [P2 F2 E2 H2 AF2 AN2 AO2 K2].
  assert (Hsplit : forall k, k ∉ j :: rest -> (k ∉ [j]) /\ (k ∉ rest)).
  { intros k Hk. split; intros Hin; apply Hk; apply elem_of_cons.
    - left. by apply list_elem_of_singleton in Hin.
    - by right. }
  split.
  - destruct P1 as (? & ? & ?), P2 as (? & ? & ?). split_and!; congruence.
  - intros k Hk. rewrite F2, F1; [done| |].
    + destruct Hk as [Hk|?]; [left; by apply Hsplit|by right].
    + destruct Hk as [Hk|?]; [left; by apply Hsplit|by right].
  - intros k. destruct (E1 k) as [h1 Hh1], (E2 k) as [h2 Hh2].
    exists h2. rewrite Hh2, Hh1. by destruct (elements s !! k).
  - done.
  - intros a anim Hanim Howner. apply AF2.
    + apply AF1; [done|]. destruct Howner as [Hk|?]; [left; by apply Hsplit|by right].
    + destruct Howner as [Hk|?]; [left; by apply Hsplit|by right].
  - intros a anim' Hanim' Hnew.
    destruct (animations s1 !! a) as [anim1|] eqn:Hanim1.
    + destruct (AN1 a anim1 Hanim1 Hnew) as [Hin Hne].
      destruct (AO2 a anim1 Hanim1) as (anim2 & Hanim2 & Howner). simplify_eq.
      rewrite Howner. split; [|done]. apply list_elem_of_singleton in Hin as ->.
      by apply elem_of_cons; left.
    + destruct (AN2 a anim' Hanim' Hanim1) as [Hin Hne].
      split; [by apply elem_of_cons; right|done].
  - intros a anim Hanim.
    destruct (AO1 a anim Hanim) as (anim1 & Hanim1 & Ho1).
    destruct (AO2 a anim1 Hanim1) as (anim2 & Hanim2 & Ho2).
    exists anim2. split; [done|congruence].
  - intros k el d c Hk Hne Hel Hd Hopen Hc.
    destruct (decide (k ∈ rest)) as [Hin|Hnot].
    + destruct (E1 k) as [h1 Hh1]. rewrite Hel in Hh1. simpl in Hh1.
      destruct (K2 k (set_animation h1 el) d c Hin Hne Hh1 Hd Hopen Hc) as (b & Hb & Hanim).
      exists b. split; [|done]. by rewrite Hb.
    + apply elem_of_cons in Hk as [->|?]; [|done].
      destruct (K1 j el d c) as (b & Hb & Hanim); try done; [by apply list_elem_of_singleton|].
      exists b. split.
      * rewrite F2; [done|by left].
      * apply AF2; [done|]. simpl. by left.
Qed.

(** The loop of [#closeSiblings] where [interpolate-size] is not
    supported. *)
Lemma closeSiblings_loop_fallback (i : nat) (l : list nat) (s : Page) :
  supportsInterpolateSize s = false ->
  handles_owned s ->
  all_have_details l s ->
  exists s', for_each l (closeSibling i) s = Ok tt s' /\ siblings_closing i l s s'.
Proof.
  revert s. induction l as [|j rest IH]; intros s Hsup Hown Hall.
  - exists s. split; [done|by apply closing_nil].
  - assert (Hstep : exists s1, closeSibling i j s = Ok tt s1 /\ siblings_closing i [j] s s1).
    { destruct (decide (j = i)) as [->|Hne].
      { exists s. split; [apply closeSibling_self|]. apply closing_skip; [done|by left]. }
      destruct (elements s !! j) as [el|] eqn:Hel.
      2:{ exists s. split; [by apply closeSibling_unknown|].
          apply closing_skip; [done|]. right. intros ? ? ? ?. by simplify_eq. }
      rewrite (closeSibling_known _ _ _ _ Hne Hel).
      destruct (Hall j el) as [d Hd]; [by apply elem_of_cons; left|done|].
      rewrite Hd, Hsup. destruct (open d) eqn:Hopen.
      2:{ exists s. split; [done|]. apply closing_skip; [done|]. right.
          intros ? ? ? ? ? ?. simplify_eq. congruence. }
      rewrite (animateClose_eq _ _ _ _ Hel Hd).
      destruct (content d) as [c|] eqn:Hc.
      2:{ exists s. split; [done|]. apply closing_skip; [done|]. right.
          intros ? ? ? ? ? ? ?; simplify_eq; congruence. }
      eexists. split; [reflexivity|]. by apply (closing_step i j s el d c). }
    destruct Hstep as (s1 & Hs1 & Hclosing1).
    destruct (IH s1) as (s2 & Hs2 & Hclosing2).
    + destruct Hclosing1 as [(? & _) _ _ _ _ _ _ _]. congruence.
    + by destruct Hclosing1.
    + intros k el Hk Hel. destruct Hclosing1 as [_ _ E1 _ _ _ _ _].
      destruct (E1 k) as [h Hh]. rewrite Hel in Hh.
      destruct (elements s !! k) as [el0|] eqn:Hel0; [|done].
      simpl in Hh. injection Hh as ->. simpl.
      apply (Hall k el0); [by apply elem_of_cons; right|done].
    + exists s2. split; [|by apply (closing_cons i j rest s s1 s2)].
      simpl. unfold bind. by rewrite Hs1.
Qed.

(** The page a click leaves on the fallback path, for a closed accordion
    with content. *)
Lemma fallback_click_state
    (i : nat) (isMobile : bool) (s : Page) (el : Element) (d : Details) (c : Content)
    (siblings : list nat) :
  supportsInterpolateSize s = false ->
  elements s !! i = Some el ->
  clickListener el = true ->
  disabled isMobile el = false ->
  details el = Some d ->
  has_summary d = true ->
  open d = false ->
  content d = Some c ->
  scope el = Some siblings ->
  all_have_details siblings s ->
  handles_owned s ->
  exists sL,
    siblings_closing i siblings (set_defaultPrevented true s) sL /\
    deliver (Click i isMobile) s =
      set_elements
        (alter (set_animation (Some (fresh_animation sL))) i
           (alter (map_details (set_open true)) i (elements sL)))
        (set_animations
           (<[fresh_animation sL :=
                {| owner := i; frames := Opening (scrollHeight c);
                   state := Running; cancelEventQueued := false |}]>
              (animations
                 (match animation el with
                  | Some a => set_animations (alter cancelled a (animations sL)) sL
                  | None => sL
                  end))) sL).
Proof.
  intros Hsup Hel Hlistener Hdisabled Hd Hsummary Hopen Hc Hscope Hall Hown.
  destruct (closeSiblings_loop_fallback i siblings (set_defaultPrevented true s))
    as (sL & Hloop & Hclosing); [done|done|done|].
  exists sL. split; [done|].
  assert (HelL : elements sL !! i = Some el).
  { rewrite (closing_frame _ _ _ _ Hclosing); [done|by right]. }
  pose proof (animateOpen_eq i sL el d HelL Hd) as Hanimate. rewrite Hc in Hanimate.
  assert (Hclick : handleClick i isMobile (set_defaultPrevented false s) = Ok tt
    (set_elements
        (alter (set_animation (Some (fresh_animation sL))) i
           (alter (map_details (set_open true)) i (elements sL)))
        (set_animations
           (<[fresh_animation sL :=
                {| owner := i; frames := Opening (scrollHeight c);
                   state := Running; cancelEventQueued := false |}]>
              (animations
                 (match animation el with
                  | Some a => set_animations (alter cancelled a (animations sL)) sL
                  | None => sL
                  end))) sL))).
  { unfold handleClick. unfold bind at 1.
    rewrite (this_eq i (set_defaultPrevented false s) el Hel), Hdisabled.
    unfold bind at 1. unfold read at 1. simpl. rewrite Hsup.
    unfold bind at 1. unfold preventDefault, modify at 1.
    change (set_defaultPrevented true (set_defaultPrevented false s))
      with (set_defaultPrevented true s).
    unfold bind at 1.
    rewrite (get_details_eq i (set_defaultPrevented true s) el d Hel Hd), Hopen.
    unfold bind at 1. unfold closeSiblings, bind at 1.
    rewrite (this_eq i (set_defaultPrevented true s) el Hel), Hscope, Hloop.
    exact Hanimate. }
  unfold deliver, has_summary_element, listens. simpl.
  rewrite Hel, Hd, Hsummary, Hlistener, Hclick. simpl.
  destruct (closing_page _ _ _ _ Hclosing) as (_ & -> & _). reflexivity.
Qed.

(** An animation of the page as the click found it is not the one
    [animate] makes next. *)
Lemma fresh_animation_ne (s : Page) (a : nat) (anim : Animation) :
  animations s !! a = Some anim -> a <> fresh_animation s.
Proof. intros H ->. by rewrite fresh_animation_spec in H. Qed.

(** The page right after the click of the fallback path. *)
Lemma fallback_click_started
    (i : nat) (isMobile : bool) (s : Page) (el : Element) (d : Details) (c : Content)
    (siblings : list nat) :
  supportsInterpolateSize s = false ->
  elements s !! i = Some el ->
  clickListener el = true ->
  disabled isMobile el = false ->
  details el = Some d ->
  has_summary d = true ->
  open d = false ->
  content d = Some c ->
  scope el = Some siblings ->
  all_have_details siblings s ->
  handles_owned s ->
  let s' := deliver (Click i isMobile) s in
  defaultPrevented s' = true /\
  (exists a,
     elements s' !! i = Some (set_animation (Some a) (map_details (set_open true) el)) /\
     animations s' !! a =
       Some {| owner := i; frames := Opening (scrollHeight c);
               state := Running; cancelEventQueued := false |}) /\
  (forall j elj dj cj,
     j ∈ siblings -> j <> i ->
     elements s !! j = Some elj -> details elj = Some dj ->
     open dj = true -> content dj = Some cj ->
     exists b,
       elements s' !! j = Some (set_animation (Some b) elj) /\
       animations s' !! b =
         Some {| owner := j; frames := Closing (scrollHeight cj);
                 state := Running; cancelEventQueued := false |}).
Proof.
  intros Hsup Hel Hlistener Hdisabled Hd Hsummary Hopen Hc Hscope Hall Hown s'.
  destruct (fallback_click_state i isMobile s el d c siblings) as (sL & Hclosing & Hs');
    try done.
  unfold s'. rewrite Hs'. clear s' Hs'. simpl.
  assert (HelL : elements sL !! i = Some el).
  { rewrite (closing_frame _ _ _ _ Hclosing); [done|by right]. }
  split_and!.
  - by destruct (closing_page _ _ _ _ Hclosing) as (_ & -> & _).
  - exists (fresh_animation sL).
    by rewrite lookup_alter_eq, lookup_alter_eq, HelL, lookup_insert_eq.
  - intros j elj dj cj Hj Hne Helj Hdj Hopenj Hcj.
    destruct (closing_started _ _ _ _ Hclosing j elj dj cj) as (b & Hb & Hanim); try done.
    exists b. rewrite !lookup_alter_ne by done. split; [done|].
    rewrite lookup_insert_ne by (symmetry; by eapply fresh_animation_ne).
    destruct (animation el) as [a0|] eqn:Ha0; [|done]. simpl.
    rewrite lookup_alter_ne; [done|]. intros ->.
    destruct (closing_handles _ _ _ _ Hclosing i el b HelL Ha0) as (anim & Hanim' & Howner).
    rewrite Hanim in Hanim'. injection Hanim' as <-. simpl in Howner. done.
Qed.

(** ** When animations finish *)

Lemma onfinish_closing_eq (k : nat) (h : Z) (s : Page) (el : Element) (d : Details) :
  elements s !! k = Some el -> details el = Some d ->
  onfinish k (Closing h) s =
  Ok tt (set_elements
           (alter (set_animation None) k
              (alter (map_details reset_style) k
                 (alter (map_details (set_open false)) k (elements s)))) s).
Proof.
  intros Hel Hd. unfold onfinish. unfold bind at 1.
  by rewrite (write_open_eq _ _ _ _ _ Hel Hd).
Qed.

Lemma onfinish_closing_throw (k : nat) (h : Z) (s : Page) :
  (forall el d, elements s !! k = Some el -> details el = Some d -> False) ->
  page_of (onfinish k (Closing h) s) = s.
Proof.
  intros Hnone. unfold onfinish, bind, write_open, bind, get_details, bind, this.
  destruct (elements s !! k) as [el|] eqn:Hel; [|done].
  destruct (details el) as [d|] eqn:Hd; [|done].
  destruct (Hnone el d); done.
Qed.

Lemma finish_cases (a : nat) (s : Page) :
  let s' := deliver (AnimationFinish a) s in
  (s' = s /\ forall anim, animations s !! a = Some anim -> state anim <> Running) \/
  (exists anim,
     animations s !! a = Some anim /\ state anim = Running /\
     animations s' =
       <[a := {| owner := owner anim; frames := frames anim; state := Finished;
                 cancelEventQueued := cancelEventQueued anim |}]> (animations s) /\
     ((exists h, frames anim = Opening h /\
         elements s' =
           alter (set_animation None) (owner anim)
             (alter (map_details reset_style) (owner anim) (elements s))) \/
      (exists h el d, frames anim = Closing h /\
         elements s !! owner anim = Some el /\ details el = Some d /\
         elements s' =
           alter (set_animation None) (owner anim)
             (alter (map_details reset_style) (owner anim)
                (alter (map_details (set_open false)) (owner anim) (elements s)))) \/
      (exists h, frames anim = Closing h /\
         (forall el d, elements s !! owner anim = Some el -> details el = Some d -> False) /\
         elements s' = elements s))).
Proof.
  intros s'. unfold s', deliver.
  destruct (animations s !! a) as [anim|] eqn:Hanim; [|left; split; [done|]; by intros ? ?].
  destruct (state anim) eqn:Hstate;
    [|left; split; [done|]; intros ? [= <-]; congruence..].
  right. exists anim. split; [done|]. split; [done|].
  destruct (frames anim) as [h|h] eqn:Hframes.
  - split; [done|]. left. by exists h.
  - destruct (elements s !! owner anim) as [el|] eqn:Hel.
    + destruct (details el) as [d|] eqn:Hd.
      * erewrite onfinish_closing_eq; [|exact Hel|exact Hd].
        split; [done|]. right. left. by exists h, el, d.
      * rewrite onfinish_closing_throw.
        -- split; [done|]. right. right. exists h. split; [done|]. split; [|done].
           intros ? ? [= <-] ?. congruence.
        -- intros ? ? Hel'. simpl in Hel'. rewrite Hel in Hel'. injection Hel' as <-.
           congruence.
    + rewrite onfinish_closing_throw.
      * split; [done|]. right. right. exists h. split; [done|]. split; [|done].
        by intros ? ? ?.
      * intros ? ? Hel'. simpl in Hel'. by rewrite Hel in Hel'.
Qed.

(** What the end of an animation does to an element: its [details] stay,
    get their inline styles reset, or are closed and reset. *)
Lemma finish_element (a j : nat) (s : Page) :
  exists f : Element -> Element,
    elements (deliver (AnimationFinish a) s) !! j = f <$> elements s !! j /\
    forall el,
      details (f el) = details el \/
      details (f el) = reset_style <$> details el \/
      details (f el) = reset_style <$> (set_open false <$> details el).
Proof.
  destruct (finish_cases a s) as [[-> _]|(anim & Hanim & Hstate & _ & Hcases)].
  { exists id. split; [by destruct (elements s !! j)|]. intros el. by left. }
  destruct (decide (j = owner anim)) as [->|Hne].
  - destruct Hcases as [(h & _ & ->)|[(h & el0 & d0 & _ & _ & _ & ->)|(h & _ & _ & ->)]].
    + exists (fun el => set_animation None (map_details reset_style el)).
      rewrite !lookup_alter_eq. split; [by destruct (elements s !! owner anim)|].
      intros el. right. left. reflexivity.
    + exists (fun el => set_animation None
                          (map_details reset_style (map_details (set_open false) el))).
      rewrite !lookup_alter_eq. split; [by destruct (elements s !! owner anim)|].
      intros el. right. right. reflexivity.
    + exists id. split; [by destruct (elements s !! owner anim)|]. intros el. by left.
  - exists id. split; [|intros el; by left].
    destruct Hcases as [(h & _ & ->)|[(h & el0 & d0 & _ & _ & _ & ->)|(h & _ & _ & ->)]];
      rewrite ?lookup_alter_ne by done; by destruct (elements s !! j).
Qed.

Lemma finish_never_opens (a j : nat) (s : Page) :
  ~ is_open j s -> ~ is_open j (deliver (AnimationFinish a) s).
Proof.
  intros Hclosed (el' & d' & Hel' & Hd' & Hopen'). apply Hclosed.
  destruct (finish_element a j s) as (f & Hf & Hdetails). rewrite Hf in Hel'.
  destruct (elements s !! j) as [el|] eqn:Hel; [|done]. simpl in Hel'. injection Hel' as <-.
  destruct (Hdetails el) as [H|[H|H]]; rewrite H in Hd'.
  - by exists el, d'.
  - destruct (details el) as [d|] eqn:Hd; [|done]. simpl in Hd'. injection Hd' as <-.
    by exists el, d.
  - destruct (details el) as [d|] eqn:Hd; [|done]. simpl in Hd'. injection Hd' as <-. done.
Qed.

Lemma finish_keeps_details (a j : nat) (s : Page) :
  (exists el, elements s !! j = Some el /\ is_Some (details el)) ->
  exists el', elements (deliver (AnimationFinish a) s) !! j = Some el' /\
              is_Some (details el').
Proof.
  intros (el & Hel & [d Hd]).
  destruct (finish_element a j s) as (f & Hf & Hdetails). rewrite Hf, Hel. simpl.
  exists (f el). split; [done|].
  destruct (Hdetails el) as [H|[H|H]]; rewrite H, Hd; by eexists.
Qed.

Lemma finish_running (a a' : nat) (s : Page) (anim' : Animation) :
  animations (deliver (AnimationFinish a) s) !! a' = Some anim' ->
  state anim' = Running ->
  animations s !! a' = Some anim' /\ a' <> a.
Proof.
  intros Hanim' Hstate'.
  destruct (finish_cases a s) as [[Hsame Hnot]|(anim & Hanim & Hstate & Hanims & _)].
  - rewrite Hsame in Hanim'. split; [done|]. intros ->. by apply (Hnot anim').
  - rewrite Hanims in Hanim'. destruct (decide (a' = a)) as [->|Hne].
    + rewrite lookup_insert_eq in Hanim'. injection Hanim' as <-. done.
    + by rewrite lookup_insert_ne in Hanim'.
Qed.

Lemma finish_other_animation (a a' : nat) (s : Page) :
  a' <> a ->
  animations (deliver (AnimationFinish a) s) !! a' = animations s !! a'.
Proof.
  intros Hne.
  destruct (finish_cases a s) as [[-> _]|(anim & _ & _ & -> & _)]; [done|].
  by rewrite lookup_insert_ne.
Qed.

Lemma finish_closes (b j : nat) (s : Page) (anim : Animation) (h : Z) :
  animations s !! b = Some anim -> state anim = Running ->
  frames anim = Closing h -> owner anim = j ->
  (exists el, elements s !! j = Some el /\ is_Some (details el)) ->
  ~ is_open j (deliver (AnimationFinish b) s).
Proof.
  intros Hanim Hstate Hframes Howner (el & Hel & [d Hd]) (el' & d' & Hel' & Hd' & Hopen').
  destruct (finish_cases b s) as [[_ Hnot]|(anim0 & Hanim0 & _ & _ & Hcases)].
  { by apply (Hnot anim). }
  rewrite Hanim in Hanim0. injection Hanim0 as <-. rewrite Howner in Hcases.
  destruct Hcases as [(h0 & ? & _)|[(h0 & el0 & d0 & _ & _ & _ & Helements)|(h0 & _ & Hno & _)]].
  - congruence.
  - rewrite Helements, !lookup_alter_eq, Hel in Hel'. simpl in Hel'. injection Hel' as <-.
    simpl in Hd'. rewrite Hd in Hd'. simpl in Hd'. injection Hd' as <-. done.
  - by apply (Hno el d).
Qed.

Lemma finish_opening_keeps_open (a i : nat) (s : Page) :
  is_open i s ->
  (forall anim, animations s !! a = Some anim -> state anim = Running ->
                owner anim = i -> exists h, frames anim = Opening h) ->
  is_open i (deliver (AnimationFinish a) s).
Proof.
  intros (el & d & Hel & Hd & Hopen) Hkind.
  destruct (finish_cases a s) as [[-> _]|(anim & Hanim & Hstate & _ & Hcases)].
  { by exists el, d. }
  destruct (decide (owner anim = i)) as [Howner|Hne].
  - destruct (Hkind anim Hanim Hstate Howner) as [h Hframes]. rewrite Howner in Hcases.
    destruct Hcases as [(h0 & _ & Helements)|[(h0 & ? & ? & ? & _)|(h0 & ? & _)]];
      [|congruence..].
    exists (set_animation None (map_details reset_style el)), (reset_style d).
    rewrite Helements, !lookup_alter_eq, Hel. simpl. by rewrite Hd.
  - exists el, d. split; [|done].
    destruct Hcases as [(h & _ & ->)|[(h & el0 & d0 & _ & _ & _ & ->)|(h & _ & _ & ->)]];
      by rewrite ?lookup_alter_ne.
Qed.

Lemma finishes_cons (a : nat) (rest : list nat) (s : Page) :
  run (map AnimationFinish (a :: rest)) s
  = run (map AnimationFinish rest) (deliver (AnimationFinish a) s).
Proof. reflexivity. Qed.

(** Finish events only ever close. *)
Lemma finishes_never_open (order : list nat) (j : nat) (s : Page) :
  ~ is_open j s -> ~ is_open j (run (map AnimationFinish order) s).
Proof.
  revert s. induction order as [|a rest IH]; intros s Hclosed; [done|].
  rewrite finishes_cons. apply IH. by apply finish_never_opens.
Qed.

Lemma finishes_running (order : list nat) (s : Page) (a : nat) (anim : Animation) :
  animations (run (map AnimationFinish order) s) !! a = Some anim ->
  state anim = Running ->
  animations s !! a = Some anim /\ a ∉ order.
Proof.
  revert s. induction order as [|a0 rest IH]; intros s Hanim Hstate.
  - split; [done|]. by intros ?%elem_of_nil.
  - rewrite finishes_cons in Hanim. destruct (IH _ Hanim Hstate) as [Hanim1 Hnot].
    destruct (finish_running _ _ _ _ Hanim1 Hstate) as [Hanim0 Hne].
    split; [done|]. intros [?|?]%elem_of_cons; done.
Qed.

(** An accordion stays open while the running animations made for it are
    open animations. *)
Lemma finishes_keep_open (order : list nat) (i : nat) (s : Page) :
  is_open i s ->
  (forall a anim, animations s !! a = Some anim -> state anim = Running ->
                  owner anim = i -> exists h, frames anim = Opening h) ->
  is_open i (run (map AnimationFinish order) s).
Proof.
  revert s. induction order as [|a rest IH]; intros s Hopen Hkind; [done|].
  rewrite finishes_cons. apply IH.
  - apply finish_opening_keeps_open; [done|]. intros anim. apply Hkind.
  - intros a' anim' Hanim' Hstate' Howner'.
    destruct (finish_running _ _ _ _ Hanim' Hstate') as [Hanim0 _].
    by apply (Hkind a' anim').
Qed.

(** An accordion with a running close animation is closed once the
    animation has finished. *)
Lemma finishes_close (order : list nat) (b j : nat) (s : Page) (anim : Animation) (h : Z) :
  animations s !! b = Some anim -> state anim = Running ->
  frames anim = Closing h -> owner anim = j ->
  (exists el, elements s !! j = Some el /\ is_Some (details el)) ->
  b ∈ order ->
  ~ is_open j (run (map AnimationFinish order) s).
Proof.
  revert s. induction order as [|a rest IH]; intros s Hanim Hstate Hframes Howner Hdetails Hin.
  { by apply elem_of_nil in Hin. }
  rewrite finishes_cons. destruct (decide (a = b)) as [->|Hne].
  - apply finishes_never_open. by apply (finish_closes b j s anim h).
  - apply IH.
    + by rewrite finish_other_animation.
    + done.
    + done.
    + done.
    + by apply finish_keeps_details.
    + apply elem_of_cons in Hin as [?|?]; [congruence|done].
Qed.

(** X13.  Where [interpolate-size] is not supported and every
    [accordion-custom] under the same parent holds a [details], a click
    on the summary of a closed accordion with content has its default
    prevented, opens the accordion at once and starts its open
    animation; every other open accordion with content under the same
    parent is still open and now holds a running close animation of its
    own.  The animation an element holds in [#animation] must be one
    made for it. *)
Theorem fallback_click_opens_and_starts_closing
    (i : nat) (isMobile : bool) (s : Page) (el : Element) (d : Details) (c : Content)
    (siblings : list nat) :
  supportsInterpolateSize s = false ->
  elements s !! i = Some el ->
  clickListener el = true ->
  disabled isMobile el = false ->
  details el = Some d ->
  has_summary d = true ->
  open d = false ->
  content d = Some c ->
  scope el = Some siblings ->
  all_have_details siblings s ->
  handles_owned s ->
  let s' := deliver (Click i isMobile) s in
  defaultPrevented s' = true /\
  (exists a,
     elements s' !! i = Some (set_animation (Some a) (map_details (set_open true) el)) /\
     animations s' !! a =
       Some {| owner := i; frames := Opening (scrollHeight c);
               state := Running; cancelEventQueued := false |}) /\
  (forall j elj dj cj,
     j ∈ siblings -> j <> i ->
     elements s !! j = Some elj -> details elj = Some dj ->
     open dj = true -> content dj = Some cj ->
     exists b,
       elements s' !! j = Some (set_animation (Some b) elj) /\
       animations s' !! b =
         Some {| owner := j; frames := Closing (scrollHeight cj);
                 state := Running; cancelEventQueued := false |}).
Proof.
  intros. by eapply fallback_click_started.
Qed.

(** X14.  On the same path and under the same conditions (every
    [accordion-custom] under the parent holds a [details], and every
    [#animation] names an animation made for its element), once every
    animation that was running after the click has finished, in whatever
    order, the clicked accordion is open, every other accordion under
    its parent that was closed or had content is closed, and no
    animation is left running.  The running animations of the page the
    click found must be the ones their elements hold. *)
Theorem fallback_click_exclusive_when_animations_finish
    (i : nat) (isMobile : bool) (s : Page) (el : Element) (d : Details) (c : Content)
    (siblings : list nat) (order : list nat) :
  supportsInterpolateSize s = false ->
  elements s !! i = Some el ->
  clickListener el = true ->
  disabled isMobile el = false ->
  details el = Some d ->
  has_summary d = true ->
  open d = false ->
  content d = Some c ->
  scope el = Some siblings ->
  all_have_details siblings s ->
  handles_owned s ->
  running_held s ->
  let s1 := deliver (Click i isMobile) s in
  (forall a anim, animations s1 !! a = Some anim -> state anim = Running -> a ∈ order) ->
  let s2 := run (map AnimationFinish order) s1 in
  is_open i s2 /\
  (forall j elj dj,
     j ∈ siblings -> j <> i ->
     elements s !! j = Some elj -> details elj = Some dj ->
     (open dj = true -> is_Some (content dj)) ->
     ~ is_open j s2) /\
  (forall a anim, animations s2 !! a = Some anim -> state anim <> Running).
Proof.
  intros Hsup Hel Hlistener Hdisabled Hd Hsummary Hopen Hc Hscope Hall Hown Hheld s1 Hcover s2.
  destruct (fallback_click_started i isMobile s el d c siblings) as (_ & Hi & Hsiblings);
    try done.
  fold s1 in Hi, Hsiblings.
  destruct (fallback_click_state i isMobile s el d c siblings) as (sL & Hclosing & Hs1);
    try done.
  fold s1 in Hs1.
  assert (HelL : elements sL !! i = Some el).
  { rewrite (closing_frame _ _ _ _ Hclosing); [done|by right]. }
  split_and!.
  - apply finishes_keep_open.
    + destruct Hi as (a & Ha & _).
      exists (set_animation (Some a) (map_details (set_open true) el)), (set_open true d).
      split; [done|]. simpl. by rewrite Hd.
    + intros a anim Hanim Hstate Howner. rewrite Hs1 in Hanim. simpl in Hanim.
      destruct (decide (a = fresh_animation sL)) as [->|Hfresh].
      { rewrite lookup_insert_eq in Hanim. injection Hanim as <-. by eexists. }
      rewrite lookup_insert_ne in Hanim by done.
      assert (HanimL : animations sL !! a = Some anim /\ animation el <> Some a).
      { destruct (animation el) as [a0|]; [|done]. simpl in Hanim.
        destruct (decide (a0 = a)) as [->|Hne0].
        - rewrite lookup_alter_eq in Hanim.
          destruct (animations sL !! a) as [anim0|]; [|done]. simpl in Hanim.
          injection Hanim as <-. unfold cancelled in Hstate.
          destruct (state anim0) eqn:Hs0; simpl in Hstate; congruence.
        - rewrite lookup_alter_ne in Hanim by done. split; [done|congruence]. }
      destruct HanimL as [HanimL Hnot]. destruct Hnot.
      destruct (animations s !! a) as [anim0|] eqn:Hanim0.
      * destruct (closing_animations_old _ _ _ _ Hclosing a anim0 Hanim0)
          as (anim' & Hanim' & Howner').
        rewrite HanimL in Hanim'. injection Hanim' as <-.
        rewrite (closing_animations_frame _ _ _ _ Hclosing a anim0 Hanim0) in HanimL;
          [|right; congruence].
        injection HanimL as ->.
        destruct (Hheld a anim Hanim0 Hstate) as (el' & Hel' & Ha).
        rewrite Howner, Hel in Hel'. by injection Hel' as <-.
      * destruct (closing_animations_new _ _ _ _ Hclosing a anim HanimL Hanim0) as [_ ?].
        done.
  - intros j elj dj Hj Hne Helj Hdj Hcontent.
    destruct (open dj) eqn:Hopenj.
    + destruct (Hcontent eq_refl) as [cj Hcj].
      destruct (Hsiblings j elj dj cj) as (b & Hb & Hanim); try done.
      eapply (finishes_close order b j s1); try done.
      * exists (set_animation (Some b) elj). split; [done|]. simpl. by rewrite Hdj.
      * by eapply Hcover.
    + apply finishes_never_open. intros (el' & d' & Hel' & Hd' & Hopen').
      rewrite Hs1 in Hel'. simpl in Hel'. rewrite !lookup_alter_ne in Hel' by done.
      destruct (closing_elements _ _ _ _ Hclosing j) as [h Hh].
      rewrite Hh in Hel'. simpl in Hel'. rewrite Helj in Hel'. simpl in Hel'.
      injection Hel' as <-. simpl in Hd'. congruence.
  - intros a anim Hanim Hstate.
    destruct (finishes_running order s1 a anim Hanim Hstate) as [Hanim1 Hnot].
    apply Hnot. by eapply Hcover.
Qed.

(** ** An accordion without content *)




(** ** When the default action is prevented *)


(** ** Attaching and detaching *)

Lemma connectedCallback_eq (i : nat) (isMobile : bool) (s : Page) (el : Element) :
  elements s !! i = Some el ->
  connectedCallback i isMobile s =
  match details el with
  | None => Threw "Details element not found" s
  | Some d =>
      let s1 :=
        set_elements
          (alter add_keydownListener i
             (alter (map_details (set_open (default_open isMobile el))) i (elements s))) s in
      if has_summary d then
        Ok tt (set_elements
                 (alter add_mediaListener i (alter add_clickListener i (elements s1))) s)
      else Threw "Summary element not found" s1
  end.
Proof.
  intros Hel. unfold connectedCallback. unfold bind at 1.
  unfold setDefaultOpenState. unfold bind at 1. rewrite (this_eq _ _ _ Hel).
  destruct (details el) as [d|] eqn:Hd.
  - rewrite (write_open_eq _ _ _ _ _ Hel Hd).
    unfold bind at 1. unfold update_element at 1. unfold modify at 1.
    unfold bind at 1. unfold get_summary, bind at 1.
    erewrite get_details_eq;
      [|simpl; by rewrite !lookup_alter_eq, Hel|simpl; by rewrite Hd].
    simpl. by destruct (has_summary d).
  - unfold write_open, bind. by rewrite (get_details_throw _ _ _ Hel Hd).
Qed.

(** X16.  Attaching an accordion for the first time: the [keydown]
    listener is in place exactly if the element holds a [details]; the
    click and media-query listeners are in place exactly if the
    [details] also holds a [summary]; and a [details] that is there is
    opened or closed as the attributes say for the breakpoint, even when
    the callback then throws for the missing [summary]. *)
Theorem first_attach_listeners (i : nat) (isMobile : bool) (s : Page) (el : Element) :
  elements s !! i = Some el ->
  aborted el = false ->
  keydownListener el = false ->
  clickListener el = false ->
  mediaListener el = false ->
  let s' := deliver (Connected i isMobile) s in
  (listens keydownListener i s' = true <-> is_Some (details el)) /\
  (listens clickListener i s' = true <->
     exists d, details el = Some d /\ has_summary d = true) /\
  (listens mediaListener i s' = true <->
     exists d, details el = Some d /\ has_summary d = true) /\
  (forall d, details el = Some d ->
     exists el', elements s' !! i = Some el' /\
                 details el' = Some (set_open (default_open isMobile el) d)).
Proof.
  intros Hel Haborted Hkey Hclick Hmedia s'.
  unfold s', deliver. rewrite (connectedCallback_eq _ _ _ _ Hel).
  destruct (details el) as [d|] eqn:Hd.
  - destruct (has_summary d) eqn:Hsummary; unfold listens; simpl;
      rewrite !lookup_alter_eq, Hel; simpl; rewrite Haborted, Hkey, Hclick, Hmedia; simpl.
    + split_and!; try (split; [by eauto|done]).
      intros ? [= <-]. eexists. split; [done|]. simpl. by rewrite Hd.
    + split_and!.
      * split; [by eauto|done].
      * split; [done|]. intros (? & [= <-] & ?). congruence.
      * split; [done|]. intros (? & [= <-] & ?). congruence.
      * intros ? [= <-]. eexists. split; [done|]. simpl. by rewrite Hd.
  - unfold listens. simpl. rewrite Hel, Hkey, Hclick, Hmedia. split_and!.
    + split; [done|]. by intros [? ?].
    + split; [done|]. by intros (? & ? & ?).
    + split; [done|]. by intros (? & ? & ?).
    + done.
Qed.

(** *** Once aborted, always deaf *)

Lemma keeps_bind {A B : Type} (good : Page -> Prop) (m : M A) (k : A -> M B) :
  keeps good m -> (forall a, keeps good (k a)) -> keeps good (bind m k).
Proof.
  intros Hm Hk s Hs. rewrite page_of_bind. specialize (Hm s Hs).
  destruct (m s); simpl in *; [by apply Hk|done].
Qed.

Lemma keeps_ret {A : Type} (good : Page -> Prop) (a : A) : keeps good (ret a).
Proof. by intros s Hs. Qed.

Lemma keeps_throw {A : Type} (good : Page -> Prop) (message : string) :
  keeps good (throw (A := A) message).
Proof. by intros s Hs. Qed.

Lemma keeps_read {A : Type} (good : Page -> Prop) (f : Page -> A) : keeps good (read f).
Proof. by intros s Hs. Qed.

Lemma keeps_this (good : Page -> Prop) (i : nat) : keeps good (this i).
Proof. intros s Hs. unfold this. by destruct (elements s !! i). Qed.

Lemma deaf_elements (i : nat) (s s' : Page) :
  elements s' = elements s -> deaf i s -> deaf i s'.
Proof. intros Heq (el & Hel & H). exists el. by rewrite Heq. Qed.

Lemma deaf_alter (i k : nat) (f : Element -> Element) (s : Page) :
  (forall el, aborted el = true -> aborted (f el) = true) ->
  (forall el, aborted el = true -> keydownListener el = false ->
              keydownListener (f el) = false) ->
  (forall el, aborted el = true -> clickListener el = false ->
              clickListener (f el) = false) ->
  (forall el, aborted el = true -> mediaListener el = false ->
              mediaListener (f el) = false) ->
  deaf i s -> deaf i (set_elements (alter f k (elements s)) s).
Proof.
  intros Ha Hk Hc Hm (el & Hel & Haborted & Hkey & Hclick & Hmedia).
  destruct (decide (k = i)) as [->|Hne].
  - exists (f el). simpl. rewrite lookup_alter_eq, Hel. simpl.
    split_and!; [done|by apply Ha|by apply Hk|by apply Hc|by apply Hm].
  - exists el. simpl. by rewrite lookup_alter_ne.
Qed.

Lemma keeps_deaf_update (i k : nat) (f : Element -> Element) :
  (forall el, aborted el = true -> aborted (f el) = true) ->
  (forall el, aborted el = true -> keydownListener el = false ->
              keydownListener (f el) = false) ->
  (forall el, aborted el = true -> clickListener el = false ->
              clickListener (f el) = false) ->
  (forall el, aborted el = true -> mediaListener el = false ->
              mediaListener (f el) = false) ->
  keeps (deaf i) (update_element k f).
Proof. intros Ha Hk Hc Hm s Hs. by apply deaf_alter. Qed.

Lemma keeps_deaf_details (i k : nat) (f : Details -> Details) :
  keeps (deaf i) (update_element k (map_details f)).
Proof. apply keeps_deaf_update; by intros el H; try intros H'. Qed.

Lemma keeps_deaf_animation (i k : nat) (a : option nat) :
  keeps (deaf i) (update_element k (set_animation a)).
Proof. apply keeps_deaf_update; by intros el H; try intros H'. Qed.

Lemma keeps_deaf_keydownListener (i k : nat) :
  keeps (deaf i) (update_element k add_keydownListener).
Proof.
  apply keeps_deaf_update; try (by intros el H; try intros H').
  intros el H H'. simpl. by rewrite H, H'.
Qed.

Lemma keeps_deaf_clickListener (i k : nat) :
  keeps (deaf i) (update_element k add_clickListener).
Proof.
  apply keeps_deaf_update; try (by intros el H; try intros H').
  intros el H H'. simpl. by rewrite H, H'.
Qed.

Lemma keeps_deaf_mediaListener (i k : nat) :
  keeps (deaf i) (update_element k add_mediaListener).
Proof.
  apply keeps_deaf_update; try (by intros el H; try intros H').
  intros el H H'. simpl. by rewrite H, H'.
Qed.

Lemma keeps_deaf_modify (i : nat) (f : Page -> Page) :
  (forall s, elements (f s) = elements s) -> keeps (deaf i) (modify f).
Proof. intros Hf s Hs. apply (deaf_elements i s); [apply Hf|done]. Qed.

Create HintDb accordion.

#[local] Hint Resolve keeps_ret keeps_throw keeps_read keeps_this
  keeps_deaf_details keeps_deaf_animation keeps_deaf_keydownListener
  keeps_deaf_clickListener keeps_deaf_mediaListener : accordion.

Ltac keeps_step :=
  first
    [ progress auto with accordion
    | apply keeps_bind; [|intros ?]
    | apply keeps_deaf_modify; done
    | match goal with
      | |- keeps _ (if ?b then _ else _) => destruct b
      | |- keeps _ (match ?x with _ => _ end) => destruct x
      end ].

Ltac keeps_deaf := repeat keeps_step.

Lemma keeps_deaf_get_details (i k : nat) : keeps (deaf i) (get_details k).
Proof. unfold get_details. keeps_deaf. Qed.

#[local] Hint Resolve keeps_deaf_get_details : accordion.

Lemma keeps_deaf_get_summary (i k : nat) : keeps (deaf i) (get_summary k).
Proof. unfold get_summary. keeps_deaf. Qed.

Lemma keeps_deaf_get_content (i k : nat) : keeps (deaf i) (get_content k).
Proof. unfold get_content. keeps_deaf. Qed.

Lemma keeps_deaf_write_open (i k : nat) (b : bool) : keeps (deaf i) (write_open k b).
Proof. unfold write_open. keeps_deaf. Qed.

Lemma keeps_deaf_preventDefault (i : nat) : keeps (deaf i) preventDefault.
Proof. by apply keeps_deaf_modify. Qed.

Lemma keeps_deaf_animate (i k : nat) (f : keyframes) : keeps (deaf i) (animate k f).
Proof. intros s Hs. by apply (deaf_elements i s). Qed.

Lemma keeps_deaf_cancel (i a : nat) : keeps (deaf i) (cancel a).
Proof. by apply keeps_deaf_modify. Qed.

#[local] Hint Resolve keeps_deaf_get_summary keeps_deaf_get_content keeps_deaf_write_open
  keeps_deaf_preventDefault keeps_deaf_animate keeps_deaf_cancel : accordion.

Lemma keeps_deaf_cancel_running (i k : nat) : keeps (deaf i) (cancel_running k).
Proof. unfold cancel_running. keeps_deaf. Qed.

#[local] Hint Resolve keeps_deaf_cancel_running : accordion.

Lemma keeps_deaf_setDefaultOpenState (i k : nat) (isMobile : bool) :
  keeps (deaf i) (setDefaultOpenState k isMobile).
Proof. unfold setDefaultOpenState. keeps_deaf. Qed.

Lemma keeps_deaf_animateOpen (i k : nat) : keeps (deaf i) (animateOpen k).
Proof. unfold animateOpen. keeps_deaf. Qed.

Lemma keeps_deaf_animateClose (i k : nat) : keeps (deaf i) (animateClose k).
Proof. unfold animateClose. keeps_deaf. Qed.

#[local] Hint Resolve keeps_deaf_setDefaultOpenState keeps_deaf_animateOpen
  keeps_deaf_animateClose : accordion.

Lemma keeps_deaf_closeSibling (i k j : nat) : keeps (deaf i) (closeSibling k j).
Proof. unfold closeSibling. keeps_deaf. Qed.

#[local] Hint Resolve keeps_deaf_closeSibling : accordion.

Lemma keeps_deaf_for_each (i : nat) (l : list nat) (body : nat -> M unit) :
  (forall j, keeps (deaf i) (body j)) -> keeps (deaf i) (for_each l body).
Proof.
  intros Hbody. induction l as [|j rest IH]; simpl; [apply keeps_ret|].
  apply keeps_bind; [apply Hbody|by intros ?].
Qed.

Lemma keeps_deaf_closeSiblings (i k : nat) : keeps (deaf i) (closeSiblings k).
Proof.
  unfold closeSiblings. apply keeps_bind; [apply keeps_this|]. intros el.
  destruct (scope el); [|apply keeps_ret].
  apply keeps_deaf_for_each. intros j. apply keeps_deaf_closeSibling.
Qed.

#[local] Hint Resolve keeps_deaf_closeSiblings : accordion.

Lemma keeps_deaf_handleClick (i k : nat) (isMobile : bool) :
  keeps (deaf i) (handleClick k isMobile).
Proof. unfold handleClick. keeps_deaf. Qed.

Lemma keeps_deaf_handleKeyDown (i k : nat) (key : string) :
  keeps (deaf i) (handleKeyDown k key).
Proof. unfold handleKeyDown. keeps_deaf. Qed.

Lemma keeps_deaf_connectedCallback (i k : nat) (isMobile : bool) :
  keeps (deaf i) (connectedCallback k isMobile).
Proof. unfold connectedCallback. keeps_deaf. Qed.

Lemma keeps_deaf_disconnectedCallback (i k : nat) :
  keeps (deaf i) (disconnectedCallback k).
Proof.
  unfold disconnectedCallback. apply keeps_bind.
  - apply keeps_deaf_update; by intros el H; try intros H'.
  - intros ?. keeps_deaf.
Qed.

Lemma keeps_deaf_onfinish (i k : nat) (f : keyframes) : keeps (deaf i) (onfinish k f).
Proof. unfold onfinish. destruct f; keeps_deaf. Qed.

Lemma keeps_deaf_oncancel (i k : nat) : keeps (deaf i) (oncancel k).
Proof. unfold oncancel. keeps_deaf. Qed.

Lemma deaf_deliver (i : nat) (e : event) (s : Page) : deaf i s -> deaf i (deliver e s).
Proof.
  intros Hs. destruct e as [k isMobile|k key|k isMobile|a|a|k isMobile|k]; unfold deliver.
  - destruct (has_summary_element k s); [|done].
    assert (Hs0 : deaf i (set_defaultPrevented false s)) by by apply (deaf_elements i s).
    assert (Hs1 : deaf i (if listens clickListener k (set_defaultPrevented false s)
                          then page_of (handleClick k isMobile (set_defaultPrevented false s))
                          else set_defaultPrevented false s)).
    { destruct (listens clickListener k _); [|done]. by apply keeps_deaf_handleClick. }
    cbv zeta. destruct (defaultPrevented _); [done|].
    unfold toggle. apply deaf_alter; [by intros el H; try intros H'..|done].
  - assert (Hs0 : deaf i (set_defaultPrevented false s)) by by apply (deaf_elements i s).
    cbv zeta. destruct (listens keydownListener k _); [|done].
    by apply keeps_deaf_handleKeyDown.
  - destruct (listens mediaListener k s); [|done].
    by apply keeps_deaf_setDefaultOpenState.
  - destruct (animations s !! a) as [anim|]; [|done].
    destruct (state anim); [|done..].
    apply keeps_deaf_onfinish. by apply (deaf_elements i s).
  - destruct (animations s !! a) as [anim|]; [|done].
    destruct (cancelEventQueued anim); [|done].
    apply keeps_deaf_oncancel. by apply (deaf_elements i s).
  - by apply keeps_deaf_connectedCallback.
  - by apply keeps_deaf_disconnectedCallback.
Qed.

Lemma deaf_run (i : nat) (events : list event) (s : Page) : deaf i s -> deaf i (run events s).
Proof.
  revert s. induction events as [|e rest IH]; intros s Hs; [done|].
  apply (IH (deliver e s)). by apply deaf_deliver.
Qed.

Lemma deaf_disconnected (i : nat) (s : Page) :
  is_Some (elements s !! i) -> deaf i (deliver (Disconnected i) s).
Proof.
  intros [el Hel].
  assert (Habort : deaf i (set_elements (alter abort i (elements s)) s)).
  { exists (abort el). simpl. by rewrite lookup_alter_eq, Hel. }
  unfold deliver, disconnectedCallback. rewrite page_of_bind.
  unfold update_element at 1. unfold modify at 1.
  revert Habort. generalize (set_elements (alter abort i (elements s)) s). intros s1 Hs1.
  assert (Hrest : keeps (deaf i)
    (bind (this i) (fun el =>
       match animation el with
       | Some a => bind (cancel a) (fun _ => update_element i (set_animation None))
       | None => ret tt
       end))) by keeps_deaf.
  by apply Hrest.
Qed.

(** X17.  An accordion that has been detached never listens again: the
    signal of its controller stays aborted, so whatever happens next,
    attaching it again included, none of its three listeners is in
    place, and a click on its summary is the plain toggle of the
    browser, without the exclusive behaviour and without the
    breakpoint switch-off. *)
Theorem detached_accordion_never_listens_again
    (i : nat) (s : Page) (events : list event) :
  is_Some (elements s !! i) ->
  let s' := run (Disconnected i :: events) s in
  listens keydownListener i s' = false /\
  listens clickListener i s' = false /\
  listens mediaListener i s' = false /\
  forall isMobile,
    deliver (Click i isMobile) s' =
      if has_summary_element i s' then toggle i (set_defaultPrevented false s') else s'.
Proof.
  intros Hel s'.
  assert (Hdeaf : deaf i s').
  { unfold s'. apply (deaf_run i events (deliver (Disconnected i) s)).
    by apply deaf_disconnected. }
  destruct Hdeaf as (el & Helement & _ & Hkey & Hclick & Hmedia).
  unfold listens. rewrite Helement, Hkey, Hclick, Hmedia. split_and!; try done.
  intros isMobile. unfold deliver, listens. simpl. rewrite Helement, Hclick. simpl.
  reflexivity.
Qed.

(** ** A toggle while an animation runs *)


(** ** The theorems at work on a sample page *)

Lemma all_have_details_check (l : list nat) (s : Page) :
  forallb (fun j => match elements s !! j with
                    | Some el => bool_decide (is_Some (details el))
                    | None => true
                    end) l = true ->
  all_have_details l s.
Proof.
  intros Hall j el Hj Hel. rewrite forallb_forall in Hall.
  specialize (Hall j). rewrite Hel in Hall.
  eapply bool_decide_eq_true_1, Hall. by apply list_elem_of_In.
Qed.

Lemma handles_owned_check (s : Page) :
  forallb (fun entry => bool_decide (animation entry.2 = None)) (map_to_list (elements s))
  = true ->
  handles_owned s.
Proof.
  intros Hnone j el a Hel Ha. rewrite forallb_forall in Hnone.
  specialize (Hnone (j, el)). simpl in Hnone.
  assert (animation el = None); [|congruence].
  eapply bool_decide_eq_true_1, Hnone, list_elem_of_In. by apply elem_of_map_to_list.
Qed.

Lemma running_held_check (s : Page) : animations s = ∅ -> running_held s.
Proof. intros Hnone a anim Hanim. by rewrite Hnone in Hanim. Qed.

Lemma covers_check (order : list nat) (s : Page) :
  forallb (fun entry => bool_decide (entry.1 ∈ order)) (map_to_list (animations s)) = true ->
  forall a anim, animations s !! a = Some anim -> state anim = Running -> a ∈ order.
Proof.
  intros Hall a anim Hanim _. rewrite forallb_forall in Hall.
  specialize (Hall (a, anim)). simpl in Hall.
  eapply bool_decide_eq_true_1, Hall, list_elem_of_In. by apply elem_of_map_to_list.
Qed.



Lemma fallback_click_opens_and_starts_closing_witness :
  let s' := deliver (Click 1 false) (faq false) in
  is_open 1 s' /\ is_open 2 s' /\ is_open 3 s' /\
  animations s' !! 0 =
    Some {| owner := 2; frames := Closing 120; state := Running; cancelEventQueued := false |}.
Proof.
  intros s'.
  destruct (fallback_click_opens_and_starts_closing 1 false (faq false)
              (attached ∅ (Some (panel false (Some answer))) None)
              (panel false (Some answer)) answer [1; 2; 3]) as (_ & (a & Ha & _) & Hsiblings);
    try reflexivity.
  { by apply all_have_details_check. }
  { by apply handles_owned_check. }
  fold s' in Ha, Hsiblings.
  destruct (Hsiblings 2 (attached ∅ (Some (panel true (Some answer))) None)
              (panel true (Some answer)) answer) as (b2 & Hb2 & _); try reflexivity.
  { apply elem_of_cons; right. apply elem_of_cons; by left. }
  { done. }
  destruct (Hsiblings 3 (attached ∅ (Some (panel true (Some answer))) None)
              (panel true (Some answer)) answer) as (b3 & Hb3 & _); try reflexivity.
  { apply elem_of_cons; right. apply elem_of_cons; right. apply elem_of_cons; by left. }
  { done. }
  split_and!.
  - by eexists _, _.
  - by eexists _, _.
  - by eexists _, _.
  - by vm_compute.
Defined.

Lemma fallback_click_exclusive_when_animations_finish_witness :
  let s2 := run (map AnimationFinish [2; 0; 1]) (deliver (Click 1 false) (faq false)) in
  is_open 1 s2 /\ ~ is_open 2 s2 /\ ~ is_open 3 s2.
Proof.
  intros s2.
  destruct (fallback_click_exclusive_when_animations_finish 1 false (faq false)
              (attached ∅ (Some (panel false (Some answer))) None)
              (panel false (Some answer)) answer [1; 2; 3] [2; 0; 1])
    as (Hopen & Hclosed & _); try reflexivity.
  { by apply all_have_details_check. }
  { by apply handles_owned_check. }
  { by apply running_held_check. }
  { by apply covers_check. }
  fold s2 in Hopen, Hclosed.
  split_and!; [exact Hopen| |].
  - apply (Hclosed 2 (attached ∅ (Some (panel true (Some answer))) None)
             (panel true (Some answer))); try done.
    apply elem_of_cons; right. apply elem_of_cons; by left.
  - apply (Hclosed 3 (attached ∅ (Some (panel true (Some answer))) None)
             (panel true (Some answer))); try done.
    apply elem_of_cons; right. apply elem_of_cons; right. apply elem_of_cons; by left.
Defined.


Lemma first_attach_listeners_witness :
  let page :=
    group true
      (created {["open-by-default-on-mobile" := ""]}
         (Some {| open := false; has_summary := false; content := Some answer |}))
      (created ∅ None)
      (created ∅ (Some (panel true (Some answer)))) in
  listens keydownListener 1 (deliver (Connected 1 true) page) = true /\
  listens clickListener 1 (deliver (Connected 1 true) page) = false /\
  is_open 1 (deliver (Connected 1 true) page).
Proof.
  intros page.
  destruct (first_attach_listeners 1 true page
              (created {["open-by-default-on-mobile" := ""]}
                 (Some {| open := false; has_summary := false; content := Some answer |})))
    as (Hkey & Hclick & _ & Hopen); try reflexivity.
  split_and!.
  - apply Hkey. by eexists.
  - destruct (listens clickListener 1 (deliver (Connected 1 true) page)) eqn:Hl; [|done].
    destruct Hclick as [Hclick _]. destruct (Hclick eq_refl) as (d & [= <-] & Hsummary).
    discriminate Hsummary.
  - destruct (Hopen _ eq_refl) as (el' & Hel' & Hd'). eexists el', _.
    split; [exact Hel'|]. split; [exact Hd'|]. reflexivity.
Defined.

Lemma detached_accordion_never_listens_again_witness :
  let s' := run [Disconnected 1; Connected 1 false; Click 1 false] (faq true) in
  listens clickListener 1 s' = false /\
  is_open 1 s' /\ is_open 2 s' /\ is_open 3 s'.
Proof.
  intros s'.
  destruct (detached_accordion_never_listens_again 1 (faq true)
              [Connected 1 false; Click 1 false]) as (_ & Hclick & _ & _).
  { by eexists. }
  fold s' in Hclick.
  split_and!; [exact Hclick|by eexists _, _..].
Defined.


(** ** The Escape key *)



(** * The scroll indicator *)

Lemma shows_handleScroll
    (circle : bool) (classes : gset string) (r r' : ScrollIndicator.Readings)
    (s : ScrollIndicator.Indicator) :
  ScrollIndicator.at_bottom_class ∉ classes ->
  ScrollIndicator.shows circle classes r s ->
  ScrollIndicator.shows circle classes r' (ScrollIndicator.handleScroll r' s).
Proof.
  intros Hfresh (Hcircle & Hflag & Hclasses & _ & _ & Hoffset).
  unfold ScrollIndicator.shows, ScrollIndicator.handleScroll. simpl.
  rewrite Hcircle, Hflag, Hclasses. split_and!; try done.
  destruct (ScrollIndicator.at_bottom (ScrollIndicator.progress r')),
    (ScrollIndicator.at_bottom (ScrollIndicator.progress r)); simpl; try done.
  - apply set_eq. intros x. rewrite elem_of_difference, elem_of_union, elem_of_singleton.
    split; [by intros [[?|?] ?]|]. intros Hx. split; [by right|]. by intros ->.
  - destruct circle; [done|exact Hoffset].
Qed.

Lemma shows_constructor
    (circle : bool) (classes : gset string) (r : ScrollIndicator.Readings) :
  ScrollIndicator.at_bottom_class ∉ classes ->
  ScrollIndicator.shows circle classes r (ScrollIndicator.constructor circle classes r) /\
  ScrollIndicator.scrollListener (ScrollIndicator.constructor circle classes r) = true.
Proof.
  intros Hfresh. split; [|done].
  unfold ScrollIndicator.shows, ScrollIndicator.constructor, ScrollIndicator.init,
    ScrollIndicator.handleScroll. simpl.
  split_and!; try done.
  - by destruct (ScrollIndicator.at_bottom (ScrollIndicator.progress r)).
  - by destruct circle.
Qed.

Lemma shows_deaf
    (circle : bool) (classes : gset string) (r : ScrollIndicator.Readings)
    (events : list ScrollIndicator.event) (s : ScrollIndicator.Indicator) :
  ScrollIndicator.scrollListener s = false ->
  ScrollIndicator.shows circle classes r s ->
  ScrollIndicator.shows circle classes r (ScrollIndicator.run events s).
Proof.
  revert s. induction events as [|e rest IH]; intros s Hdeaf Hshows; [done|].
  change (ScrollIndicator.run (e :: rest) s)
    with (ScrollIndicator.run rest (ScrollIndicator.deliver e s)).
  destruct e as [r'|r'|]; simpl.
  - rewrite Hdeaf. by apply IH.
  - destruct (ScrollIndicator.clickListener s); by apply IH.
  - by apply IH.
Qed.

Lemma shows_run
    (circle : bool) (classes : gset string) (r : ScrollIndicator.Readings)
    (events : list ScrollIndicator.event) (s : ScrollIndicator.Indicator) :
  ScrollIndicator.at_bottom_class ∉ classes ->
  ScrollIndicator.scrollListener s = true ->
  ScrollIndicator.shows circle classes r s ->
  ScrollIndicator.shows circle classes (ScrollIndicator.latest r events)
    (ScrollIndicator.run events s).
Proof.
  intros Hfresh. revert r s. induction events as [|e rest IH]; intros r s Hlistens Hshows;
    [done|].
  change (ScrollIndicator.run (e :: rest) s)
    with (ScrollIndicator.run rest (ScrollIndicator.deliver e s)).
  destruct e as [r'|r'|]; simpl.
  - rewrite Hlistens. apply IH; [done|]. by apply (shows_handleScroll circle classes r).
  - destruct (ScrollIndicator.clickListener s); by apply IH.
  - by apply shows_deaf.
Qed.

(** X20.  What the indicator shows depends on the latest scroll readings
    only.  For an element that does not carry the at-bottom class in the
    markup, after the construction and any scroll events, clicks and a
    [destroy], the flag [isAtBottom], the at-bottom class, the opacity,
    the pointer events and the ring offset are the ones computed from
    the readings of the last scroll event before the [destroy] (those of
    the construction if there was none), and the other classes of the
    element are as they were. *)
Theorem indicator_shows_latest_readings
    (circle : bool) (classes : gset string) (r : ScrollIndicator.Readings)
    (events : list ScrollIndicator.event) :
  ScrollIndicator.at_bottom_class ∉ classes ->
  ScrollIndicator.shows circle classes (ScrollIndicator.latest r events)
    (ScrollIndicator.run events (ScrollIndicator.constructor circle classes r)).
Proof.
  intros Hfresh. destruct (shows_constructor circle classes r Hfresh) as [Hshows Hlistens].
  by apply shows_run.
Qed.

Lemma indicator_shows_latest_readings_witness :
  let s :=
    ScrollIndicator.run
      [ScrollIndicator.Scroll ScrollIndicator.at_end;
       ScrollIndicator.Click ScrollIndicator.at_end;
       ScrollIndicator.Scroll ScrollIndicator.at_top;
       ScrollIndicator.Destroy;
       ScrollIndicator.Scroll ScrollIndicator.at_end]
      (ScrollIndicator.constructor true {["scroll-indicator"]} ScrollIndicator.at_end) in
  ScrollIndicator.shows true {["scroll-indicator"]} ScrollIndicator.at_top s /\
  ScrollIndicator.isAtBottom s = false /\
  ScrollIndicator.opacity s = Some PrimFloat.one.
Proof.
  intros s. split; [|by vm_compute].
  apply (indicator_shows_latest_readings true {["scroll-indicator"]} ScrollIndicator.at_end
           [ScrollIndicator.Scroll ScrollIndicator.at_end;
            ScrollIndicator.Click ScrollIndicator.at_end;
            ScrollIndicator.Scroll ScrollIndicator.at_top;
            ScrollIndicator.Destroy;
            ScrollIndicator.Scroll ScrollIndicator.at_end]).
  by vm_compute.
Defined.

(** X21.  On a page that cannot be scrolled (the document is not higher
    than the window, or a reading is not a number), [handleScroll] takes
    the progress to be 0 whatever [scrollY] is: the ring is empty, the
    indicator is fully opaque and takes pointer events, the at-bottom
    flag and class are off, and a click asks the window to scroll to
    [maxScroll] itself, which is not positive. *)
Theorem page_that_cannot_scroll
    (r : ScrollIndicator.Readings) (s : ScrollIndicator.Indicator) :
  PrimFloat.ltb PrimFloat.zero (ScrollIndicator.maxScroll r) = false ->
  let s' := ScrollIndicator.handleScroll r s in
  ScrollIndicator.isAtBottom s' = false /\
  (ScrollIndicator.class_follows_flag s ->
   ScrollIndicator.at_bottom_class ∉ ScrollIndicator.classList s') /\
  ScrollIndicator.opacity s' = Some PrimFloat.one /\
  ScrollIndicator.pointerEvents s' = Some "auto" /\
  (ScrollIndicator.progressCircle s = true ->
   ScrollIndicator.strokeDashoffset s' = Some ScrollIndicator.circumference) /\
  ScrollIndicator.scrolledTo (ScrollIndicator.handleClick r s')
  = ScrollIndicator.maxScroll r :: ScrollIndicator.scrolledTo s.
Proof.
  intros Hmax s'.
  assert (Hp : ScrollIndicator.progress r = PrimFloat.zero).
  { unfold ScrollIndicator.progress. unfold PrimFloat.zero in Hmax. by rewrite Hmax. }
  unfold s', ScrollIndicator.handleScroll, ScrollIndicator.handleClick. simpl. rewrite Hp.
  change (ScrollIndicator.at_bottom PrimFloat.zero) with false.
  split_and!.
  - done.
  - intros Hfollows. unfold ScrollIndicator.class_follows_flag in Hfollows.
    destruct (ScrollIndicator.isAtBottom s); simpl.
    + apply not_elem_of_difference. right. by apply elem_of_singleton.
    + intros Hin. by apply Hfollows in Hin.
  - by vm_compute.
  - by vm_compute.
  - intros ->. by vm_compute.
  - done.
Qed.

Lemma page_that_cannot_scroll_witness :
  let s := ScrollIndicator.constructor true ∅ ScrollIndicator.short_page in
  ScrollIndicator.isAtBottom s = false /\
  ScrollIndicator.pointerEvents s = Some "auto" /\
  ScrollIndicator.scrolledTo (ScrollIndicator.handleClick ScrollIndicator.short_page s)
  = [ScrollIndicator.maxScroll ScrollIndicator.short_page].
Proof.
  intros s.
  destruct (page_that_cannot_scroll ScrollIndicator.short_page
              {| ScrollIndicator.progressCircle := true;
                 ScrollIndicator.strokeDasharray :=
                   Some (ScrollIndicator.circumference, ScrollIndicator.circumference);
                 ScrollIndicator.strokeDashoffset := Some ScrollIndicator.circumference;
                 ScrollIndicator.isAtBottom := false;
                 ScrollIndicator.classList := ∅;
                 ScrollIndicator.opacity := None;
                 ScrollIndicator.pointerEvents := None;
                 ScrollIndicator.clickListener := true;
                 ScrollIndicator.scrollListener := true;
                 ScrollIndicator.scrolledTo := [] |})
    as (Hflag & _ & _ & Hpointer & _ & Hclick); [by vm_compute|].
  split_and!; [exact Hflag|exact Hpointer|exact Hclick].
Defined.

(** X22.  At the end of the page, when the progress [handleScroll]
    computes is 1, the ring is complete and the at-bottom flag and class
    are on, but the indicator is fully transparent and takes no pointer
    events; a click, if one is made, scrolls to the top. *)
Theorem end_of_page_hides_the_indicator
    (r : ScrollIndicator.Readings) (s : ScrollIndicator.Indicator) :
  ScrollIndicator.progress r = PrimFloat.one ->
  ScrollIndicator.class_follows_flag s ->
  let s' := ScrollIndicator.handleScroll r s in
  ScrollIndicator.isAtBottom s' = true /\
  ScrollIndicator.at_bottom_class ∈ ScrollIndicator.classList s' /\
  ScrollIndicator.opacity s' = Some PrimFloat.zero /\
  ScrollIndicator.pointerEvents s' = Some "none" /\
  (ScrollIndicator.progressCircle s = true ->
   ScrollIndicator.strokeDashoffset s' = Some PrimFloat.zero) /\
  ScrollIndicator.scrolledTo (ScrollIndicator.handleClick r s')
  = PrimFloat.zero :: ScrollIndicator.scrolledTo s.
Proof.
  intros Hp Hfollows s'.
  unfold s', ScrollIndicator.handleScroll, ScrollIndicator.handleClick. simpl. rewrite Hp.
  change (ScrollIndicator.at_bottom PrimFloat.one) with true.
  split_and!.
  - done.
  - unfold ScrollIndicator.class_follows_flag in Hfollows.
    destruct (ScrollIndicator.isAtBottom s); simpl.
    + by apply Hfollows.
    + apply elem_of_union. left. by apply elem_of_singleton.
  - by vm_compute.
  - by vm_compute.
  - intros ->. by vm_compute.
  - done.
Qed.

Lemma end_of_page_hides_the_indicator_witness :
  let s :=
    ScrollIndicator.handleScroll ScrollIndicator.at_end
      (ScrollIndicator.constructor true ∅ ScrollIndicator.at_top) in
  ScrollIndicator.isAtBottom s = true /\
  ScrollIndicator.opacity s = Some PrimFloat.zero /\
  ScrollIndicator.pointerEvents s = Some "none".
Proof.
  intros s.
  destruct (end_of_page_hides_the_indicator ScrollIndicator.at_end
              (ScrollIndicator.constructor true ∅ ScrollIndicator.at_top))
    as (Hflag & _ & Hopacity & Hpointer & _); [by vm_compute| |].
  - split; [by vm_compute|done].
  - split_and!; [exact Hflag|exact Hopacity|exact Hpointer].
Defined.
